(** * pvi: alignment statistics of [src/pvi.c]

    A shallow embedding of the statistics-preparation pipeline of pvi
    ([MSARead], [MSAReadCode], [MSAReweightSequences], [MSACountMarginals],
    the deterministic parts of [MSAEstimateSampleSize] and the average
    product correction of [OutputCouplingScores]) together with the
    properties that the specification states about it and further
    properties of the code.

    Conventions of the embedding.

    - [numeric_t] is declared in [include/pvi.h], which is not among the
      sources.  The program is therefore written once over an
      interface [Numeric] of the arithmetic the C code uses, and run at two
      instances: exact rationals [Q] and IEEE binary64 [float].  A property
      stated for every instance of [Numeric] holds of the code whatever the
      arithmetic rounds to.  A property stated in [Q] is a property of the
      code in exact arithmetic only, and says so: in binary64 the sums and
      quotients are rounded, overflow to an infinity, or are NaN, and the
      program is evaluated at [float] to show it.
      In [Q] a quotient by zero is zero, where IEEE arithmetic gives an
      infinity or NaN: every statement in [Q] about a quotient of the code
      carries the assumption that its denominator is not zero.
    - counters and sizes ([nSeqs], [nSites], [nCodes], loop indices) are
      [nat]; symbol codes ([letter_t]) are signed and modelled as [Z].
    - C [for] loops are [for_loop lo hi body], a left fold over
      [lo, lo+1, ..., hi-1], with the mutated object passed as state.
    - [weights] and [sequences] are arrays, modelled as lists updated by
      index; the accessor macros [seq(s,i)], [fi(i,a)], [fij(i,j,a,b)] and
      [ungapij(i,j)] also come from the missing header: [sequences] is
      row-major as the loader itself writes it, and the statistics tables
      are keyed by their logical indices.  An access of the C code outside
      the bounds of an array has no counterpart in a table: the properties
      of the tables are stated for alignments whose codes keep every access
      in bounds, and for cells inside the tables.
    - characters are the 7-bit ASCII characters: [MSAReadCode] takes a
      [char], which is signed on the usual platforms, and [toupper] is
      defined on the values of [unsigned char]; for the bytes 128 to 255 the
      embedding is not the code.  The properties of the encoding that
      depend on it are stated for ASCII characters. *)

From Stdlib Require Import ZArith QArith Qminmax Lqa Lia List String Ascii.
From Stdlib Require Import PrimFloat FloatOps SpecFloat.
From Stdlib Require Uint63.
From stdpp Require Import base list.

Set Default Proof Using "Type".
Local Open Scope nat_scope.

(** ** Arithmetic interface *)

Class Numeric (T : Type) := {
  nlit : Z -> T;            (* integer literal, or int converted to numeric_t *)
  nadd : T -> T -> T;
  nsub : T -> T -> T;
  nmul : T -> T -> T;
  ndiv : T -> T -> T;
  nleb : T -> T -> bool;    (* x <= y *)
  nltb : T -> T -> bool     (* x <  y *)
}.

Definition nzero {T} `{Numeric T} : T := nlit 0.
Definition none {T} `{Numeric T} : T := nlit 1.
Definition nnat {T} `{Numeric T} (n : nat) : T := nlit (Z.of_nat n).
(* the value of a C comparison (0 or 1) converted to numeric_t *)
Definition nbool {T} `{Numeric T} (b : bool) : T := nlit (if b then 1 else 0).

#[export] Instance Q_numeric : Numeric Q := {
  nlit := inject_Z;
  nadd := Qplus;
  nsub := Qminus;
  nmul := Qmult;
  ndiv := Qdiv;
  nleb := Qle_bool;
  nltb := fun x y => negb (Qle_bool y x)
}.

Definition float_of_Z (z : Z) : float :=
  match z with
  | Z0 => PrimFloat.zero
  | Zpos _ => PrimFloat.of_uint63 (Uint63.of_Z z)
  | Zneg _ => PrimFloat.opp (PrimFloat.of_uint63 (Uint63.of_Z (- z)))
  end.

#[export] Instance float_numeric : Numeric float := {
  nlit := float_of_Z;
  nadd := PrimFloat.add;
  nsub := PrimFloat.sub;
  nmul := PrimFloat.mul;
  ndiv := PrimFloat.div;
  nleb := PrimFloat.leb;
  nltb := PrimFloat.ltb
}.

(** ** Loops and tables *)

(* for (k = lo; k < hi; k++) st = body k st *)
Definition for_loop {St : Type} (lo hi : nat) (body : nat -> St -> St) (st : St)
  : St :=
  fold_left (fun st k => body k st) (seq lo (hi - lo)) st.

(** Modelled from the spec: the accessor macros fi(i, a), fij(i, j, a, b)
    and ungapij(i, j) of include/pvi.h, which is not among the sources.  The
    specification describes them as accessor functions over the storage of
    the tables; a table is a function from the logical index of a cell to
    its value, and an array filled with 0.0 after malloc is [tzero].  (A
    write with a symbol index outside 0 .. nCodes-1 goes to a cell of its
    own here; in the C code it goes outside the row, or outside the
    array.) *)
Definition table (K T : Type) : Type := K -> T.

Definition tzero {K T} `{Numeric T} : table K T := fun _ => nzero.

(* t[k] = f (t[k]) *)
Definition tupd {K T} `{EqDecision K} (t : table K T) (k : K) (f : T -> T)
  : table K T :=
  fun k' => if decide (k' = k) then f (t k') else t k'.

(** ** Data model *)

(* [ali->alphabet == codesAA] compares pointers: it holds only when the
   built-in protein alphabet is in use, never for one given with -a. *)
Inductive alphabet_t : Type :=
| codesAA
| customAlphabet (s : string).

Definition alphabet_string (a : alphabet_t) : string :=
  match a with
  | codesAA => "-ACDEFGHIKLMNPQRSTVWY"
  | customAlphabet s => s
  end.

Definition is_codesAA (a : alphabet_t) : bool :=
  match a with codesAA => true | customAlphabet _ => false end.

Inductive estimatorMAP_t : Type :=
| INFER_MAP_PLM
| INFER_MAP_PLM_GAPREDUCE.

Record options_t (T : Type) : Type := {
  theta : T;
  scale : T;
  target : option string;
  alphabet : alphabet_t;
  estimatorMAP : estimatorMAP_t
}.
Arguments theta {T} _.
Arguments scale {T} _.
Arguments target {T} _.
Arguments alphabet {T} _.
Arguments estimatorMAP {T} _.

Record alignment_t (T : Type) : Type := {
  ali_alphabet : alphabet_t;
  nSeqs : nat;
  nSites : nat;
  nCodes : nat;
  names : list string;
  sequences : list Z;                   (* nSeqs * nSites codes, row-major *)
  ali_target : Z;                       (* -1: no focus sequence *)
  weights : list T;
  nEff : T;
  fi : table (nat * Z) T;
  fij : table (nat * nat * Z * Z) T;
  gapi : table nat T;
  ungapij : table (nat * nat) T
}.
Arguments ali_alphabet {T} _.
Arguments nSeqs {T} _.
Arguments nSites {T} _.
Arguments nCodes {T} _.
Arguments names {T} _.
Arguments sequences {T} _.
Arguments ali_target {T} _.
Arguments weights {T} _.
Arguments nEff {T} _.
Arguments fi {T} _.
Arguments fij {T} _.
Arguments gapi {T} _.
Arguments ungapij {T} _.

(** Modelled from the spec: the macro seq(s, i) of include/pvi.h, which is
    not among the sources.  "sequences: dense matrix of symbol codes,
    row-major by sequence, size nSeqs x nSites", which is also how MSARead
    fills seqsReduced (index i + s * nValidSites). *)
Definition seqAt {T} (ali : alignment_t T) (s i : nat) : Z :=
  nth (i + nSites ali * s) (sequences ali) 0%Z.

(* ali->weights[s] *)
Definition weightAt {T} `{Numeric T} (w : list T) (s : nat) : T :=
  nth s w nzero.

(** ** MSAReweightSequences *)

Section Reweight.
Context {T : Type} `{Numeric T}.
Variable ali : alignment_t T.
Variable th : T.

(* int id = 0; for (n...) id += (seq(s, n) == seq(t, n)); *)
Definition identity (s t : nat) : nat :=
  for_loop 0 (nSites ali)
    (fun n id => id + (if (seqAt ali s n =? seqAt ali t n)%Z then 1 else 0)) 0.

(* id >= ((1 - theta) * ali->nSites) *)
Definition is_neighbor (s t : nat) : bool :=
  nleb (nmul (nsub none th) (nnat (nSites ali))) (nnat (identity s t)).

(* weights[s] += 1.0 *)
Definition incr (x : T) : T := nadd x none.

(* The loop nest compiled under _OPENMP: all ordered pairs; the iteration
   for sequence s only ever writes weights[s], so the threads do not
   interfere and the nest is read in program order. *)
Definition neighborhoods_parallel (w : list T) : list T :=
  for_loop 0 (nSeqs ali) (fun s w =>
    for_loop 0 (nSeqs ali) (fun t w =>
      if negb (s =? t) then
        if is_neighbor s t then alter incr s w else w
      else w) w) w.

(* The single-core loop nest: each unordered pair once, both sides. *)
Definition neighborhoods_sequential (w : list T) : list T :=
  for_loop 0 (nSeqs ali - 1) (fun s w =>
    for_loop (s + 1) (nSeqs ali) (fun t w =>
      if is_neighbor s t then alter incr t (alter incr s w) else w) w) w.

End Reweight.

(* theta >= 0 && theta <= 1 *)
Definition theta_in_range {T} `{Numeric T} (th : T) : bool :=
  nleb nzero th && nleb th none.

Definition MSAReweightSequences {T} `{Numeric T} (openmp : bool)
    (ali : alignment_t T) (th sc : T) : alignment_t T :=
  let n := nSeqs ali in
  let w := for_loop 0 n (fun i w => <[i := none]> w) (weights ali) in
  let w :=
    if theta_in_range th then
      let w := if openmp then neighborhoods_parallel ali th w
               else neighborhoods_sequential ali th w in
      for_loop 0 n (fun i w => alter (fun x => ndiv none x) i w) w
    else w in
  let w := for_loop 0 n (fun i w => alter (fun x => nmul x sc) i w) w in
  let neff := for_loop 0 n (fun i acc => nadd acc (weightAt w i)) nzero in
  {| ali_alphabet := ali_alphabet ali; nSeqs := nSeqs ali;
     nSites := nSites ali; nCodes := nCodes ali; names := names ali;
     sequences := sequences ali; ali_target := ali_target ali;
     weights := w; nEff := neff;
     fi := fi ali; fij := fij ali; gapi := gapi ali; ungapij := ungapij ali |}.

(** ** MSACountMarginals *)

Section Marginals.
Context {T : Type} `{Numeric T}.
Variable ali : alignment_t T.

(* Gap frequencies at each position (gap-reduced convention). *)
Definition count_gapi (Zinv : T) : table nat T :=
  let g := for_loop 0 (nSeqs ali) (fun s g =>
             for_loop 0 (nSites ali) (fun i g =>
               tupd g i (fun x =>
                 nadd x (nmul (nbool (seqAt ali s i =? 0)%Z)
                              (weightAt (weights ali) s)))) g) tzero in
  for_loop 0 (nSites ali) (fun i g => tupd g i (fun x => nmul x Zinv)) g.

(* Doubly ungapped frequencies at each pair of positions.  The final
   scaling runs over the nPairs cells of the array, that is over all
   pairs i < j. *)
Definition count_ungapij (Zinv : T) : table (nat * nat) T :=
  let u := for_loop 0 (nSeqs ali) (fun s u =>
             for_loop 0 (nSites ali - 1) (fun i u =>
               for_loop (i + 1) (nSites ali) (fun j u =>
                 tupd u (i, j) (fun x =>
                   nadd x (nmul (nbool ((0 <? seqAt ali s i)%Z
                                        && (0 <? seqAt ali s j)%Z))
                                (weightAt (weights ali) s)))) u) u) tzero in
  for_loop 0 (nSites ali - 1) (fun i u =>
    for_loop (i + 1) (nSites ali) (fun j u =>
      tupd u (i, j) (fun x => nmul x Zinv)) u) u.

(* First-order ungapped counts: if (seq(s,i) > 0) fi(i, seq(s,i)-1) += w[s] *)
Definition count_fi_ungapped : table (nat * Z) T :=
  for_loop 0 (nSeqs ali) (fun s f =>
    for_loop 0 (nSites ali) (fun i f =>
      if (0 <? seqAt ali s i)%Z then
        tupd f (i, (seqAt ali s i - 1)%Z)
          (fun x => nadd x (weightAt (weights ali) s))
      else f) f) tzero.

(* Second-order ungapped counts. *)
Definition count_fij_ungapped : table (nat * nat * Z * Z) T :=
  for_loop 0 (nSeqs ali) (fun s f =>
    for_loop 0 (nSites ali - 1) (fun i f =>
      for_loop (i + 1) (nSites ali) (fun j f =>
        if (0 <? seqAt ali s i)%Z then
          if (0 <? seqAt ali s j)%Z then
            tupd f (i, j, (seqAt ali s i - 1)%Z, (seqAt ali s j - 1)%Z)
              (fun x => nadd x (weightAt (weights ali) s))
          else f
        else f) f) f) tzero.

(* Normalize conditional distributions: each row of fi is multiplied by
   the inverse of its own total.  ([fsum] is a C double whatever
   numeric_t is; the interface has one numeric type.) *)
Definition normalize_fi (nC : nat) (f : table (nat * Z) T) : table (nat * Z) T :=
  for_loop 0 (nSites ali) (fun i f =>
    let fsum := for_loop 0 nC (fun ai acc => nadd acc (f (i, Z.of_nat ai))) nzero in
    let fsumInv := ndiv none fsum in
    for_loop 0 nC (fun ai f =>
      tupd f (i, Z.of_nat ai) (fun x => nmul x fsumInv)) f) f.

Definition normalize_fij (nC : nat) (f : table (nat * nat * Z * Z) T)
  : table (nat * nat * Z * Z) T :=
  for_loop 0 (nSites ali - 1) (fun i f =>
    for_loop (i + 1) (nSites ali) (fun j f =>
      let fsum :=
        for_loop 0 nC (fun ai acc =>
          for_loop 0 nC (fun aj acc =>
            nadd acc (f (i, j, Z.of_nat ai, Z.of_nat aj))) acc) nzero in
      let fsumInv := ndiv none fsum in
      for_loop 0 nC (fun ai f =>
        for_loop 0 nC (fun aj f =>
          tupd f (i, j, Z.of_nat ai, Z.of_nat aj)
            (fun x => nmul x fsumInv)) f) f) f) f.

(* Regular marginals: fi(i, seq(s,i)) += w[s] * Zinv *)
Definition count_fi (Zinv : T) : table (nat * Z) T :=
  for_loop 0 (nSeqs ali) (fun s f =>
    for_loop 0 (nSites ali) (fun i f =>
      tupd f (i, seqAt ali s i)
        (fun x => nadd x (nmul (weightAt (weights ali) s) Zinv))) f) tzero.

Definition count_fij (Zinv : T) : table (nat * nat * Z * Z) T :=
  for_loop 0 (nSeqs ali) (fun s f =>
    for_loop 0 (nSites ali - 1) (fun i f =>
      for_loop (i + 1) (nSites ali) (fun j f =>
        tupd f (i, j, seqAt ali s i, seqAt ali s j)
          (fun x => nadd x (nmul (weightAt (weights ali) s) Zinv))) f) f) tzero.

End Marginals.

Definition MSACountMarginals {T} `{Numeric T}
    (ali : alignment_t T) (options : options_t T) : alignment_t T :=
  match estimatorMAP options with
  | INFER_MAP_PLM_GAPREDUCE =>
      (* ali->nCodes = strlen(ali->alphabet) - 1 *)
      let nC := String.length (alphabet_string (ali_alphabet ali)) - 1 in
      let Zinv := ndiv none (nEff ali) in
      {| ali_alphabet := ali_alphabet ali; nSeqs := nSeqs ali;
         nSites := nSites ali; nCodes := nC; names := names ali;
         sequences := sequences ali; ali_target := ali_target ali;
         weights := weights ali; nEff := nEff ali;
         fi := normalize_fi ali nC (count_fi_ungapped ali);
         fij := normalize_fij ali nC (count_fij_ungapped ali);
         gapi := count_gapi ali Zinv;
         ungapij := count_ungapij ali Zinv |}
  | INFER_MAP_PLM =>
      let Zinv := ndiv none (nEff ali) in
      {| ali_alphabet := ali_alphabet ali; nSeqs := nSeqs ali;
         nSites := nSites ali; nCodes := nCodes ali; names := names ali;
         sequences := sequences ali; ali_target := ali_target ali;
         weights := weights ali; nEff := nEff ali;
         fi := count_fi ali Zinv;
         fij := count_fij ali Zinv;
         gapi := gapi ali;
         ungapij := ungapij ali |}
  end.

(** ** MSAEstimateSampleSize

    The Robbins-Monro loop calls [InitRNG], [RandomInt], [RandomUniform]
    and [SampleCategoricalDistribution], which live in another translation
    unit, and libm's [log], [exp], [floor] and [round].  The parts of the
    function that the properties below are about are embedded one by one,
    with the values returned by the generator supplied as a list in the
    order of the calls. *)

(* int j = i; while (j == i) j = RandomInt(ali->nSites);
   [draws] holds the values of the successive calls of RandomInt; [None]
   when they run out before the loop ends. *)
Fixpoint pick_other (i : nat) (draws : list nat) : option (nat * list nat) :=
  match draws with
  | [] => None
  | d :: rest => if d =? i then pick_other i rest else Some (d, rest)
  end.

(* Pick random i & j: the two sites of one trial and the draws left. *)
Definition pick_sites {T} (ali : alignment_t T) (draws : list nat)
  : option (nat * nat * list nat) :=
  match draws with
  | [] => None
  | i :: rest =>
      match pick_other i rest with
      | Some (j, rest') => Some (i, j, rest')
      | None => None
      end
  end.

(* Compute CDFs:
     iCDF[0] = iP[0];
     for (int a = 1; a < ali->nCodes; a++) iCDF[a] = iCDF[a-1] + iP[a];
   The array comes from malloc; every cell is written before it is read. *)
Definition compute_cdf {T} `{Numeric T} (nC : nat) (P : list T) : list T :=
  for_loop 1 nC
    (fun a cdf => <[a := nadd (nth (a - 1) cdf nzero) (nth a P nzero)]> cdf)
    (<[0 := nth 0 P nzero]> (replicate nC nzero)).

(* int si = 0; while (Ui > iCDF[si]) si++;
   [cdf] is the part of the array from index [si] on; [None] when the scan
   runs past the last cell of the array. *)
Fixpoint cdf_scan {T} `{Numeric T} (U : T) (cdf : list T) (si : nat) : option nat :=
  match cdf with
  | [] => None
  | c :: rest => if nltb c U then cdf_scan U rest (S si) else Some si
  end.

(* Is row i of fi zero on all of 0 .. nCodes-1 ?  (x <= 0.0 && 0.0 <= x,
   which a NaN does not pass.) *)
Definition fi_row_zero {T} `{Numeric T} (ali : alignment_t T) (i : nat) : bool :=
  forallb (fun a => nleb (fi ali (i, Z.of_nat a)) nzero
                    && nleb nzero (fi ali (i, Z.of_nat a)))
          (seq 0 (nCodes ali)).

(* Adjust local effective sample size given gap statistics:
     numeric_t NeffLocal = Neff;
     if (options->estimatorMAP == INFER_MAP_PLM_GAPREDUCE)
         NeffLocal *= ungapij(i, j); *)
Definition trial_NeffLocal {T} `{Numeric T} (ali : alignment_t T)
    (options : options_t T) (Neff : T) (i j : nat) : T :=
  match estimatorMAP options with
  | INFER_MAP_PLM_GAPREDUCE => nmul Neff (ungapij ali (i, j))
  | INFER_MAP_PLM => Neff
  end.

(* int Nint = (int) (floor(NeffLocal)
                     + (RandomUniform() < (NeffLocal - floor(NeffLocal))));
   [floor] is libm's and [to_int] the conversion of a numeric_t to int; [U]
   is the value that RandomUniform returns. *)
Definition trial_Nint {T} `{Numeric T} (floor : T -> T) (to_int : T -> Z)
    (NeffLocal U : T) : Z :=
  to_int (nadd (floor NeffLocal)
               (nbool (nltb U (nsub NeffLocal (floor NeffLocal))))).

(* numeric_t invN = 1.0 / ((numeric_t) Nint); *)
Definition trial_invN {T} `{Numeric T} (Nint : Z) : T :=
  ndiv none (nlit Nint).

(* floor on binary64: a number with a non-negative exponent is integral;
   otherwise the mantissa is divided, rounding down.  Zeros, infinities and
   NaN are returned as they are. *)
Definition floor_double (x : float) : float :=
  match Prim2SF x with
  | S754_finite s m e =>
      if (0 <=? e)%Z then x
      else float_of_Z ((if s then Z.neg m else Z.pos m) / 2 ^ (- e))
  | _ => x
  end.

(* (int) x on binary64: the fraction is discarded.  (The conversion of a
   NaN, of an infinity or of a value outside int is undefined in C; the
   value given here is then arbitrary.) *)
Definition int_of_double (x : float) : Z :=
  match Prim2SF x with
  | S754_finite s m e =>
      if (0 <=? e)%Z then ((if s then Z.neg m else Z.pos m) * 2 ^ e)%Z
      else Z.quot (if s then Z.neg m else Z.pos m) (2 ^ (- e))
  | _ => 0%Z
  end.

(* The end of the function, with [expUncN] the value of exp(uncN) that
   the loop has reached (the loop depends on the generator and on libm,
   which are not among the sources: the value is a parameter):
     ratio = exp(uncN) / ali->nEff;
     for (i...) ali->weights[i] *= ratio;
     ali->nEff = exp(uncN); *)
Definition MSAEstimateSampleSize_rescale {T} `{Numeric T}
    (ali : alignment_t T) (expUncN : T) : alignment_t T :=
  let ratio := ndiv expUncN (nEff ali) in
  let w := for_loop 0 (nSeqs ali)
             (fun i w => alter (fun x => nmul x ratio) i w) (weights ali) in
  {| ali_alphabet := ali_alphabet ali; nSeqs := nSeqs ali;
     nSites := nSites ali; nCodes := nCodes ali; names := names ali;
     sequences := sequences ali; ali_target := ali_target ali;
     weights := w; nEff := expUncN;
     fi := fi ali; fij := fij ali; gapi := gapi ali; ungapij := ungapij ali |}.

(** ** MSAReadCode and MSARead *)

(* toupper in the C locale, on the ASCII characters.  (MSAReadCode passes
   a char: for a byte above 127 the argument is negative where char is
   signed, and the comparison with alphabet[i] is between ints; the
   embedding is the code for the characters 0 .. 127.) *)
Definition toupper (c : ascii) : ascii :=
  let n := nat_of_ascii c in
  if (97 <=? n) && (n <=? 122) then ascii_of_nat (n - 32) else c.

(* alphabet[i]; the terminating NUL at i = strlen(alphabet) *)
Definition alphabet_at (a : string) (i : nat) : ascii :=
  match String.get i a with
  | Some c => c
  | None => Ascii.zero
  end.

(* while ((i < nCodes - 1) && toupper(c) != alphabet[i]) i++; *)
Fixpoint find_code (uc : ascii) (a : string) (nC fuel i : nat) : nat :=
  match fuel with
  | 0 => i
  | S fuel' =>
      if (i <? nC - 1) && negb (Ascii.eqb uc (alphabet_at a i))
      then find_code uc a nC fuel' (S i)
      else i
  end.

Definition MSAReadCode (c : ascii) (alphabet : alphabet_t) (nC : nat) : Z :=
  let a := alphabet_string alphabet in
  (* Protein-specific treatment of '.' *)
  let c := if is_codesAA alphabet
           then if Ascii.eqb c "."%char then "-"%char else c
           else c in
  let i := find_code (toupper c) a nC nC 0 in
  (* Store lowercase characters as down-shifted by nCodes *)
  let i' : Z :=
    if negb (Ascii.eqb c (alphabet_at a i))
       && Ascii.eqb (toupper c) (alphabet_at a i)
    then (Z.of_nat i - Z.of_nat nC)%Z else Z.of_nat i in
  (* Encode out-of-alphabet characters by [nCodes] *)
  if (0 <? i')%Z && negb (Ascii.eqb (toupper c) (alphabet_at a (Z.to_nat i')))
  then Z.of_nat nC else i'.

(* (seq(s, i) >= -ali->nCodes) && (seq(s, i) < ali->nCodes) *)
Definition code_in_range (nC : nat) (c : Z) : bool :=
  ((- Z.of_nat nC <=? c) && (c <? Z.of_nat nC))%Z.

(* seqValid[s]: the number of cells of the row that are in range *)
Definition seqValid (nC : nat) (row : list Z) : nat :=
  length (filter (fun c => code_in_range nC c = true) row).

(* the first sequence whose name starts with the target; -1 if none *)
Fixpoint find_target (tgt : string) (names : list string) (s : nat) : Z :=
  match names with
  | [] => (-1)%Z
  | n :: rest => if String.prefix tgt n then Z.of_nat s
                 else find_target tgt rest (S s)
  end.

(* siteValid[i] under focus mode, from the focus cell of the column *)
Definition siteValid_of (isAA gapreduce : bool) (c : Z) : bool :=
  let v := if isAA && (c <? 0)%Z then false else true in
  if (isAA || gapreduce) && (c =? 0)%Z then false else v.

(* the cells of a row at the columns with siteValid[i] == 1 *)
Fixpoint select_sites (siteValid : list bool) (row : list Z) : list Z :=
  match siteValid, row with
  | v :: vs, c :: cs => if v then c :: select_sites vs cs else select_sites vs cs
  | _, _ => []
  end.

(* if (seq(s, i) < 0) seq(s, i) += ali->nCodes *)
Definition shift_code (nC : nat) (c : Z) : Z :=
  if (c <? 0)%Z then (c + Z.of_nat nC)%Z else c.

Definition is_gapreduce (e : estimatorMAP_t) : bool :=
  match e with INFER_MAP_PLM_GAPREDUCE => true | INFER_MAP_PLM => false end.

(* [records] are the (name, sequence) pairs of the FASTA file, as the two
   passes over the file read them; the first pass starts from nSeqs = 1, so
   that there is always a first record (a file without any line is read as
   one record with an empty name and an empty sequence) and the list is
   never empty for a file; the branch for [[]] is there for totality only.
   [None] stands for the exit with an error message (sequences of
   different lengths).  The offsets array and the region parsed from the
   focus name are left out. *)
Definition MSARead {T} `{Numeric T}
    (records : list (string * string)) (options : options_t T)
  : option (alignment_t T) :=
  match records with
  | [] => None
  | (_, seq0) :: _ =>
      let alpha := alphabet options in
      let nC := String.length (alphabet_string alpha) in
      let nSites0 := String.length seq0 in
      if forallb (fun r => String.length (snd r) =? nSites0) records then
        let nSeqs0 := length records in
        let names0 := map fst records in
        (* Encode full alignment block *)
        let rows := map (fun r => map (fun c => MSAReadCode c alpha nC)
                                      (list_ascii_of_string (snd r))) records in
        (* Focus mode: locate the focus sequence *)
        let tgt := match target options with
                   | Some t => find_target t names0 0
                   | None => (-1)%Z
                   end in
        (* Always discard any sequences with out-of-alphabet characters *)
        let valid := fun row => seqValid nC row =? nSites0 in
        let nValidSeqs := length (filter (fun row => valid row = true) rows) in
        (* Focus mode: select only focus columns *)
        let siteValid :=
          if (0 <=? tgt)%Z then
            map (siteValid_of (is_codesAA alpha)
                              (is_gapreduce (estimatorMAP options)))
                (nth (Z.to_nat tgt) rows [])
          else repeat true nSites0 in
        let nValidSites := length (filter (fun v => v = true) siteValid) in
        (* Reposition the target for reduced alignment *)
        let tgt' :=
          if (0 <=? tgt)%Z then
            (Z.of_nat (length (filter (fun row => valid row = true)
                                 (take (S (Z.to_nat tgt)) rows))) - 1)%Z
          else tgt in
        (* Copy only selected rows and columns *)
        let reduce := (nValidSeqs <? nSeqs0) || (nValidSites <? nSites0) in
        let rows1 :=
          if reduce then
            map (select_sites siteValid)
                (filter (fun row => valid row = true) rows)
          else rows in
        let nSeqs1 := if reduce then nValidSeqs else nSeqs0 in
        let nSites1 := if reduce then nValidSites else nSites0 in
        (* Shift any lowercase codes back to uppercase *)
        let rows2 :=
          if is_codesAA alpha then map (map (shift_code nC)) rows1 else rows1 in
        Some {| ali_alphabet := alpha; nSeqs := nSeqs1; nSites := nSites1;
                nCodes := nC; names := names0;
                sequences := concat rows2; ali_target := tgt';
                weights := repeat none nSeqs1; nEff := nnat nSeqs1;
                fi := tzero; fij := tzero; gapi := tzero; ungapij := tzero |}
      else None
  end.

(** ** Notions used to state the properties *)

(* sum of f over lo, ..., hi-1 (counting) *)
Definition sum_range (f : nat -> nat) (lo hi : nat) : nat :=
  sum_list_with f (seq lo (hi - lo)).

(* sum of f over lo, ..., hi-1 (rationals) *)
Definition Qsum (f : nat -> Q) (lo hi : nat) : Q :=
  fold_right (fun k acc => (f k + acc)%Q) 0%Q (seq lo (hi - lo)).

(* the sum of the entries of an array of weights *)
Definition Qsum_list (w : list Q) : Q := fold_right Qplus 0%Q w.

(* The weights array has one cell per sequence, as MSARead allocates it.
   (An update of a list beyond its end does nothing, where the C code
   would write out of bounds.) *)
Definition wf_weights {T} (ali : alignment_t T) : Prop :=
  length (weights ali) = nSeqs ali.

(* Every cell of the alignment holds a code of the alphabet. *)
Definition valid_codes {T} (ali : alignment_t T) : Prop :=
  forall s i, s < nSeqs ali -> i < nSites ali ->
    (0 <= seqAt ali s i < Z.of_nat (nCodes ali))%Z.

(* In the words of the specification: the Hamming identity count of two
   sequences over all nSites columns. *)
Definition spec_identity {T} (ali : alignment_t T) (s t : nat) : nat :=
  length (filter (fun n => seqAt ali s n = seqAt ali t n) (seq 0 (nSites ali))).

(* In the words of the specification: the number of other sequences t
   with identity >= (1 - theta) * nSites. *)
Definition spec_neighborCount (ali : alignment_t Q) (th : Q) (s : nat) : nat :=
  length (filter
    (fun t => t <> s /\
       Qle_bool ((1 - th) * inject_Z (Z.of_nat (nSites ali)))
                (inject_Z (Z.of_nat (spec_identity ali s t))) = true)
    (seq 0 (nSeqs ali))).

(* The same count with the test as the code evaluates it, in the
   arithmetic of numeric_t: the product (1 - theta) * nSites is computed
   (and in binary64 rounded) before the identity count is compared with
   it. *)
Definition computed_neighborCount {T} `{Numeric T} (ali : alignment_t T)
    (th : T) (s : nat) : nat :=
  length (filter
    (fun t => t <> s /\
       nleb (nmul (nsub none th) (nnat (nSites ali)))
            (nnat (spec_identity ali s t)) = true)
    (seq 0 (nSeqs ali))).

(* The entries of an array of weights added to 0.0 one after the other, in
   the order of the array. *)
Definition weights_total {T} `{Numeric T} (w : list T) : T :=
  fold_left nadd w nzero.

(* The number of indices t < n other than x with P x t. *)
Definition others (P : nat -> nat -> bool) (n x : nat) : nat :=
  sum_range (fun t => Nat.b2n (negb (x =? t) && P x t)) 0 n.

(* The number of sequences t other than s that the neighbour test of the
   code accepts. *)
Definition neighbor_count {T} `{Numeric T} (ali : alignment_t T) (th : T)
    (s : nat) : nat :=
  others (is_neighbor ali th) (nSeqs ali) s.



(* The weight of the sequences that carry symbol a + 1 (the a-th symbol
   after the gap) at site i; that have no gap at site i; and the same for
   a pair of sites. *)
Definition ungapped_count (ali : alignment_t Q) (i : nat) (a : nat) : Q :=
  Qsum (fun s => if (seqAt ali s i =? Z.of_nat a + 1)%Z
                 then weightAt (weights ali) s else 0%Q) 0 (nSeqs ali).

Definition ungapped_weight (ali : alignment_t Q) (i : nat) : Q :=
  Qsum (fun s => if (0 <? seqAt ali s i)%Z
                 then weightAt (weights ali) s else 0%Q) 0 (nSeqs ali).

Definition ungapped_pair_count (ali : alignment_t Q) (i j : nat) (a b : nat) : Q :=
  Qsum (fun s => if (seqAt ali s i =? Z.of_nat a + 1)%Z
                    && (seqAt ali s j =? Z.of_nat b + 1)%Z
                 then weightAt (weights ali) s else 0%Q) 0 (nSeqs ali).

Definition ungapped_pair_weight (ali : alignment_t Q) (i j : nat) : Q :=
  Qsum (fun s => if (0 <? seqAt ali s i)%Z && (0 <? seqAt ali s j)%Z
                 then weightAt (weights ali) s else 0%Q) 0 (nSeqs ali).

(* The weights of the sequences that [hit] selects, added to 0.0 in the
   order of the sequences, as the counting loops of the code add them. *)
Definition weighted_count {T} `{Numeric T} (ali : alignment_t T)
    (hit : nat -> bool) : T :=
  for_loop 0 (nSeqs ali)
    (fun s acc => if hit s then nadd acc (weightAt (weights ali) s) else acc)
    nzero.

(* The conditional counts of the gap-reduced convention in every
   arithmetic: the weight of the sequences with symbol a + 1 at site i, and
   with symbols a + 1 and b + 1 at sites i and j. *)
Definition conditional_count {T} `{Numeric T} (ali : alignment_t T)
    (i a : nat) : T :=
  weighted_count ali (fun s => (seqAt ali s i =? Z.of_nat a + 1)%Z).

Definition conditional_pair_count {T} `{Numeric T} (ali : alignment_t T)
    (i j a b : nat) : T :=
  weighted_count ali (fun s => (seqAt ali s i =? Z.of_nat a + 1)%Z
                               && (seqAt ali s j =? Z.of_nat b + 1)%Z).

(* fsum of a site and of a pair of sites: the counts added to 0.0 in the
   order of the symbols. *)
Definition conditional_total {T} `{Numeric T} (ali : alignment_t T)
    (nC i : nat) : T :=
  for_loop 0 nC (fun a acc => nadd acc (conditional_count ali i a)) nzero.

Definition conditional_pair_total {T} `{Numeric T} (ali : alignment_t T)
    (nC i j : nat) : T :=
  for_loop 0 nC (fun a acc =>
    for_loop 0 nC (fun b acc =>
      nadd acc (conditional_pair_count ali i j a b)) acc) nzero.

(* The loader's nCodes: the length of the alphabet. *)
Definition loader_nCodes {T} (ali : alignment_t T) : Prop :=
  nCodes ali = String.length (alphabet_string (ali_alphabet ali)).

(* The character that MSAReadCode looks up: '.' is read as '-' for the
   protein alphabet. *)
Definition lookup_char (alphabet : alphabet_t) (c : ascii) : ascii :=
  if is_codesAA alphabet
  then if Ascii.eqb c "."%char then "-"%char else c
  else c.

(* The parts of MSARead's result, named: the encoded block, the index of
   the focus sequence in the file, the columns kept (siteValid), the rows
   kept (seqValid[s] == nSites), and the index of the focus sequence among
   the rows kept. *)
Definition encoded_rows {T} (options : options_t T)
    (records : list (string * string)) : list (list Z) :=
  map (fun r => map (fun c => MSAReadCode c (alphabet options)
                                (String.length (alphabet_string (alphabet options))))
                    (list_ascii_of_string (snd r))) records.

Definition first_length (records : list (string * string)) : nat :=
  match records with
  | [] => 0
  | r :: _ => String.length (snd r)
  end.

Definition focus_index {T} (options : options_t T)
    (records : list (string * string)) : Z :=
  match target options with
  | Some t => find_target t (map fst records) 0
  | None => (-1)%Z
  end.

Definition site_mask {T} (options : options_t T)
    (records : list (string * string)) : list bool :=
  if (0 <=? focus_index options records)%Z then
    map (siteValid_of (is_codesAA (alphabet options))
                      (is_gapreduce (estimatorMAP options)))
        (nth (Z.to_nat (focus_index options records))
             (encoded_rows options records) [])
  else repeat true (first_length records).

Definition row_kept {T} (options : options_t T)
    (records : list (string * string)) (row : list Z) : bool :=
  seqValid (String.length (alphabet_string (alphabet options))) row
  =? first_length records.

Definition kept_rows {T} (options : options_t T)
    (records : list (string * string)) : list (list Z) :=
  filter (fun row => row_kept options records row = true)
         (encoded_rows options records).

Definition reduced_target {T} (options : options_t T)
    (records : list (string * string)) : Z :=
  if (0 <=? focus_index options records)%Z then
    (Z.of_nat (length (filter (fun row => row_kept options records row = true)
                 (take (S (Z.to_nat (focus_index options records)))
                       (encoded_rows options records)))) - 1)%Z
  else focus_index options records.

(* The cells of a kept row in the result: the kept columns, soft codes
   shifted for the protein alphabet. *)
Definition reduced_row {T} (options : options_t T)
    (records : list (string * string)) (row : list Z) : list Z :=
  let cells := select_sites (site_mask options records) row in
  if is_codesAA (alphabet options)
  then map (shift_code (String.length (alphabet_string (alphabet options)))) cells
  else cells.

(** ** MSARead: the region of the focus sequence and the offsets

    The part of MSARead that the definition above leaves out: in focus mode
    the name of the focus sequence is parsed for a region NAME/START-END,
    and ali->offsets maps each kept column to its position in the focus
    sequence.  Without a focus sequence ali->offsets stays NULL. *)

(* isdigit in the C locale *)
Definition isdigit (c : ascii) : bool :=
  let n := nat_of_ascii c in (48 <=? n) && (n <=? 57).

(* while (regLeft + ix < strlen(focusName)
          && isdigit(focusName[regLeft + ix + 1])) ix++;
   ([alphabet_at] is the indexing of a C string.) *)
Fixpoint region_digits (focusName : string) (regLeft fuel ix : nat) : nat :=
  match fuel with
  | 0 => ix
  | S fuel' =>
      if (regLeft + ix <? String.length focusName)
         && isdigit (alphabet_at focusName (regLeft + ix + 1))
      then region_digits focusName regLeft fuel' (S ix)
      else ix
  end.

(* int tens = 1; leftOffset = -1;
   for (int i = ix; i >= 0; i--) {
       leftOffset += tens * (focusName[regLeft + i] - '0');
       tens *= 10;
   }
   The pair (leftOffset, tens) after the loop.  The ints are read as
   integers: no product overflows while the region start has at most nine
   digits, and the embedding is the code for such names only. *)
Definition region_start (focusName : string) (regLeft ix : nat) : Z * Z :=
  for_loop 0 (S ix) (fun k st =>
    let i := ix - k in
    ((fst st + snd st
        * (Z.of_nat (nat_of_ascii (alphabet_at focusName (regLeft + i))) - 48))%Z,
     (snd st * 10)%Z)) ((-1)%Z, 1%Z).

(* leftOffset, from options->target and the name of the focus sequence *)
Definition parse_region (tgt focusName : string) : Z :=
  (* Name should be immediately followed by '/' *)
  if (String.length tgt + 1 <? String.length focusName)
     && Ascii.eqb (alphabet_at focusName (String.length tgt)) "/"%char
  then
    let regLeft := String.length tgt + 1 in
    if isdigit (alphabet_at focusName regLeft) then
      let ix := region_digits focusName regLeft (String.length focusName) 0 in
      fst (region_start focusName regLeft ix)
    else 0%Z
  else 0%Z.

(* Map the offsets:
     for (i < nValidSites) ali->offsets[i] = i + 1;
     int ix = 0;
     for (i < ali->nSites)
         if (siteValid[i] == 1) { ali->offsets[ix] = i + 1 + leftOffset; ix++; }
   The array comes from malloc; the first loop writes every cell of it.
   The entries are ints, read as integers: the embedding is the code while
   i + 1 + leftOffset stays within int. *)
Definition map_offsets (siteValid : list bool) (nValidSites : nat)
    (leftOffset : Z) : list Z :=
  let offsets :=
    for_loop 0 nValidSites (fun i o => <[i := (Z.of_nat i + 1)%Z]> o)
      (replicate nValidSites 0%Z) in
  snd (for_loop 0 (length siteValid) (fun i st =>
         if nth i siteValid false
         then (S (fst st), <[fst st := (Z.of_nat i + 1 + leftOffset)%Z]> (snd st))
         else st) (0, offsets)).

(* leftOffset of the file: 0 without a focus sequence *)
Definition focus_leftOffset {T} (options : options_t T)
    (records : list (string * string)) : Z :=
  match target options with
  | Some t =>
      if (0 <=? focus_index options records)%Z
      then parse_region t
             (fst (nth (Z.to_nat (focus_index options records)) records
                       (""%string, ""%string)))
      else 0%Z
  | None => 0%Z
  end.

(* ali->offsets as MSARead leaves it; [None] for NULL *)
Definition MSARead_offsets {T} (options : options_t T)
    (records : list (string * string)) : option (list Z) :=
  if (0 <=? focus_index options records)%Z then
    let siteValid := site_mask options records in
    Some (map_offsets siteValid
            (length (filter (fun v => v = true) siteValid))
            (focus_leftOffset options records))
  else None.

(* The number of characters after the first one that the code scans as
   the region start of the focus name (ix after the while loop); 0 without
   a focus sequence. *)
Definition region_scan {T} (options : options_t T)
    (records : list (string * string)) : nat :=
  match target options with
  | Some t =>
      let focusName :=
        fst (nth (Z.to_nat (focus_index options records)) records
                 (""%string, ""%string)) in
      region_digits focusName (String.length t + 1) (String.length focusName) 0
  | None => 0
  end.

(* The value of a string of decimal digits. *)
Definition decimal (ds : list ascii) : Z :=
  fold_left (fun acc c => (10 * acc + (Z.of_nat (nat_of_ascii c) - 48))%Z) ds 0%Z.

(* The number of kept columns before column c. *)
Definition kept_before (siteValid : list bool) (c : nat) : nat :=
  length (filter (fun v => v = true) (take c siteValid)).

(** ** OutputCouplingScores: the average product correction

    The norms of the couplings are taken with sqrt and the scores are
    printed; the part in between, which corrects the norms unless
    options->zeroAPC is set, is embedded. *)

Section APC.
Context {T : Type} `{Numeric T}.

(* The macro coupling(i, j) of include/pvi.h, which is not among the
   sources: the index of the pair of sites i < j in the array couplings. *)
Variable coupling_index : nat -> nat -> nat.

(* Determine the site-wise statistics of the norms: the pair
   (C_pos_avg, C_avg) after the loop nest. *)
Definition site_statistics (nSites : nat) (couplings : table nat T)
  : table nat T * T :=
  (* nPairs = ((numeric_t) (nSites * (nSites - 1))) / 2.0 *)
  let nPairs := ndiv (nnat (nSites * (nSites - 1))) (nlit 2) in
  for_loop 0 (nSites - 1) (fun i st =>
    for_loop (i + 1) nSites (fun j st =>
      let c := couplings (coupling_index i j) in
      let C_pos_avg :=
        tupd (fst st) i (fun x => nadd x (ndiv c (nnat (nSites - 1)))) in
      let C_pos_avg :=
        tupd C_pos_avg j (fun x => nadd x (ndiv c (nnat (nSites - 1)))) in
      (C_pos_avg, nadd (snd st) (ndiv c nPairs))) st) (tzero, nzero).

(* Remove the first component:
     coupling(i, j) = coupling(i, j) - C_pos_avg[i] * C_pos_avg[j] / C_avg *)
Definition average_product_correction (nSites : nat) (couplings : table nat T)
  : table nat T :=
  let st := site_statistics nSites couplings in
  for_loop 0 (nSites - 1) (fun i cpl =>
    for_loop (i + 1) nSites (fun j cpl =>
      tupd cpl (coupling_index i j) (fun x =>
        nsub x (ndiv (nmul (fst st i) (fst st j)) (snd st)))) cpl) couplings.

End APC.

(* The average of the norms of the pairs that contain site k, and the
   average of the norms of all pairs. *)
Definition site_average (coupling_index : nat -> nat -> nat) (nSites : nat)
    (c : table nat Q) (k : nat) : Q :=
  (Qsum (fun l => c (coupling_index l k)) 0 k
   + Qsum (fun l => c (coupling_index k l)) (k + 1) nSites)
  / inject_Z (Z.of_nat (nSites - 1)).

Definition pair_average (coupling_index : nat -> nat -> nat) (nSites : nat)
    (c : table nat Q) : Q :=
  Qsum (fun i => Qsum (fun j => c (coupling_index i j)) (i + 1) nSites)
       0 (nSites - 1)
  / (inject_Z (Z.of_nat (nSites * (nSites - 1))) / 2).

(** ** Sample inputs *)

(* An alignment as the loader returns it: the given block of codes, unit
   weights, nEff = nSeqs, no statistics yet. *)
Definition loaded {T} `{Numeric T} (a : alphabet_t) (nSeq nSite : nat)
    (cells : list Z) : alignment_t T :=
  {| ali_alphabet := a; nSeqs := nSeq; nSites := nSite;
     nCodes := String.length (alphabet_string a); names := [];
     sequences := cells; ali_target := (-1)%Z;
     weights := replicate nSeq none; nEff := nnat nSeq;
     fi := tzero; fij := tzero; gapi := tzero; ungapij := tzero |}.

(* Two identical protein sequences "AC". *)
Definition twins : alignment_t Q := loaded codesAA 2 2 [1; 2; 1; 2]%Z.

(* The options main starts from: REWEIGHTING_THETA = 0.20,
   REWEIGHTING_SCALE = 1.0, no focus sequence, the protein alphabet. *)
Definition default_options {T} `{Numeric T} (e : estimatorMAP_t) : options_t T :=
  {| theta := ndiv (nlit 1) (nlit 5); scale := none; target := None;
     alphabet := codesAA; estimatorMAP := e |}.

(* The same with an alphabet given on the command line. *)
Definition custom_options {T} `{Numeric T} (a : string) : options_t T :=
  {| theta := ndiv (nlit 1) (nlit 5); scale := none; target := None;
     alphabet := customAlphabet a; estimatorMAP := INFER_MAP_PLM |}.

(* main up to the marginals: MSARead, MSAReweightSequences with the
   options' theta and scale, MSACountMarginals. *)
Definition main_statistics {T} `{Numeric T} (openmp : bool)
    (records : list (string * string)) (options : options_t T)
  : option (alignment_t T) :=
  match MSARead records options with
  | Some ali =>
      Some (MSACountMarginals
              (MSAReweightSequences openmp ali (theta options) (scale options))
              options)
  | None => None
  end.

(* Two protein sequences that agree in four columns of five. *)
Definition near_pair_records : list (string * string) :=
  [("a", "ACDEF"); ("b", "ACDEG")]%string.

(* The double just below 0.2. *)
Definition theta_below_fifth : float := 0x1.9999999999999p-3%float.

(* Ten protein sequences "A". *)
Definition ten_records : list (string * string) :=
  repeat ("s"%string, "A"%string) 10.

(* The double nearest to 0.1. *)
Definition tenth : float := 0x1.999999999999ap-4%float.

(* Two sequences whose second column is all gaps. *)
Definition gap_column_records : list (string * string) :=
  [("a", "A-"); ("b", "C-")]%string.

(* The default options with another scale (option -s). *)
Definition scaled_options {T} `{Numeric T} (e : estimatorMAP_t) (sc : T)
  : options_t T :=
  {| theta := ndiv (nlit 1) (nlit 5); scale := sc; target := None;
     alphabet := codesAA; estimatorMAP := e |}.


(* Two identical protein sequences. *)
Definition twin_records : list (string * string) :=
  [("a", "AC"); ("b", "AC")]%string.

(* Five protein sequences, two of them with a gap in the first column. *)
Definition gapped_records : list (string * string) :=
  [("1", "-A"); ("2", "-C"); ("3", "AA"); ("4", "AC"); ("5", "AD")]%string.

(* Two sequences that both have a character outside the protein
   alphabet: the loader drops every row. *)
Definition dropped_records : list (string * string) :=
  [("a", "AX"); ("b", "XC")]%string.

(* Three sequences over the alphabet "-AC", one with a lower-case letter. *)
Definition soft_records : list (string * string) :=
  [("s1", "AC"); ("s2", "Ac"); ("s3", "CA")]%string.

(* A small protein file: a sequence with a lower-case letter, one with a
   character outside the alphabet, and a focus sequence with a region. *)
Definition sample_records : list (string * string) :=
  [("s1", "AC-a"); ("s2", "ACXa"); ("s3/5-9", "aC-C")]%string.

(* The default options with a focus sequence. *)
Definition focus_options {T} `{Numeric T} (t : string) : options_t T :=
  {| theta := ndiv (nlit 1) (nlit 5); scale := none; target := Some t;
     alphabet := codesAA; estimatorMAP := INFER_MAP_PLM |}.

(* Two protein sequences "AC" and "AD" that differ in the second column. *)
Definition distinct_pair : alignment_t Q := loaded codesAA 2 2 [1; 2; 1; 3]%Z.

(** * Properties *)

(** ** Loops *)

Lemma for_loop_nil {St} lo hi (body : nat -> St -> St) st :
  hi <= lo -> for_loop lo hi body st = st.
Proof.
  intros Hle. unfold for_loop.
  replace (hi - lo) with 0 by lia. reflexivity.
Qed.

Lemma for_loop_S {St} lo hi (body : nat -> St -> St) st :
  lo <= hi -> for_loop lo (S hi) body st = body hi (for_loop lo hi body st).
Proof.
  intros Hle. unfold for_loop.
  replace (S hi - lo) with (S (hi - lo)) by lia.
  rewrite seq_S, fold_left_app. simpl.
  replace (lo + (hi - lo)) with hi by lia. reflexivity.
Qed.

(* Loop invariant rule. *)
Lemma for_loop_inv {St} (I : nat -> St -> Prop) lo hi (body : nat -> St -> St) st :
  lo <= hi ->
  I lo st ->
  (forall k st', lo <= k < hi -> I k st' -> I (S k) (body k st')) ->
  I hi (for_loop lo hi body st).
Proof.
  intros Hle H0 Hstep. induction hi as [|hi IH].
  - assert (lo = 0) by lia. subst. rewrite for_loop_nil by lia. exact H0.
  - destruct (decide (lo = S hi)) as [->|Hne].
    + rewrite for_loop_nil by lia. exact H0.
    + rewrite for_loop_S by lia. apply Hstep; [lia|].
      apply IH; [lia|]. intros k st' Hk. apply Hstep. lia.
Qed.

Lemma for_loop_ext {St} lo hi (body1 body2 : nat -> St -> St) st :
  (forall k st', lo <= k < hi -> body1 k st' = body2 k st') ->
  for_loop lo hi body1 st = for_loop lo hi body2 st.
Proof.
  intros Hext. destruct (decide (lo <= hi)) as [Hle|Hgt].
  - apply (for_loop_inv (fun k st' => st' = for_loop lo k body2 st)); [done| |].
    + rewrite for_loop_nil by lia. reflexivity.
    + intros k st' Hk ->. rewrite for_loop_S by lia. apply Hext. lia.
  - rewrite !for_loop_nil by lia. reflexivity.
Qed.

(** ** Counting over index ranges *)

Lemma sum_range_nil f lo hi : hi <= lo -> sum_range f lo hi = 0.
Proof. intros. unfold sum_range. replace (hi - lo) with 0 by lia. done. Qed.

Lemma sum_range_split f lo m hi :
  lo <= m <= hi -> sum_range f lo hi = sum_range f lo m + sum_range f m hi.
Proof.
  intros Hm. unfold sum_range.
  replace (hi - lo) with ((m - lo) + (hi - m)) by lia.
  rewrite seq_app, sum_list_with_app.
  replace (lo + (m - lo)) with m by lia. reflexivity.
Qed.

Lemma sum_range_one f k : sum_range f k (S k) = f k.
Proof.
  unfold sum_range. replace (S k - k) with 1 by lia. simpl. lia.
Qed.

Lemma sum_range_ext f g lo hi :
  (forall k, lo <= k < hi -> f k = g k) -> sum_range f lo hi = sum_range g lo hi.
Proof.
  intros Hext. induction hi as [|hi IH].
  - rewrite !sum_range_nil by lia. reflexivity.
  - destruct (decide (lo <= hi)) as [Hle|Hgt].
    + rewrite (sum_range_split f lo hi (S hi)), (sum_range_split g lo hi (S hi)) by lia.
      rewrite !sum_range_one, IH, Hext by (intros; try apply Hext; lia).
      reflexivity.
    + rewrite !sum_range_nil by lia. reflexivity.
Qed.

Lemma sum_range_zero f lo hi :
  (forall k, lo <= k < hi -> f k = 0) -> sum_range f lo hi = 0.
Proof.
  intros Hz. rewrite (sum_range_ext f (fun _ => 0)) by exact Hz.
  induction hi as [|hi IH].
  - apply sum_range_nil. lia.
  - destruct (decide (lo <= hi)) as [Hle|Hgt].
    + rewrite (sum_range_split _ lo hi (S hi)) by lia.
      rewrite sum_range_one, IH by (intros; apply Hz; lia). reflexivity.
    + apply sum_range_nil. lia.
Qed.

Lemma sum_range_single f lo hi x :
  lo <= x < hi ->
  (forall k, lo <= k < hi -> k <> x -> f k = 0) ->
  sum_range f lo hi = f x.
Proof.
  intros Hx Hz.
  rewrite (sum_range_split f lo x hi) by lia.
  rewrite (sum_range_split f x (S x) hi) by lia.
  rewrite sum_range_one.
  rewrite !sum_range_zero by (intros; apply Hz; lia). lia.
Qed.

Lemma sum_range_add f g lo hi :
  sum_range (fun k => f k + g k) lo hi = sum_range f lo hi + sum_range g lo hi.
Proof.
  induction hi as [|hi IH].
  - rewrite !sum_range_nil by lia. reflexivity.
  - destruct (decide (lo <= hi)) as [Hle|Hgt].
    + rewrite !(sum_range_split _ lo hi (S hi)) by lia.
      rewrite !sum_range_one, IH. lia.
    + rewrite !sum_range_nil by lia. reflexivity.
Qed.

Lemma length_filter_seq (P : nat -> Prop) `{forall k, Decision (P k)} lo n :
  length (filter P (seq lo n)) =
  sum_list_with (fun k => if decide (P k) then 1 else 0) (seq lo n).
Proof.
  revert lo. induction n as [|n IH]; intros lo; [done|].
  simpl. rewrite filter_cons. destruct (decide (P lo)); simpl; rewrite IH; done.
Qed.

(** ** Arrays updated cell by cell *)

Lemma for_loop_alter_lookup {A} (g : A -> A) n (w : list A) x :
  for_loop 0 n (fun i w => alter g i w) w !! x
  = if decide (x < n) then g <$> (w !! x) else w !! x.
Proof.
  induction n as [|n IH].
  - rewrite for_loop_nil by lia. destruct (decide (x < 0)); [lia|done].
  - rewrite for_loop_S by lia. destruct (decide (x = n)) as [->|Hne].
    + rewrite list_lookup_alter_eq, IH.
      destruct (decide (n < n)); [lia|]. destruct (decide (n < S n)); [done|lia].
    + rewrite list_lookup_alter_ne by done. rewrite IH.
      destruct (decide (x < n)), (decide (x < S n)); done || lia.
Qed.

Lemma for_loop_alter_length {A} (g : nat -> A -> A) lo hi (w : list A) :
  length (for_loop lo hi (fun i w => alter (g i) i w) w) = length w.
Proof.
  destruct (decide (lo <= hi)) as [Hle|Hgt].
  - apply (for_loop_inv (fun _ w' => length w' = length w)); [done..|].
    intros k w' _ Hw. by rewrite length_alter.
  - by rewrite for_loop_nil by lia.
Qed.

Lemma for_loop_alter_map {A} (g : A -> A) (w : list A) :
  for_loop 0 (length w) (fun i w => alter g i w) w = g <$> w.
Proof.
  apply list_eq. intros x. rewrite for_loop_alter_lookup, list_lookup_fmap.
  destruct (decide (x < length w)) as [Hlt|Hge]; [done|].
  rewrite lookup_ge_None_2 by lia. done.
Qed.

Lemma for_loop_insert_const {A} (c : A) (w : list A) :
  for_loop 0 (length w) (fun i w => <[i := c]> w) w = replicate (length w) c.
Proof.
  rewrite (for_loop_ext _ _ _ (fun i w => alter (fun _ => c) i w))
    by (intros; apply list_insert_alter).
  rewrite for_loop_alter_map. induction w as [|a w IH]; [done|].
  rewrite fmap_cons. simpl. by rewrite IH.
Qed.

(* A loop whose every step applies [f] to cell [x] a number of times that
   does not depend on the array applies it the sum of those times. *)
Lemma for_loop_iter_lookup {A} (f : A -> A) (c : nat -> nat) x lo hi
    (body : nat -> list A -> list A) (w : list A) :
  (forall k w', lo <= k < hi -> body k w' !! x = Nat.iter (c k) f <$> (w' !! x)) ->
  for_loop lo hi body w !! x = Nat.iter (sum_range c lo hi) f <$> (w !! x).
Proof.
  intros Hbody. destruct (decide (lo <= hi)) as [Hle|Hgt].
  - apply (for_loop_inv
      (fun k w' => w' !! x = Nat.iter (sum_range c lo k) f <$> (w !! x))); [done| |].
    + rewrite sum_range_nil by lia. simpl. by destruct (w !! x).
    + intros k w' Hk Hw. rewrite Hbody, Hw by lia.
      rewrite (sum_range_split c lo k (S k)), sum_range_one by lia.
      destruct (w !! x); simpl; [|done].
      by rewrite Nat.add_comm, Nat.iter_add.
  - rewrite for_loop_nil, sum_range_nil by lia. simpl. by destruct (w !! x).
Qed.

Lemma fmap_iter_0 {A} (f : A -> A) (o : option A) : Nat.iter 0 f <$> o = o.
Proof. by destruct o. Qed.

Lemma alter_lookup_iter {A} (f : A -> A) k (w : list A) x :
  alter f k w !! x = Nat.iter (Nat.b2n (k =? x)) f <$> (w !! x).
Proof.
  destruct (Nat.eqb_spec k x) as [->|Hne]; simpl.
  - apply list_lookup_alter_eq.
  - rewrite list_lookup_alter_ne by done. by destruct (w !! x).
Qed.

Lemma alter2_lookup_iter {A} (f : A -> A) s t (w : list A) x :
  alter f t (alter f s w) !! x
  = Nat.iter (Nat.b2n (s =? x) + Nat.b2n (t =? x)) f <$> (w !! x).
Proof.
  rewrite !alter_lookup_iter. destruct (w !! x); simpl; [|done].
  by rewrite Nat.add_comm, Nat.iter_add.
Qed.

(** ** Neighbourhood counting: the two loop nests *)

Section PairCounting.
Variable P : nat -> nat -> bool.
Hypothesis P_sym : forall s t, P s t = P t s.
Variable n : nat.

Lemma ordered_pairs_count x :
  sum_range (fun s =>
    sum_range (fun t =>
      if negb (s =? t) then if P s t then Nat.b2n (s =? x) else 0 else 0) 0 n)
    0 n
  = if decide (x < n) then others P n x else 0.
Proof using Type.
  destruct (decide (x < n)) as [Hx|Hx].
  - rewrite (sum_range_single _ 0 n x); [|lia|].
    + apply sum_range_ext. intros t _. rewrite Nat.eqb_refl.
      by destruct (negb _), (P x t).
    + intros s _ Hs. apply sum_range_zero. intros t _.
      destruct (Nat.eqb_spec s x); [done|]. by destruct (negb _), (P s t).
  - apply sum_range_zero. intros s Hs. apply sum_range_zero. intros t _.
    destruct (Nat.eqb_spec s x); [lia|]. by destruct (negb _), (P s t).
Qed.

Lemma unordered_pairs_count x :
  sum_range (fun s =>
    sum_range (fun t =>
      if P s t then Nat.b2n (s =? x) + Nat.b2n (t =? x) else 0) (s + 1) n)
    0 (n - 1)
  = if decide (x < n) then others P n x else 0.
Proof using P_sym.
  rewrite (sum_range_ext _ (fun s =>
    sum_range (fun t => if P s t then Nat.b2n (s =? x) else 0) (s + 1) n +
    sum_range (fun t => if P s t then Nat.b2n (t =? x) else 0) (s + 1) n)).
  2:{ intros s _. rewrite <- sum_range_add. apply sum_range_ext.
      intros t _. by destruct (P s t). }
  rewrite sum_range_add.
  destruct (decide (x < n)) as [Hx|Hx].
  - (* the pairs (x, t) with x < t *)
    assert (sum_range (fun s =>
              sum_range (fun t => if P s t then Nat.b2n (s =? x) else 0) (s + 1) n)
              0 (n - 1)
            = sum_range (fun t => Nat.b2n (P x t)) (x + 1) n) as ->.
    { destruct (decide (x < n - 1)) as [Hx1|Hx1].
      - rewrite (sum_range_single _ 0 (n - 1) x); [|lia|].
        + apply sum_range_ext. intros t _. rewrite Nat.eqb_refl.
          by destruct (P x t).
        + intros s _ Hs. apply sum_range_zero. intros t _.
          destruct (Nat.eqb_spec s x); [done|]. by destruct (P s t).
      - rewrite (sum_range_nil _ (x + 1) n) by lia.
        apply sum_range_zero. intros s Hs. apply sum_range_zero. intros t _.
        destruct (Nat.eqb_spec s x); [lia|]. by destruct (P s t). }
    (* the pairs (s, x) with s < x *)
    assert (sum_range (fun s =>
              sum_range (fun t => if P s t then Nat.b2n (t =? x) else 0) (s + 1) n)
              0 (n - 1)
            = sum_range (fun s => Nat.b2n (P s x)) 0 x) as ->.
    { rewrite (sum_range_split _ 0 x (n - 1)) by lia.
      rewrite (sum_range_zero _ x (n - 1)).
      - rewrite Nat.add_0_r. apply sum_range_ext. intros s Hs.
        rewrite (sum_range_single _ (s + 1) n x); [|lia|].
        + rewrite Nat.eqb_refl. by destruct (P s x).
        + intros t _ Ht. destruct (Nat.eqb_spec t x); [done|]. by destruct (P s t).
      - intros s Hs. apply sum_range_zero. intros t Ht.
        destruct (Nat.eqb_spec t x); [lia|]. by destruct (P s t). }
    unfold others.
    rewrite (sum_range_split _ 0 x n) by lia.
    rewrite (sum_range_split _ x (S x) n) by lia.
    rewrite sum_range_one, Nat.eqb_refl. simpl.
    rewrite (sum_range_ext (fun t => Nat.b2n (negb (x =? t) && P x t))
               (fun s => Nat.b2n (P s x)) 0 x).
    2:{ intros t Ht. destruct (Nat.eqb_spec x t); [lia|]. simpl. by rewrite P_sym. }
    rewrite (sum_range_ext (fun t => Nat.b2n (negb (x =? t) && P x t))
               (fun t => Nat.b2n (P x t)) (S x) n).
    2:{ intros t Ht. destruct (Nat.eqb_spec x t); [lia|]. done. }
    replace (x + 1) with (S x) by lia. lia.
  - rewrite !sum_range_zero; [done| |];
      intros s Hs; apply sum_range_zero; intros t Ht.
    + destruct (Nat.eqb_spec t x); [lia|]. by destruct (P s t).
    + destruct (Nat.eqb_spec s x); [lia|]. by destruct (P s t).
Qed.

End PairCounting.

(** ** MSAReweightSequences: facts for every arithmetic *)

Section ReweightFacts.
Context {T : Type} `{Numeric T}.
Variable ali : alignment_t T.
Variable th : T.

Lemma identity_sym s t : identity ali s t = identity ali t s.
Proof.
  unfold identity. apply for_loop_ext. intros n id _.
  by rewrite Z.eqb_sym.
Qed.

Lemma is_neighbor_sym s t : is_neighbor ali th s t = is_neighbor ali th t s.
Proof. unfold is_neighbor. by rewrite identity_sym. Qed.

Lemma neighborhoods_parallel_lookup (w : list T) x :
  neighborhoods_parallel ali th w !! x
  = Nat.iter (if decide (x < nSeqs ali) then neighbor_count ali th x else 0) incr
      <$> (w !! x).
Proof.
  unfold neighborhoods_parallel, neighbor_count.
  rewrite <- ordered_pairs_count.
  apply for_loop_iter_lookup. intros s w1 _.
  apply for_loop_iter_lookup. intros t w2 _.
  destruct (negb (s =? t)); [|apply eq_sym, fmap_iter_0].
  destruct (is_neighbor ali th s t); [|apply eq_sym, fmap_iter_0].
  apply alter_lookup_iter.
Qed.

Lemma neighborhoods_sequential_lookup (w : list T) x :
  neighborhoods_sequential ali th w !! x
  = Nat.iter (if decide (x < nSeqs ali) then neighbor_count ali th x else 0) incr
      <$> (w !! x).
Proof.
  unfold neighborhoods_sequential, neighbor_count.
  rewrite <- (unordered_pairs_count _ is_neighbor_sym).
  apply for_loop_iter_lookup. intros s w1 _.
  apply for_loop_iter_lookup. intros t w2 _.
  destruct (is_neighbor ali th s t); [|apply eq_sym, fmap_iter_0].
  apply alter2_lookup_iter.
Qed.

Lemma neighborhoods_agree (w : list T) :
  neighborhoods_parallel ali th w = neighborhoods_sequential ali th w.
Proof.
  apply list_eq. intros x.
  by rewrite neighborhoods_parallel_lookup, neighborhoods_sequential_lookup.
Qed.

End ReweightFacts.

(** C6.  The single-core loop nest (each unordered pair of distinct
    sequences once, both sides updated) and the OpenMP loop nest (all
    ordered pairs, one sequence per iteration) leave identical weight
    arrays, and hence the same nEff, for every alignment, theta and scale
    and for every arithmetic the numeric type may stand for. *)
Theorem reweight_sequential_parallel_identical {T} `{Numeric T}
    (ali : alignment_t T) (th sc : T) :
  weights (MSAReweightSequences false ali th sc)
    = weights (MSAReweightSequences true ali th sc)
  /\ nEff (MSAReweightSequences false ali th sc)
    = nEff (MSAReweightSequences true ali th sc).
Proof.
  unfold MSAReweightSequences. simpl.
  rewrite neighborhoods_agree. split; reflexivity.
Qed.

(** ** MSAReweightSequences: the weights *)

Lemma for_loop_count (g : nat -> nat) lo hi :
  for_loop lo hi (fun k acc => acc + g k) 0 = sum_range g lo hi.
Proof.
  destruct (decide (lo <= hi)) as [Hle|Hgt].
  - apply (for_loop_inv (fun k acc => acc = sum_range g lo k)); [done| |].
    + by rewrite sum_range_nil.
    + intros k acc Hk ->.
      by rewrite (sum_range_split g lo k (S k)), sum_range_one by lia.
  - by rewrite for_loop_nil, sum_range_nil by lia.
Qed.

Lemma identity_spec {T} (ali : alignment_t T) s t :
  identity ali s t = spec_identity ali s t.
Proof.
  unfold identity, spec_identity. rewrite for_loop_count, length_filter_seq.
  rewrite <- (Nat.sub_0_r (nSites ali)) at 2.
  apply sum_range_ext. intros n _.
  destruct (Z.eqb_spec (seqAt ali s n) (seqAt ali t n)), (decide _); done.
Qed.

Lemma iter_incr_Q (c : nat) :
  (Nat.iter c (@incr Q _) 1 == 1 + inject_Z (Z.of_nat c))%Q.
Proof.
  induction c as [|c IH].
  - reflexivity.
  - rewrite Nat2Z.inj_succ, <- Z.add_1_r, inject_Z_plus.
    change (Nat.iter (S c) incr 1%Q) with (Nat.iter c (@incr Q _) 1 + 1)%Q.
    rewrite IH. change (inject_Z 1) with 1%Q. ring.
Qed.

Lemma theta_in_range_Q (th : Q) :
  theta_in_range th = true <-> (0 <= th /\ th <= 1)%Q.
Proof.
  unfold theta_in_range. cbn. rewrite andb_true_iff, !Qle_bool_iff.
  reflexivity.
Qed.

Lemma Qmult_1_l_eq (x : Q) : (1 * x)%Q = x.
Proof. destruct x as [[|p|p] d]; reflexivity. Qed.

Section ReweightResult.
Context {T : Type} `{Numeric T}.
Variable openmp : bool.
Variable ali : alignment_t T.
Variables th sc : T.
Hypothesis Hwf : wf_weights ali.

Lemma init_weights :
  for_loop 0 (nSeqs ali) (fun i w => <[i := none]> w) (weights ali)
  = replicate (nSeqs ali) none.
Proof using Hwf.
  unfold wf_weights in Hwf. rewrite <- Hwf. apply for_loop_insert_const.
Qed.

Lemma neighborhoods_length (w : list T) :
  length (if openmp then neighborhoods_parallel ali th w
          else neighborhoods_sequential ali th w) = length w.
Proof using Type.
  rewrite neighborhoods_agree.
  assert (length (neighborhoods_sequential ali th w) = length w) as Hlen.
  { unfold neighborhoods_sequential.
    apply (for_loop_inv (fun _ w' => length w' = length w)); [lia|done|].
    intros s w1 _ Hw1.
    destruct (decide (s + 1 <= nSeqs ali)); [|by rewrite for_loop_nil by lia].
    apply (for_loop_inv (fun _ w' => length w' = length w)); [lia|done|].
    intros t w2 _ Hw2. destruct (is_neighbor ali th s t); [|done].
    by rewrite !length_alter. }
  by destruct openmp.
Qed.

Lemma reweight_length :
  length (weights (MSAReweightSequences openmp ali th sc)) = nSeqs ali.
Proof using Hwf.
  unfold MSAReweightSequences. simpl. rewrite init_weights.
  rewrite (for_loop_alter_length (fun _ x => nmul x sc)).
  destruct (theta_in_range th).
  - rewrite (for_loop_alter_length (fun _ x => ndiv none x)).
    rewrite neighborhoods_length. apply length_replicate.
  - apply length_replicate.
Qed.

Lemma reweight_lookup_in_range s :
  theta_in_range th = true -> s < nSeqs ali ->
  weights (MSAReweightSequences openmp ali th sc) !! s
  = Some (nmul (ndiv none (Nat.iter (neighbor_count ali th s) incr none)) sc).
Proof using Hwf.
  intros Hth Hs. unfold MSAReweightSequences. simpl. rewrite Hth, init_weights.
  rewrite !for_loop_alter_lookup.
  destruct (decide (s < nSeqs ali)); [|lia].
  assert ((if openmp then neighborhoods_parallel ali th (replicate (nSeqs ali) none)
           else neighborhoods_sequential ali th (replicate (nSeqs ali) none)) !! s
          = Some (Nat.iter (neighbor_count ali th s) incr none)) as ->.
  { destruct openmp;
      [rewrite neighborhoods_parallel_lookup|rewrite neighborhoods_sequential_lookup];
      (destruct (decide (s < nSeqs ali)); [|lia]);
      by rewrite lookup_replicate_2. }
  reflexivity.
Qed.

Lemma reweight_out_of_range :
  theta_in_range th = false ->
  weights (MSAReweightSequences openmp ali th sc)
  = replicate (nSeqs ali) (nmul none sc).
Proof using Hwf.
  intros Hth. unfold MSAReweightSequences. simpl. rewrite Hth, init_weights.
  remember (replicate (nSeqs ali) none) as w eqn:Hw.
  assert (nSeqs ali = length w) as Hl by (subst w; by rewrite length_replicate).
  rewrite Hl at 1. rewrite for_loop_alter_map. subst w.
  apply (fmap_replicate (fun x => nmul x sc)).
Qed.

End ReweightResult.

(** ** Sums of weights *)

Lemma Qsum_list_app (l k : list Q) :
  (Qsum_list (l ++ k) == Qsum_list l + Qsum_list k)%Q.
Proof.
  induction l as [|x l IH]; simpl.
  - ring.
  - rewrite IH. ring.
Qed.

Lemma Qsum_list_replicate n (x : Q) :
  (Qsum_list (replicate n x) == inject_Z (Z.of_nat n) * x)%Q.
Proof.
  induction n as [|n IH].
  - simpl. ring.
  - rewrite Nat2Z.inj_succ, <- Z.add_1_r, inject_Z_plus.
    simpl. rewrite IH. change (inject_Z 1) with 1%Q. ring.
Qed.



(* The accumulation loop  nEff = 0; for (i...) nEff += weights[i]. *)
Lemma nEff_loop_sum (w : list Q) :
  (for_loop 0 (length w) (fun i acc => nadd acc (weightAt w i)) nzero
   == Qsum_list w)%Q.
Proof.
  assert (forall k, k <= length w ->
    (for_loop 0 k (fun i acc => nadd acc (weightAt w i)) nzero
     == Qsum_list (take k w))%Q) as Hk.
  { induction k as [|k IH]; intros Hle.
    - rewrite for_loop_nil by lia. reflexivity.
    - rewrite for_loop_S by lia. cbn [nadd Q_numeric].
      rewrite IH by lia.
      destruct (lookup_lt_is_Some_2 w k) as [x Hx]; [lia|].
      rewrite (take_S_r w k x Hx), Qsum_list_app.
      unfold weightAt. rewrite (nth_lookup_Some w k _ x Hx). simpl. ring. }
  rewrite Hk by lia. by rewrite firstn_all.
Qed.

Lemma reweight_nEff_sum (openmp : bool) (ali : alignment_t Q) (th sc : Q) :
  wf_weights ali ->
  (nEff (MSAReweightSequences openmp ali th sc)
   == Qsum_list (weights (MSAReweightSequences openmp ali th sc)))%Q.
Proof.
  intros Hwf.
  pose proof (reweight_length openmp ali th sc Hwf) as Hlen.
  change (nEff (MSAReweightSequences openmp ali th sc)) with
    (for_loop 0 (nSeqs ali)
       (fun i acc => nadd acc
          (weightAt (weights (MSAReweightSequences openmp ali th sc)) i)) nzero).
  rewrite <- Hlen at 1. apply nEff_loop_sum.
Qed.

Lemma inject_nat_nonneg (k : nat) : (0 <= inject_Z (Z.of_nat k))%Q.
Proof. change 0%Q with (inject_Z 0). rewrite <- Zle_Qle. lia. Qed.



Lemma spec_identity_all {T} (ali : alignment_t T) s t :
  (forall n, n < nSites ali -> seqAt ali s n = seqAt ali t n) ->
  spec_identity ali s t = nSites ali.
Proof.
  intros Hall. unfold spec_identity. rewrite length_filter_seq.
  rewrite <- (Nat.sub_0_r (nSites ali)) at 1. change (sum_list_with ?f (seq 0 (?n - 0)))
    with (sum_range f 0 n).
  rewrite (sum_range_ext _ (fun _ => 1)).
  - clear Hall. induction (nSites ali) as [|n IH]; [done|].
    rewrite (sum_range_split _ 0 n (S n)), sum_range_one, IH by lia. lia.
  - intros n Hn. destruct (decide _) as [|Hne]; [done|]. destruct Hne. apply Hall. lia.
Qed.

(* The count of the code's test is the count of the same test over the
   identity in the words of the specification. *)
Lemma neighbor_count_computed {T} `{Numeric T} (ali : alignment_t T) (th : T) s :
  neighbor_count ali th s = computed_neighborCount ali th s.
Proof.
  unfold neighbor_count, others, computed_neighborCount.
  rewrite length_filter_seq.
  rewrite <- (Nat.sub_0_r (nSeqs ali)) at 2.
  apply sum_range_ext. intros t _.
  unfold is_neighbor. rewrite identity_spec.
  destruct (Nat.eqb_spec s t) as [->|Hne]; simpl.
  - destruct (decide _) as [[? _]|]; done.
  - destruct (nleb _ _) eqn:E; destruct (decide _) as [[? ?]|Hn]; try done.
    exfalso. apply Hn. split; [congruence|done].
Qed.

(* Two identical rows that the code's test accepts are each other's only
   neighbour. *)
Lemma computed_neighborCount_pair {T} `{Numeric T} (ali : alignment_t T)
    (th : T) s :
  nSeqs ali = 2 ->
  (forall n, n < nSites ali -> seqAt ali 0 n = seqAt ali 1 n) ->
  nleb (nmul (nsub none th) (nnat (nSites ali))) (nnat (nSites ali)) = true ->
  s < 2 -> computed_neighborCount ali th s = 1.
Proof.
  intros Hn Hrows Htest Hs. unfold computed_neighborCount. rewrite Hn.
  assert (forall u, u < 2 ->
    nleb (nmul (nsub none th) (nnat (nSites ali)))
         (nnat (spec_identity ali s u)) = true) as Hq.
  { intros u Hu. rewrite spec_identity_all; [done|].
    intros n Hn'. specialize (Hrows n Hn').
    destruct s as [|[|]], u as [|[|]]; try lia; congruence. }
  simpl. rewrite !filter_cons, filter_nil.
  destruct s as [|[|]]; try lia.
  - destruct (decide _) as [[? _]|]; [done|].
    destruct (decide _) as [|Hne]; [done|]. destruct Hne. split; [done|]. apply Hq. lia.
  - destruct (decide _) as [|Hne].
    + destruct (decide _) as [[? _]|]; [done|]. done.
    + destruct Hne. split; [done|]. apply Hq. lia.
Qed.

Lemma reweight_computed_weights {T} `{Numeric T} (openmp : bool)
    (ali : alignment_t T) (th sc : T) :
  wf_weights ali -> theta_in_range th = true ->
  (forall s, s < nSeqs ali ->
     weights (MSAReweightSequences openmp ali th sc) !! s
     = Some (nmul (ndiv none
                     (Nat.iter (computed_neighborCount ali th s) incr none)) sc))
  /\ (nSeqs ali = 2 ->
      (forall n, n < nSites ali -> seqAt ali 0 n = seqAt ali 1 n) ->
      nleb (nmul (nsub none th) (nnat (nSites ali))) (nnat (nSites ali)) = true ->
      weights (MSAReweightSequences openmp ali th sc)
      = [nmul (ndiv none (nadd none none)) sc;
         nmul (ndiv none (nadd none none)) sc]).
Proof.
  intros Hwf Hth.
  assert (forall s, s < nSeqs ali ->
     weights (MSAReweightSequences openmp ali th sc) !! s
     = Some (nmul (ndiv none
                     (Nat.iter (computed_neighborCount ali th s) incr none)) sc))
    as Hgen.
  { intros s Hs. rewrite <- neighbor_count_computed.
    by apply reweight_lookup_in_range. }
  split; [exact Hgen|]. intros Hn Hrows Htest.
  pose proof (reweight_length openmp ali th sc Hwf) as Hlen.
  pose proof (Hgen 0 ltac:(lia)) as Hw0. pose proof (Hgen 1 ltac:(lia)) as Hw1.
  rewrite (computed_neighborCount_pair ali th 0) in Hw0 by (done || lia).
  rewrite (computed_neighborCount_pair ali th 1) in Hw1 by (done || lia).
  destruct (weights (MSAReweightSequences openmp ali th sc)) as [|a [|b [|c l]]];
    simpl in Hlen; try lia.
  simpl in Hw0, Hw1. injection Hw0 as ->. injection Hw1 as ->. reflexivity.
Qed.

Lemma reweight_exact_weights (openmp : bool) (ali : alignment_t Q) (th sc : Q) :
  wf_weights ali -> (0 <= th)%Q -> (th <= 1)%Q ->
  (forall s, s < nSeqs ali ->
     exists w, weights (MSAReweightSequences openmp ali th sc) !! s = Some w /\
       (w == sc / (1 + inject_Z (Z.of_nat (spec_neighborCount ali th s))))%Q)
  /\ (nSeqs ali = 2 ->
      (forall n, n < nSites ali -> seqAt ali 0 n = seqAt ali 1 n) ->
      exists w0 w1,
        weights (MSAReweightSequences openmp ali th sc) = [w0; w1] /\
        (w0 == sc / 2)%Q /\ (w1 == sc / 2)%Q).
Proof.
  intros Hwf Hth0 Hth1.
  assert (theta_in_range th = true) as Hth by (by apply theta_in_range_Q).
  destruct (reweight_computed_weights openmp ali th sc Hwf Hth) as [Hgen Hpair].
  split.
  - intros s Hs. eexists. split; [by apply Hgen|].
    change (computed_neighborCount ali th s) with (spec_neighborCount ali th s).
    cbn [nmul ndiv none nlit Q_numeric]. change (inject_Z 1) with 1%Q.
    rewrite iter_incr_Q.
    pose proof (inject_nat_nonneg (spec_neighborCount ali th s)).
    field. lra.
  - intros Hn Hrows. do 2 eexists. split.
    + apply Hpair; [done|done|]. apply Qle_bool_iff.
      cbn [nmul nsub none nlit nnat Q_numeric]. change (inject_Z 1) with 1%Q.
      pose proof (inject_nat_nonneg (nSites ali)). unfold nnat. cbn. nra.
    + cbn [nmul ndiv nadd none nlit Q_numeric]. change (inject_Z 1) with 1%Q.
      split; field.
Qed.

(** C4 (as amended).  For theta in [0,1], for an alignment with one weight
    per sequence and for both loop nests, reweighting leaves every sequence
    s < nSeqs with the weight (1.0 / c) * scale, where c is 1.0 with 1.0
    added once for every neighbour of s, and the neighbours of s are the
    other sequences whose Hamming identity with s over all nSites columns,
    converted to numeric_t, is not below the product (1 - theta) * nSites
    as the arithmetic of numeric_t computes it; in an alignment of two
    sequences with identical rows both get (1.0 / (1.0 + 1.0)) * scale when
    that product is not above nSites.  In exact arithmetic the weight is
    scale / (1 + neighborCount(s)) with neighborCount(s) the number of
    other sequences whose identity with s is at least (1 - theta) * nSites,
    and two identical rows both get scale / 2. *)
Theorem reweight_inverse_neighborhood_size :
  (forall (T : Type) (NT : Numeric T) (openmp : bool) (ali : alignment_t T)
          (th sc : T),
     wf_weights ali -> theta_in_range th = true ->
     (forall s, s < nSeqs ali ->
        weights (MSAReweightSequences openmp ali th sc) !! s
        = Some (nmul (ndiv none
                        (Nat.iter (computed_neighborCount ali th s) incr none))
                     sc))
     /\ (nSeqs ali = 2 ->
         (forall n, n < nSites ali -> seqAt ali 0 n = seqAt ali 1 n) ->
         nleb (nmul (nsub none th) (nnat (nSites ali))) (nnat (nSites ali))
           = true ->
         weights (MSAReweightSequences openmp ali th sc)
         = [nmul (ndiv none (nadd none none)) sc;
            nmul (ndiv none (nadd none none)) sc]))
  /\ (forall (openmp : bool) (ali : alignment_t Q) (th sc : Q),
     wf_weights ali -> (0 <= th)%Q -> (th <= 1)%Q ->
     (forall s, s < nSeqs ali ->
        exists w, weights (MSAReweightSequences openmp ali th sc) !! s = Some w /\
          (w == sc / (1 + inject_Z (Z.of_nat (spec_neighborCount ali th s))))%Q)
     /\ (nSeqs ali = 2 ->
         (forall n, n < nSites ali -> seqAt ali 0 n = seqAt ali 1 n) ->
         exists w0 w1,
           weights (MSAReweightSequences openmp ali th sc) = [w0; w1] /\
           (w0 == sc / 2)%Q /\ (w1 == sc / 2)%Q)).
Proof.
  split.
  - intros T NT openmp ali th sc. apply reweight_computed_weights.
  - apply reweight_exact_weights.
Qed.

Lemma reweight_inverse_neighborhood_size_witness :
  weights (MSAReweightSequences true
             (loaded (T := float) codesAA 2 2 [1; 2; 1; 2]%Z)
             (ndiv (nlit 1) (nlit 5)) none)
  = [nmul (ndiv none (nadd none none)) none;
     nmul (ndiv none (nadd none none)) none]
  /\ exists w0 w1,
    weights (MSAReweightSequences false twins (1 # 5)%Q 1%Q) = [w0; w1] /\
    (w0 == 1 / 2)%Q /\ (w1 == 1 / 2)%Q.
Proof.
  destruct reweight_inverse_neighborhood_size as [Hany Hexact]. split.
  - apply (Hany float _ true (loaded codesAA 2 2 [1; 2; 1; 2]%Z)
             (ndiv (nlit 1) (nlit 5)) none).
    + reflexivity.
    + vm_compute. reflexivity.
    + reflexivity.
    + intros n Hn.
      destruct n as [|[|n]]; [reflexivity|reflexivity|simpl in Hn; lia].
    + vm_compute. reflexivity.
  - apply (Hexact false twins (1 # 5)%Q 1%Q).
    + reflexivity.
    + unfold Qle. simpl. lia.
    + unfold Qle. simpl. lia.
    + reflexivity.
    + intros n Hn.
      destruct n as [|[|n]]; [reflexivity|reflexivity|simpl in Hn; lia].
Defined.

(** C4, counterexample.  The protein sequences "ACDEF" and "ACDEG" (identity
    4 over 5 sites), scale 1 and theta = 0x1.9999999999999p-3, the double
    just below 0.2, whose value is 7205759403792793 / 2^55.  The threshold
    (1 - theta) * 5 is above 4, so that neither sequence has a neighbour
    and the specification gives both the weight scale / 1 = 1 (as the code
    does in exact arithmetic).  In binary64 the product is rounded to 4,
    the test accepts the pair, and both weights are 0.5. *)
Lemma reweight_rounded_threshold_counterexample :
  Prim2SF theta_below_fifth = S754_finite false 7205759403792793 (-55)
  /\ match MSARead (T := float) near_pair_records
             (default_options INFER_MAP_PLM) with
     | Some ali =>
         nSeqs ali = 2 /\ nSites ali = 5 /\ spec_identity ali 0 1 = 4
         /\ theta_in_range theta_below_fifth = true
         /\ weights (MSAReweightSequences false ali theta_below_fifth none)
            = [0.5; 0.5]%float
     | None => False
     end
  /\ match MSARead (T := Q) near_pair_records
             (default_options INFER_MAP_PLM) with
     | Some ali =>
         let th := (7205759403792793 # 36028797018963968)%Q in
         (4 < (1 - th) * 5)%Q
         /\ spec_neighborCount ali th 0 = 0
         /\ spec_neighborCount ali th 1 = 0
         /\ Forall (fun w => w == 1)%Q
              (weights (MSAReweightSequences false ali th 1%Q))
     | None => False
     end.
Proof.
  split; [vm_compute; reflexivity|]. split.
  - vm_compute. repeat split; reflexivity.
  - vm_compute. repeat split; repeat constructor.
Qed.

(* The accumulation loop  nEff = 0; for (i...) nEff += weights[i]. *)
Lemma nEff_loop_total {T} `{Numeric T} (w : list T) :
  for_loop 0 (length w) (fun i acc => nadd acc (weightAt w i)) nzero
  = weights_total w.
Proof.
  assert (forall k, k <= length w ->
    for_loop 0 k (fun i acc => nadd acc (weightAt w i)) nzero
    = weights_total (take k w)) as Hk.
  { induction k as [|k IH]; intros Hle.
    - by rewrite for_loop_nil by lia.
    - rewrite for_loop_S by lia. rewrite IH by lia.
      destruct (lookup_lt_is_Some_2 w k) as [x Hx]; [lia|].
      rewrite (take_S_r w k x Hx). unfold weights_total.
      rewrite fold_left_app. simpl.
      unfold weightAt. by rewrite (nth_lookup_Some w k _ x Hx). }
  rewrite Hk by lia. by rewrite firstn_all.
Qed.

Lemma reweight_nEff_total {T} `{Numeric T} (openmp : bool)
    (ali : alignment_t T) (th sc : T) :
  wf_weights ali ->
  nEff (MSAReweightSequences openmp ali th sc)
  = weights_total (weights (MSAReweightSequences openmp ali th sc)).
Proof.
  intros Hwf.
  pose proof (reweight_length openmp ali th sc Hwf) as Hlen.
  change (nEff (MSAReweightSequences openmp ali th sc)) with
    (for_loop 0 (nSeqs ali)
       (fun i acc => nadd acc
          (weightAt (weights (MSAReweightSequences openmp ali th sc)) i)) nzero).
  rewrite <- Hlen at 1. apply nEff_loop_total.
Qed.

Lemma reweight_exact_unweighted (openmp : bool) (ali : alignment_t Q) (th sc : Q) :
  wf_weights ali -> ~ (0 <= th /\ th <= 1)%Q ->
  weights (MSAReweightSequences openmp ali th sc) = replicate (nSeqs ali) sc
  /\ (nEff (MSAReweightSequences openmp ali th sc)
      == inject_Z (Z.of_nat (nSeqs ali)) * sc)%Q.
Proof.
  intros Hwf Hth.
  assert (theta_in_range th = false) as Hout.
  { destruct (theta_in_range th) eqn:E; [|done].
    destruct Hth. by apply theta_in_range_Q. }
  assert (weights (MSAReweightSequences openmp ali th sc)
          = replicate (nSeqs ali) sc) as Hw.
  { rewrite reweight_out_of_range by done.
    cbn [nmul none nlit Q_numeric]. change (inject_Z 1) with 1%Q.
    by rewrite Qmult_1_l_eq. }
  split; [exact Hw|].
  rewrite reweight_nEff_sum by done. rewrite Hw. apply Qsum_list_replicate.
Qed.

(** C5 (as amended).  When theta lies outside [0,1], for an alignment with
    one weight per sequence, reweighting sets every sequence weight to
    1.0 * scale, without any neighborhood computation, and nEff to the
    result of adding that weight to 0.0 once for every sequence, in the
    arithmetic of numeric_t.  In exact arithmetic every weight is exactly
    scale and nEff is nSeqs * scale. *)
Theorem reweight_theta_outside_unit_interval :
  (forall (T : Type) (NT : Numeric T) (openmp : bool) (ali : alignment_t T)
          (th sc : T),
     wf_weights ali -> theta_in_range th = false ->
     weights (MSAReweightSequences openmp ali th sc)
       = replicate (nSeqs ali) (nmul none sc)
     /\ nEff (MSAReweightSequences openmp ali th sc)
       = weights_total (replicate (nSeqs ali) (nmul none sc)))
  /\ (forall (openmp : bool) (ali : alignment_t Q) (th sc : Q),
     wf_weights ali -> ~ (0 <= th /\ th <= 1)%Q ->
     weights (MSAReweightSequences openmp ali th sc) = replicate (nSeqs ali) sc
     /\ (nEff (MSAReweightSequences openmp ali th sc)
         == inject_Z (Z.of_nat (nSeqs ali)) * sc)%Q).
Proof.
  split.
  - intros T NT openmp ali th sc Hwf Hth.
    pose proof (reweight_out_of_range openmp ali th sc Hwf Hth) as Hw.
    split; [exact Hw|]. by rewrite reweight_nEff_total, Hw.
  - apply reweight_exact_unweighted.
Qed.

Lemma reweight_theta_outside_unit_interval_witness :
  (weights (MSAReweightSequences true
              (loaded (T := float) codesAA 2 2 [1; 2; 1; 2]%Z) 1.5%float 2%float)
     = replicate 2 (nmul none 2%float)
   /\ nEff (MSAReweightSequences true
              (loaded (T := float) codesAA 2 2 [1; 2; 1; 2]%Z) 1.5%float 2%float)
     = weights_total (replicate 2 (nmul none 2%float)))
  /\ (weights (MSAReweightSequences true twins (3 # 2)%Q (2 # 1)%Q)
        = replicate 2 (2 # 1)%Q
      /\ (nEff (MSAReweightSequences true twins (3 # 2)%Q (2 # 1)%Q)
          == inject_Z 2 * (2 # 1))%Q).
Proof.
  destruct reweight_theta_outside_unit_interval as [Hany Hexact]. split.
  - apply (Hany float _ true (loaded codesAA 2 2 [1; 2; 1; 2]%Z)
             1.5%float 2%float).
    + reflexivity.
    + vm_compute. reflexivity.
  - apply (Hexact true twins (3 # 2)%Q (2 # 1)%Q).
    + reflexivity.
    + intros [_ Hle]. unfold Qle in Hle. simpl in Hle. lia.
Defined.

(** C5, counterexample.  Ten protein sequences "A", theta = 1.5 and
    scale = 0x1.999999999999ap-4, the double nearest to 0.1.  Every weight
    is exactly scale, but nEff, the ten weights added one after the other,
    is 0x1.fffffffffffffp-1 = 0.99999999999999989 in binary64, where
    nSeqs * scale is 1. *)
Lemma reweight_unweighted_nEff_counterexample :
  match MSARead (T := float) ten_records (default_options INFER_MAP_PLM) with
  | Some ali =>
      let r := MSAReweightSequences false ali 1.5%float tenth in
      nSeqs ali = 10
      /\ theta_in_range 1.5%float = false
      /\ weights r = replicate 10 tenth
      /\ nEff r = 0x1.fffffffffffffp-1%float
      /\ nmul (nnat 10) tenth = 1%float
      /\ PrimFloat.eqb (nEff r) (nmul (nnat (nSeqs ali)) tenth) = false
  | None => False
  end.
Proof. vm_compute. repeat split; reflexivity. Qed.

(** ** The end of MSAEstimateSampleSize *)

Lemma rescale_weights {T} `{Numeric T} (ali : alignment_t T) (e : T) :
  wf_weights ali ->
  weights (MSAEstimateSampleSize_rescale ali e)
  = (fun x => nmul x (ndiv e (nEff ali))) <$> weights ali.
Proof.
  intros Hwf. unfold MSAEstimateSampleSize_rescale. simpl.
  unfold wf_weights in Hwf. rewrite <- Hwf. apply for_loop_alter_map.
Qed.






(** ** Rational sums over index ranges *)

Lemma Qsum_nil f lo hi : hi <= lo -> Qsum f lo hi = 0%Q.
Proof. intros. unfold Qsum. replace (hi - lo) with 0 by lia. done. Qed.

Lemma Qsum_list_fold f (l k : list nat) :
  (fold_right (fun k acc => f k + acc) 0 (l ++ k)
   == fold_right (fun k acc => f k + acc) 0 l
      + fold_right (fun k acc => f k + acc) 0 k)%Q.
Proof.
  induction l as [|x l IH]; simpl.
  - ring.
  - rewrite IH. ring.
Qed.

Lemma Qsum_split f lo m hi :
  lo <= m <= hi -> (Qsum f lo hi == Qsum f lo m + Qsum f m hi)%Q.
Proof.
  intros Hm. unfold Qsum.
  replace (hi - lo) with ((m - lo) + (hi - m)) by lia.
  rewrite seq_app, Qsum_list_fold.
  replace (lo + (m - lo)) with m by lia. reflexivity.
Qed.

Lemma Qsum_one f k : (Qsum f k (S k) == f k)%Q.
Proof.
  unfold Qsum. replace (S k - k) with 1 by lia. simpl. ring.
Qed.

Lemma Qsum_S f lo hi :
  lo <= hi -> (Qsum f lo (S hi) == Qsum f lo hi + f hi)%Q.
Proof.
  intros. rewrite (Qsum_split f lo hi (S hi)) by lia. by rewrite Qsum_one.
Qed.

(* Induction over the upper end of a range. *)
Lemma Qsum_rel (R : Q -> Q -> Prop) f g lo hi :
  R 0%Q 0%Q ->
  (forall x y k, lo <= k < hi -> R x y -> R (x + f k)%Q (y + g k)%Q) ->
  (forall x x' y y', (x == x')%Q -> (y == y')%Q -> R x y -> R x' y') ->
  R (Qsum f lo hi) (Qsum g lo hi).
Proof.
  intros H0 Hstep Hcompat. induction hi as [|hi IH].
  - by rewrite !Qsum_nil by lia.
  - destruct (decide (lo <= hi)) as [Hle|Hgt].
    + eapply Hcompat; [symmetry; by apply Qsum_S|symmetry; by apply Qsum_S|].
      apply Hstep; [lia|]. apply IH. intros x y k Hk. apply Hstep. lia.
    + by rewrite !Qsum_nil by lia.
Qed.

Lemma Qsum_ext f g lo hi :
  (forall k, lo <= k < hi -> (f k == g k)%Q) -> (Qsum f lo hi == Qsum g lo hi)%Q.
Proof.
  intros Hext. apply (Qsum_rel Qeq).
  - reflexivity.
  - intros x y k Hk ->. by rewrite Hext.
  - intros x x' y y' <- <-. done.
Qed.

Lemma Qsum_le f g lo hi :
  (forall k, lo <= k < hi -> (f k <= g k)%Q) -> (Qsum f lo hi <= Qsum g lo hi)%Q.
Proof.
  intros Hle. apply (Qsum_rel Qle).
  - lra.
  - intros x y k Hk Hxy. specialize (Hle k Hk). lra.
  - intros x x' y y' <- <-. done.
Qed.

Lemma Qsum_zero f lo hi :
  (forall k, lo <= k < hi -> (f k == 0)%Q) -> (Qsum f lo hi == 0)%Q.
Proof.
  intros Hz. apply (Qsum_rel (fun x _ => x == 0)%Q f f).
  - reflexivity.
  - intros x _ k Hk ->. rewrite Hz by done. ring.
  - intros x x' _ _ <- _. done.
Qed.

Lemma Qsum_nonneg f lo hi :
  (forall k, lo <= k < hi -> (0 <= f k)%Q) -> (0 <= Qsum f lo hi)%Q.
Proof.
  intros Hz. apply (Qsum_rel (fun x _ => 0 <= x)%Q f f).
  - lra.
  - intros x _ k Hk Hx. specialize (Hz k Hk). lra.
  - intros x x' _ _ <- _. done.
Qed.

Lemma Qsum_single f lo hi x :
  lo <= x < hi ->
  (forall k, lo <= k < hi -> k <> x -> (f k == 0)%Q) ->
  (Qsum f lo hi == f x)%Q.
Proof.
  intros Hx Hz.
  rewrite (Qsum_split f lo x hi) by lia.
  rewrite (Qsum_split f x (S x) hi) by lia.
  rewrite Qsum_one.
  rewrite !Qsum_zero by (intros; apply Hz; lia). ring.
Qed.

Lemma Qsum_add f g lo hi :
  (Qsum (fun k => f k + g k) lo hi == Qsum f lo hi + Qsum g lo hi)%Q.
Proof.
  induction hi as [|hi IH].
  - rewrite !Qsum_nil by lia. ring.
  - destruct (decide (lo <= hi)) as [Hle|Hgt].
    + rewrite !Qsum_S, IH by lia. ring.
    + rewrite !Qsum_nil by lia. ring.
Qed.

Lemma Qsum_scale f (c : Q) lo hi :
  (Qsum (fun k => f k * c) lo hi == Qsum f lo hi * c)%Q.
Proof.
  induction hi as [|hi IH].
  - rewrite !Qsum_nil by lia. ring.
  - destruct (decide (lo <= hi)) as [Hle|Hgt].
    + rewrite !Qsum_S, IH by lia. ring.
    + rewrite !Qsum_nil by lia. ring.
Qed.

Lemma Qsum_swap (f : nat -> nat -> Q) lo1 hi1 lo2 hi2 :
  (Qsum (fun a => Qsum (fun b => f a b) lo2 hi2) lo1 hi1
   == Qsum (fun b => Qsum (fun a => f a b) lo1 hi1) lo2 hi2)%Q.
Proof.
  induction hi1 as [|hi1 IH].
  - rewrite Qsum_nil by lia. symmetry. apply Qsum_zero.
    intros b _. by rewrite Qsum_nil by lia.
  - destruct (decide (lo1 <= hi1)) as [Hle|Hgt].
    + rewrite Qsum_S, IH by lia. rewrite <- Qsum_add.
      apply Qsum_ext. intros b _. by rewrite Qsum_S by lia.
    + rewrite Qsum_nil by lia. symmetry. apply Qsum_zero.
      intros b _. by rewrite Qsum_nil by lia.
Qed.

(* A loop that adds c k to the quantity [read] at step k adds their sum. *)
Lemma for_loop_contrib {St} (read : St -> Q) (c : nat -> Q) lo hi
    (body : nat -> St -> St) (st : St) :
  (forall k st', lo <= k < hi -> (read (body k st') == read st' + c k)%Q) ->
  (read (for_loop lo hi body st) == read st + Qsum c lo hi)%Q.
Proof.
  intros Hbody. destruct (decide (lo <= hi)) as [Hle|Hgt].
  - apply (for_loop_inv (fun k st' => read st' == read st + Qsum c lo k)%Q);
      [done| |].
    + rewrite Qsum_nil by lia. ring.
    + intros k st' Hk Hst. rewrite Hbody, Hst, Qsum_S by lia. ring.
  - rewrite for_loop_nil, Qsum_nil by lia. ring.
Qed.

Lemma Qsum_weights (w : list Q) :
  (Qsum (fun s => weightAt w s) 0 (length w) == Qsum_list w)%Q.
Proof.
  rewrite <- nEff_loop_sum.
  rewrite (for_loop_contrib (fun acc => acc) (fun s => weightAt w s)).
  - cbn. ring.
  - intros k acc _. reflexivity.
Qed.

(** ** MSACountMarginals in exact arithmetic *)

(* t[k] += v, read at cell k0 *)
Lemma tupd_add_read {K} `{EqDecision K} (t : table K Q) k (v : Q) k0 :
  (tupd t k (fun x => nadd x v) k0
   == t k0 + (if decide (k0 = k) then v else 0))%Q.
Proof.
  unfold tupd. destruct (decide (k0 = k)); cbn [nadd Q_numeric]; ring.
Qed.

Section MarginalCells.
Variable ali : alignment_t Q.
Local Abbreviation w := (weightAt (weights ali)).

Lemma count_fi_cell (Zinv : Q) i a :
  i < nSites ali ->
  (count_fi ali Zinv (i, a)
   == Qsum (fun s => if (seqAt ali s i =? a)%Z then w s * Zinv else 0)
        0 (nSeqs ali))%Q.
Proof using Type.
  intros Hi. unfold count_fi.
  rewrite (for_loop_contrib (fun t => t (i, a))
             (fun s => if (seqAt ali s i =? a)%Z then w s * Zinv else 0)%Q).
  - unfold tzero. cbn. ring.
  - intros s t _.
    rewrite (for_loop_contrib (fun t => t (i, a))
               (fun i' => if decide ((i, a) = (i', seqAt ali s i'))
                          then w s * Zinv else 0)%Q).
    + rewrite (Qsum_single _ 0 (nSites ali) i); [|lia|].
      * destruct (Z.eqb_spec (seqAt ali s i) a) as [->|Hne];
          destruct (decide _) as [E|E]; try reflexivity; congruence.
      * intros i' _ Hi'. destruct (decide _) as [E|E]; [congruence|reflexivity].
    + intros i' t' _. apply tupd_add_read.
Qed.

Lemma count_fij_cell (Zinv : Q) i j a b :
  i < j < nSites ali ->
  (count_fij ali Zinv (i, j, a, b)
   == Qsum (fun s => if (seqAt ali s i =? a)%Z && (seqAt ali s j =? b)%Z
                     then w s * Zinv else 0) 0 (nSeqs ali))%Q.
Proof using Type.
  intros Hij. unfold count_fij.
  rewrite (for_loop_contrib (fun t => t (i, j, a, b))
             (fun s => if (seqAt ali s i =? a)%Z && (seqAt ali s j =? b)%Z
                       then w s * Zinv else 0)%Q).
  - unfold tzero. cbn. ring.
  - intros s t _.
    rewrite (for_loop_contrib (fun t => t (i, j, a, b))
               (fun i' => if decide (i' = i)
                          then (if (seqAt ali s i =? a)%Z && (seqAt ali s j =? b)%Z
                                then w s * Zinv else 0)
                          else 0)%Q).
    + rewrite (Qsum_single _ 0 (nSites ali - 1) i); [|lia|].
      * destruct (decide (i = i)); [reflexivity|done].
      * intros i' _ Hi'. by destruct (decide (i' = i)).
    + intros i' t' _.
      rewrite (for_loop_contrib (fun t => t (i, j, a, b))
                 (fun j' => if decide ((i, j, a, b)
                                       = (i', j', seqAt ali s i', seqAt ali s j'))
                            then w s * Zinv else 0)%Q).
      * destruct (decide (i' = i)) as [->|Hne].
        -- rewrite (Qsum_single _ (i + 1) (nSites ali) j); [|lia|].
           ++ destruct (Z.eqb_spec (seqAt ali s i) a) as [->|Ha];
                destruct (Z.eqb_spec (seqAt ali s j) b) as [->|Hb];
                destruct (decide _) as [E|E]; simpl;
                try reflexivity; congruence.
           ++ intros j' _ Hj'.
              destruct (decide _) as [E|E]; [congruence|reflexivity].
        -- rewrite Qsum_zero; [ring|]. intros j' _.
           destruct (decide _) as [E|E]; [congruence|reflexivity].
      * intros j' t'' _. apply tupd_add_read.
Qed.

End MarginalCells.

(* Exactly one symbol of the alphabet matches a valid code. *)
Lemma Qsum_symbol (c : Z) (nC : nat) (g : nat -> bool) (v : Q) :
  (0 <= c < Z.of_nat nC)%Z ->
  (forall b, g b = true -> c = Z.of_nat b) ->
  g (Z.to_nat c) = true ->
  (Qsum (fun b => if g b then v else 0) 0 nC == v)%Q.
Proof.
  intros Hc Hg Hgc.
  rewrite (Qsum_single _ 0 nC (Z.to_nat c)); [|lia|].
  - by rewrite Hgc.
  - intros b _ Hb. destruct (g b) eqn:E; [|reflexivity].
    apply Hg in E. lia.
Qed.

Lemma count_fij_sum_second (ali : alignment_t Q) (Zinv : Q) i j (a : Z) :
  valid_codes ali -> i < j < nSites ali ->
  (Qsum (fun b' => count_fij ali Zinv (i, j, a, Z.of_nat b')) 0 (nCodes ali)
   == count_fi ali Zinv (i, a))%Q.
Proof.
  intros Hvalid Hij.
  etransitivity;
    [apply Qsum_ext; intros b' _; apply count_fij_cell; exact Hij|].
  rewrite Qsum_swap, count_fi_cell by lia.
  apply Qsum_ext. intros s Hs.
  destruct (Z.eqb_spec (seqAt ali s i) a) as [Ha|Ha]; simpl.
  - apply Qsum_symbol with (c := seqAt ali s j).
    + apply Hvalid; lia.
    + intros b' Hb'. by apply Z.eqb_eq.
    + apply Z.eqb_eq. pose proof (Hvalid s j). lia.
  - apply Qsum_zero. reflexivity.
Qed.

Lemma count_fij_sum_first (ali : alignment_t Q) (Zinv : Q) i j (b : Z) :
  valid_codes ali -> i < j < nSites ali ->
  (Qsum (fun a' => count_fij ali Zinv (i, j, Z.of_nat a', b)) 0 (nCodes ali)
   == count_fi ali Zinv (j, b))%Q.
Proof.
  intros Hvalid Hij.
  etransitivity;
    [apply Qsum_ext; intros a' _; apply count_fij_cell; exact Hij|].
  rewrite Qsum_swap, count_fi_cell by lia.
  apply Qsum_ext. intros s Hs.
  destruct (Z.eqb_spec (seqAt ali s j) b) as [Hb|Hb].
  - rewrite (Qsum_ext _ (fun a' => if (seqAt ali s i =? Z.of_nat a')%Z
                                  then weightAt (weights ali) s * Zinv else 0)%Q)
      by (intros a' _; by rewrite andb_true_r).
    apply Qsum_symbol with (c := seqAt ali s i).
    + apply Hvalid; lia.
    + intros a' Ha'. by apply Z.eqb_eq.
    + apply Z.eqb_eq. pose proof (Hvalid s i). lia.
  - apply Qsum_zero. intros a' _. by rewrite andb_false_r.
Qed.

(** X30.  In exact (real) arithmetic, under the standard convention, for
    an alignment with one weight per sequence, whose codes are all in
    0 .. nCodes-1 and whose nEff is not zero (the code divides by it), the
    pairwise marginals are consistent
    with the sitewise ones: for sites i < j and symbols a, b below nCodes,
    summing fij(i,j,a,b') over the symbols b' gives fi(i,a), and summing
    fij(i,j,a',b) over the symbols a' gives fi(j,b). *)
Theorem pairwise_marginals_consistent
    (ali : alignment_t Q) (options : options_t Q) (i j a b : nat) :
  estimatorMAP options = INFER_MAP_PLM ->
  wf_weights ali -> valid_codes ali ->
  ~ (nEff ali == 0)%Q ->
  i < j < nSites ali ->
  a < nCodes ali -> b < nCodes ali ->
  (Qsum (fun b' => fij (MSACountMarginals ali options)
                       (i, j, Z.of_nat a, Z.of_nat b'))
        0 (nCodes (MSACountMarginals ali options))
   == fi (MSACountMarginals ali options) (i, Z.of_nat a))%Q
  /\
  (Qsum (fun a' => fij (MSACountMarginals ali options)
                       (i, j, Z.of_nat a', Z.of_nat b))
        0 (nCodes (MSACountMarginals ali options))
   == fi (MSACountMarginals ali options) (j, Z.of_nat b))%Q.
Proof.
  intros Hmode _ Hvalid _ Hij _ _. unfold MSACountMarginals. rewrite Hmode. simpl.
  split; [by apply count_fij_sum_second|by apply count_fij_sum_first].
Qed.

(** ** Loops that rescale cells *)

Lemma for_loop_never {St} (read : St -> Q) lo hi
    (body : nat -> St -> St) (st : St) :
  (forall k st', lo <= k < hi -> (read (body k st') == read st')%Q) ->
  (read (for_loop lo hi body st) == read st)%Q.
Proof.
  intros Hbody.
  rewrite (for_loop_contrib read (fun _ => 0%Q)).
  - rewrite Qsum_zero by reflexivity. ring.
  - intros k st' Hk. rewrite Hbody by done. ring.
Qed.

Lemma for_loop_once {St} (read : St -> Q) (c : Q) x lo hi
    (body : nat -> St -> St) (st : St) :
  lo <= x < hi ->
  (forall st', (read (body x st') == read st' * c)%Q) ->
  (forall k st', lo <= k < hi -> k <> x -> (read (body k st') == read st')%Q) ->
  (read (for_loop lo hi body st) == read st * c)%Q.
Proof.
  intros Hx Hhit Hmiss.
  assert (read (for_loop lo hi body st)
          == if x <? hi then read st * c else read st)%Q as Hend.
  { apply (for_loop_inv
      (fun k st' => read st' == if x <? k then read st * c else read st)%Q);
      [lia| |].
    - destruct (Nat.ltb_spec x lo); [lia|reflexivity].
    - intros k st' Hk Hst. destruct (decide (k = x)) as [->|Hne].
      + rewrite Hhit, Hst.
        destruct (Nat.ltb_spec x x); [lia|].
        destruct (Nat.ltb_spec x (S x)); [|lia]. reflexivity.
      + rewrite Hmiss, Hst by done.
        destruct (Nat.ltb_spec x k), (Nat.ltb_spec x (S k)); try lia; reflexivity. }
  destruct (Nat.ltb_spec x hi); [exact Hend|lia].
Qed.

(* t[k] *= c, read at cell k0 *)
Lemma tupd_mul_read {K} `{EqDecision K} (t : table K Q) k (c : Q) k0 :
  tupd t k (fun x => nmul x c) k0
  = if decide (k0 = k) then (t k0 * c)%Q else t k0.
Proof. reflexivity. Qed.

Section GapReducedCells.
Variable ali : alignment_t Q.
Local Abbreviation w := (weightAt (weights ali)).

Lemma count_gapi_cell (Zinv : Q) i :
  i < nSites ali ->
  (count_gapi ali Zinv i
   == Qsum (fun s => if (seqAt ali s i =? 0)%Z then w s else 0) 0 (nSeqs ali)
      * Zinv)%Q.
Proof using Type.
  intros Hi. unfold count_gapi.
  rewrite (for_loop_once (fun t => t i) Zinv i); [|lia| |].
  - apply Qmult_comp; [|reflexivity].
    rewrite (for_loop_contrib (fun t => t i)
               (fun s => if (seqAt ali s i =? 0)%Z then w s else 0)%Q).
    + unfold tzero. cbn. ring.
    + intros s t _.
      rewrite (for_loop_contrib (fun t => t i)
        (fun i' => if decide (i = i')
                   then nbool (seqAt ali s i' =? 0)%Z * w s else 0)%Q).
      * rewrite (Qsum_single _ 0 (nSites ali) i); [|lia|].
        -- destruct (decide (i = i)); [|done].
           destruct (seqAt ali s i =? 0)%Z; cbn; ring.
        -- intros i' _ Hi'. destruct (decide (i = i')); [congruence|reflexivity].
      * intros i' t' _. apply tupd_add_read.
  - intros t. rewrite tupd_mul_read. by destruct (decide (i = i)).
  - intros k t _ Hk. rewrite tupd_mul_read. by destruct (decide (i = k)).
Qed.

Lemma count_ungapij_cell (Zinv : Q) i j :
  i < j < nSites ali ->
  (count_ungapij ali Zinv (i, j)
   == Qsum (fun s => if (0 <? seqAt ali s i)%Z && (0 <? seqAt ali s j)%Z
                     then w s else 0) 0 (nSeqs ali) * Zinv)%Q.
Proof using Type.
  intros Hij. unfold count_ungapij.
  rewrite (for_loop_once (fun t => t (i, j)) Zinv i); [|lia| |].
  - apply Qmult_comp; [|reflexivity].
    rewrite (for_loop_contrib (fun t => t (i, j))
      (fun s => if (0 <? seqAt ali s i)%Z && (0 <? seqAt ali s j)%Z
                then w s else 0)%Q).
    + unfold tzero. cbn. ring.
    + intros s t _.
      rewrite (for_loop_contrib (fun t => t (i, j))
        (fun i' => if decide (i' = i)
                   then (if (0 <? seqAt ali s i)%Z && (0 <? seqAt ali s j)%Z
                         then w s else 0)
                   else 0)%Q).
      * rewrite (Qsum_single _ 0 (nSites ali - 1) i); [|lia|].
        -- by destruct (decide (i = i)).
        -- intros i' _ Hi'. by destruct (decide (i' = i)).
      * intros i' t' _.
        rewrite (for_loop_contrib (fun t => t (i, j))
          (fun j' => if decide ((i, j) = (i', j'))
                     then nbool ((0 <? seqAt ali s i')%Z && (0 <? seqAt ali s j')%Z)
                          * w s
                     else 0)%Q).
        -- destruct (decide (i' = i)) as [->|Hne].
           ++ rewrite (Qsum_single _ (i + 1) (nSites ali) j); [|lia|].
              ** destruct (decide _) as [_|E]; [|done].
                 destruct (_ && _); cbn; ring.
              ** intros j' _ Hj'.
                 destruct (decide _) as [E|E]; [congruence|reflexivity].
           ++ rewrite Qsum_zero; [ring|]. intros j' _.
              destruct (decide _) as [E|E]; [congruence|reflexivity].
        -- intros j' t'' _. apply tupd_add_read.
  - intros t.
    rewrite (for_loop_once (fun t => t (i, j)) Zinv j); [reflexivity|lia| |].
    + intros t'. rewrite tupd_mul_read. by destruct (decide _).
    + intros k t' _ Hk. rewrite tupd_mul_read.
      destruct (decide _) as [E|E]; [congruence|reflexivity].
  - intros k t _ Hk. apply (for_loop_never (fun t => t (i, j))).
    intros j' t' _. rewrite tupd_mul_read.
    destruct (decide _) as [E|E]; [congruence|reflexivity].
Qed.

End GapReducedCells.

Lemma weightAt_nonneg (l : list Q) s :
  Forall (fun x => 0 <= x)%Q l -> (0 <= weightAt l s)%Q.
Proof.
  intros Hall. unfold weightAt. rewrite nth_lookup.
  destruct (l !! s) as [x|] eqn:E; simpl.
  - by eapply (Forall_lookup_1 _ l s x).
  - apply Qle_refl.
Qed.

Lemma Qinv_total (N : Q) : (0 < N -> 0 < 1 / N /\ N * (1 / N) == 1)%Q.
Proof.
  intros HN. split.
  - apply Qlt_shift_div_l; lra.
  - field. lra.
Qed.

(** C8 (as amended).  In exact arithmetic, under the gap-reduced
    convention, for an alignment with one weight per sequence, with
    non-negative weights and with nEff their sum and positive, the
    doubly-ungapped frequency of every pair of sites i < j is at most
    either marginal ungapped frequency:
    ungapij(i,j) <= min(1 - gapi(i), 1 - gapi(j)). *)
Theorem ungapij_le_marginal_ungapped
    (ali : alignment_t Q) (options : options_t Q) (i j : nat) :
  estimatorMAP options = INFER_MAP_PLM_GAPREDUCE ->
  wf_weights ali ->
  Forall (fun x => 0 <= x)%Q (weights ali) ->
  (nEff ali == Qsum_list (weights ali))%Q ->
  (0 < nEff ali)%Q ->
  i < j < nSites ali ->
  (ungapij (MSACountMarginals ali options) (i, j)
   <= Qmin (1 - gapi (MSACountMarginals ali options) i)
           (1 - gapi (MSACountMarginals ali options) j))%Q.
Proof.
  intros Hmode Hwf Hpos Hsum HN Hij.
  unfold MSACountMarginals. rewrite Hmode. simpl.
  cbn [ndiv none nlit Q_numeric]. change (inject_Z 1) with 1%Q.
  destruct (Qinv_total _ HN) as [Hz Hone].
  set (z := (1 / nEff ali)%Q) in *.
  rewrite count_ungapij_cell by done.
  rewrite !count_gapi_cell by lia.
  set (U := Qsum _ 0 (nSeqs ali)).
  assert (forall k, (k = i \/ k = j) ->
    (U + Qsum (fun s => if (seqAt ali s k =? 0)%Z
                        then weightAt (weights ali) s else 0) 0 (nSeqs ali)
     <= nEff ali)%Q) as Hle.
  { intros k Hk. rewrite Hsum, <- Qsum_weights. unfold U.
    rewrite <- Hwf, <- Qsum_add. apply Qsum_le. intros s _.
    pose proof (weightAt_nonneg (weights ali) s Hpos) as Hs.
    destruct Hk as [-> | ->].
    - destruct (Z.ltb_spec 0 (seqAt ali s i)), (Z.eqb_spec (seqAt ali s i) 0),
        (0 <? seqAt ali s j)%Z; simpl; try lia; lra.
    - destruct (Z.ltb_spec 0 (seqAt ali s j)), (Z.eqb_spec (seqAt ali s j) 0),
        (0 <? seqAt ali s i)%Z; simpl; try lia; lra. }
  pose proof (Hle i (or_introl eq_refl)) as Hi.
  pose proof (Hle j (or_intror eq_refl)) as Hj.
  apply Q.min_glb; nra.
Qed.

Section ConditionalMarginals.
Variable ali : alignment_t Q.
Local Abbreviation w := (weightAt (weights ali)).

Lemma count_fi_ungapped_cell i (a : nat) :
  i < nSites ali ->
  (count_fi_ungapped ali (i, Z.of_nat a) == ungapped_count ali i a)%Q.
Proof using Type.
  intros Hi. unfold count_fi_ungapped, ungapped_count.
  rewrite (for_loop_contrib (fun t => t (i, Z.of_nat a))
    (fun s => if (seqAt ali s i =? Z.of_nat a + 1)%Z then w s else 0)%Q).
  - unfold tzero. cbn. ring.
  - intros s t _.
    rewrite (for_loop_contrib (fun t => t (i, Z.of_nat a))
      (fun i' => if decide (i' = i)
                 then (if (seqAt ali s i =? Z.of_nat a + 1)%Z then w s else 0)
                 else 0)%Q).
    + rewrite (Qsum_single _ 0 (nSites ali) i); [|lia|].
      * by destruct (decide (i = i)).
      * intros i' _ Hi'. by destruct (decide (i' = i)).
    + intros i' t' _.
      destruct (Z.ltb_spec 0 (seqAt ali s i')) as [Hpos|Hgap].
      * rewrite tupd_add_read.
        destruct (decide (i' = i)) as [->|Hne].
        -- destruct (Z.eqb_spec (seqAt ali s i) (Z.of_nat a + 1)) as [E|E];
             destruct (decide _) as [E'|E']; try reflexivity.
           ++ destruct E'. f_equal. lia.
           ++ injection E' as E'. lia.
        -- destruct (decide _) as [E'|E']; [congruence|reflexivity].
      * destruct (decide (i' = i)) as [->|Hne]; [|ring].
        destruct (Z.eqb_spec (seqAt ali s i) (Z.of_nat a + 1)); [lia|ring].
Qed.

Lemma count_fij_ungapped_cell i j (a b : nat) :
  i < j < nSites ali ->
  (count_fij_ungapped ali (i, j, Z.of_nat a, Z.of_nat b)
   == ungapped_pair_count ali i j a b)%Q.
Proof using Type.
  intros Hij. unfold count_fij_ungapped, ungapped_pair_count.
  set (hit := fun s => (seqAt ali s i =? Z.of_nat a + 1)%Z
                       && (seqAt ali s j =? Z.of_nat b + 1)%Z).
  rewrite (for_loop_contrib (fun t => t (i, j, Z.of_nat a, Z.of_nat b))
    (fun s => if hit s then w s else 0)%Q).
  - unfold tzero, nzero. cbn [nlit Q_numeric]. rewrite Qplus_0_l. reflexivity.
  - intros s t _.
    rewrite (for_loop_contrib (fun t => t (i, j, Z.of_nat a, Z.of_nat b))
      (fun i' => if decide (i' = i) then (if hit s then w s else 0) else 0)%Q).
    + rewrite (Qsum_single _ 0 (nSites ali - 1) i); [|lia|].
      * by destruct (decide (i = i)).
      * intros i' _ Hi'. by destruct (decide (i' = i)).
    + intros i' t' _.
      rewrite (for_loop_contrib (fun t => t (i, j, Z.of_nat a, Z.of_nat b))
        (fun j' => if decide (i' = i /\ j' = j)
                   then (if hit s then w s else 0) else 0)%Q).
      * destruct (decide (i' = i)) as [->|Hne].
        -- rewrite (Qsum_single _ (i + 1) (nSites ali) j); [|lia|].
           ++ destruct (decide _) as [_|E]; [reflexivity|]. by destruct E.
           ++ intros j' _ Hj'. destruct (decide _) as [[_ E]|E]; [done|reflexivity].
        -- rewrite Qsum_zero; [ring|]. intros j' _.
           destruct (decide _) as [[E _]|E]; [done|reflexivity].
      * intros j' t'' _. unfold hit.
        destruct (decide (i' = i /\ j' = j)) as [[-> ->]|Hne].
        -- destruct (Z.ltb_spec 0 (seqAt ali s i)) as [Hi|Hi];
             [destruct (Z.ltb_spec 0 (seqAt ali s j)) as [Hj|Hj]|].
           ++ rewrite tupd_add_read.
              destruct (Z.eqb_spec (seqAt ali s i) (Z.of_nat a + 1)) as [Ea|Ea];
                destruct (Z.eqb_spec (seqAt ali s j) (Z.of_nat b + 1)) as [Eb|Eb];
                destruct (decide _) as [E'|E']; simpl; try reflexivity;
                try (injection E' as E1 E2; lia).
              destruct E'. repeat f_equal; lia.
           ++ destruct (Z.eqb_spec (seqAt ali s j) (Z.of_nat b + 1)); [lia|].
              rewrite andb_false_r. ring.
           ++ destruct (Z.eqb_spec (seqAt ali s i) (Z.of_nat a + 1)); [lia|].
              simpl. ring.
        -- destruct (0 <? seqAt ali s i')%Z; [|ring].
           destruct (0 <? seqAt ali s j')%Z; [|ring].
           rewrite tupd_add_read.
           destruct (decide _) as [E'|E']; [|ring].
           destruct Hne. injection E' as -> ->. done.
Qed.

Lemma normalize_fi_cell (nC : nat) (f : table (nat * Z) Q) i (a : nat) :
  i < nSites ali -> a < nC ->
  (normalize_fi ali nC f (i, Z.of_nat a)
   == f (i, Z.of_nat a) * (1 / Qsum (fun a' => f (i, Z.of_nat a')) 0 nC))%Q.
Proof using Type.
  intros Hi Ha. unfold normalize_fi.
  set (S0 := Qsum (fun a' => f (i, Z.of_nat a')) 0 nC).
  assert (forall a, a < nC ->
    (for_loop 0 (nSites ali) (fun i f =>
       let fsum := for_loop 0 nC (fun ai acc => nadd acc (f (i, Z.of_nat ai))) nzero in
       let fsumInv := ndiv none fsum in
       for_loop 0 nC (fun ai f =>
         tupd f (i, Z.of_nat ai) (fun x => nmul x fsumInv)) f) f (i, Z.of_nat a)
     == if i <? nSites ali then f (i, Z.of_nat a) * (1 / S0)
        else f (i, Z.of_nat a))%Q) as Hend.
  { apply (for_loop_inv (fun m t => forall a, a < nC ->
      (t (i, Z.of_nat a) == if i <? m then f (i, Z.of_nat a) * (1 / S0)
                            else f (i, Z.of_nat a))%Q)); [lia| |].
    - intros a' _. reflexivity.
    - intros m t Hm It a' Ha'. cbv zeta.
      destruct (decide (m = i)) as [->|Hne].
      + destruct (Nat.ltb_spec i (S i)); [|lia].
        assert (for_loop 0 nC (fun ai acc => nadd acc (t (i, Z.of_nat ai))) nzero
                == S0)%Q as Hfsum.
        { rewrite (for_loop_contrib (fun acc => acc)
                     (fun ai => t (i, Z.of_nat ai))).
          - unfold S0. cbn. rewrite Qplus_0_l. apply Qsum_ext.
            intros ai Hai. rewrite It by lia.
            by destruct (Nat.ltb_spec i i); [lia|].
          - intros ai acc _. reflexivity. }
        match goal with
        | |- context [ndiv none ?e] => set (c := ndiv none e)
        end.
        rewrite (for_loop_once (fun t => t (i, Z.of_nat a')) c a'); [|lia| |].
        * unfold c. cbn [ndiv none nlit Q_numeric]. change (inject_Z 1) with 1%Q.
          rewrite Hfsum, It by done.
          by destruct (Nat.ltb_spec i i); [lia|].
        * intros t'. rewrite tupd_mul_read. by destruct (decide _).
        * intros k t' _ Hk. rewrite tupd_mul_read.
          destruct (decide _) as [E|E]; [|reflexivity].
          injection E as E. lia.
      + rewrite (for_loop_never (fun t => t (i, Z.of_nat a'))).
        * rewrite It by done.
          destruct (Nat.ltb_spec i m), (Nat.ltb_spec i (S m)); try lia; reflexivity.
        * intros k t' _. rewrite tupd_mul_read.
          destruct (decide _) as [E|E]; [congruence|reflexivity]. }
  rewrite Hend by done. by destruct (Nat.ltb_spec i (nSites ali)); [|lia].
Qed.

End ConditionalMarginals.

Section BlockNormalization.
Variable nC : nat.

Lemma scale_block_hit (c : Q) (t : table (nat * nat * Z * Z) Q) i j a b :
  a < nC -> b < nC ->
  (for_loop 0 nC (fun ai f =>
     for_loop 0 nC (fun aj f =>
       tupd f (i, j, Z.of_nat ai, Z.of_nat aj) (fun x => nmul x c)) f) t
     (i, j, Z.of_nat a, Z.of_nat b)
   == t (i, j, Z.of_nat a, Z.of_nat b) * c)%Q.
Proof using Type.
  intros Ha Hb.
  rewrite (for_loop_once (fun t => t (i, j, Z.of_nat a, Z.of_nat b)) c a);
    [reflexivity|lia| |].
  - intros t'.
    rewrite (for_loop_once (fun t => t (i, j, Z.of_nat a, Z.of_nat b)) c b);
      [reflexivity|lia| |].
    + intros t''. rewrite tupd_mul_read. by destruct (decide _).
    + intros k t'' _ Hk. rewrite tupd_mul_read.
      destruct (decide _) as [E|E]; [|reflexivity]. injection E as E. lia.
  - intros k t' _ Hk.
    apply (for_loop_never (fun t => t (i, j, Z.of_nat a, Z.of_nat b))).
    intros k' t'' _. rewrite tupd_mul_read.
    destruct (decide _) as [E|E]; [|reflexivity]. injection E as E _. lia.
Qed.

Lemma scale_block_miss (c : Q) (t : table (nat * nat * Z * Z) Q) i j i' j' a b :
  (i', j') <> (i, j) ->
  (for_loop 0 nC (fun ai f =>
     for_loop 0 nC (fun aj f =>
       tupd f (i', j', Z.of_nat ai, Z.of_nat aj) (fun x => nmul x c)) f) t
     (i, j, a, b)
   == t (i, j, a, b))%Q.
Proof using Type.
  intros Hne.
  apply (for_loop_never (fun t => t (i, j, a, b))). intros k t' _.
  apply (for_loop_never (fun t => t (i, j, a, b))). intros k' t'' _.
  rewrite tupd_mul_read.
  destruct (decide _) as [E|E]; [|reflexivity]. destruct Hne. congruence.
Qed.

Lemma block_sum_loop (t : table (nat * nat * Z * Z) Q) i j :
  (for_loop 0 nC (fun ai acc =>
     for_loop 0 nC (fun aj acc =>
       nadd acc (t (i, j, Z.of_nat ai, Z.of_nat aj))) acc) nzero
   == Qsum (fun a => Qsum (fun b => t (i, j, Z.of_nat a, Z.of_nat b)) 0 nC) 0 nC)%Q.
Proof using Type.
  rewrite (for_loop_contrib (fun acc => acc)
    (fun a => Qsum (fun b => t (i, j, Z.of_nat a, Z.of_nat b)) 0 nC)).
  - unfold nzero. cbn [nlit Q_numeric]. apply Qplus_0_l.
  - intros a acc _.
    apply (for_loop_contrib (fun acc => acc)
      (fun b => t (i, j, Z.of_nat a, Z.of_nat b))).
    intros b acc' _. reflexivity.
Qed.


End BlockNormalization.

Lemma normalize_fij_cell (ali : alignment_t Q) (nC : nat)
    (f : table (nat * nat * Z * Z) Q) i j (a b : nat) :
  i < j < nSites ali -> a < nC -> b < nC ->
  (normalize_fij ali nC f (i, j, Z.of_nat a, Z.of_nat b)
   == f (i, j, Z.of_nat a, Z.of_nat b)
      * (1 / Qsum (fun a' =>
                Qsum (fun b' => f (i, j, Z.of_nat a', Z.of_nat b')) 0 nC) 0 nC))%Q.
Proof.
  intros Hij Ha Hb. unfold normalize_fij.
  set (S0 := Qsum (fun a' =>
               Qsum (fun b' => f (i, j, Z.of_nat a', Z.of_nat b')) 0 nC) 0 nC).
  match goal with
  | |- (?r _ == _)%Q =>
      assert (forall a b, a < nC -> b < nC ->
        (r (i, j, Z.of_nat a, Z.of_nat b)
         == if i <? nSites ali - 1 then f (i, j, Z.of_nat a, Z.of_nat b) * (1 / S0)
            else f (i, j, Z.of_nat a, Z.of_nat b))%Q) as Hend
  end.
  { apply (for_loop_inv (fun m t => forall a b, a < nC -> b < nC ->
      (t (i, j, Z.of_nat a, Z.of_nat b)
       == if i <? m then f (i, j, Z.of_nat a, Z.of_nat b) * (1 / S0)
          else f (i, j, Z.of_nat a, Z.of_nat b))%Q)); [lia| |].
    - intros a' b' _ _. reflexivity.
    - intros m t Hm It.
      destruct (decide (m = i)) as [->|Hne].
      + (* the row of blocks (i, _): the loop over j' *)
        destruct (Nat.ltb_spec i (S i)); [|lia].
        match goal with
        | |- forall a b, _ -> _ -> (?r _ == _)%Q =>
            assert (forall a b, a < nC -> b < nC ->
              (r (i, j, Z.of_nat a, Z.of_nat b)
               == if j <? nSites ali
                  then f (i, j, Z.of_nat a, Z.of_nat b) * (1 / S0)
                  else f (i, j, Z.of_nat a, Z.of_nat b))%Q) as Hrow
        end.
        { apply (for_loop_inv (fun m' t' => forall a b, a < nC -> b < nC ->
            (t' (i, j, Z.of_nat a, Z.of_nat b)
             == if j <? m' then f (i, j, Z.of_nat a, Z.of_nat b) * (1 / S0)
                else f (i, j, Z.of_nat a, Z.of_nat b))%Q)); [lia| |].
          - intros a' b' Ha' Hb'. rewrite It by done.
            destruct (Nat.ltb_spec i i), (Nat.ltb_spec j (i + 1));
              try lia; reflexivity.
          - intros m' t' Hm' Jt a' b' Ha' Hb'. cbv zeta.
            destruct (decide (m' = j)) as [->|Hne'].
            + destruct (Nat.ltb_spec j (S j)); [|lia].
              rewrite scale_block_hit by done.
              cbn [ndiv none nlit Q_numeric]. change (inject_Z 1) with 1%Q.
              rewrite block_sum_loop.
              assert (Qsum (fun a0 =>
                        Qsum (fun b0 => t' (i, j, Z.of_nat a0, Z.of_nat b0)) 0 nC)
                        0 nC == S0)%Q as ->.
              { apply Qsum_ext. intros a0 Ha0. apply Qsum_ext. intros b0 Hb0.
                rewrite Jt by lia. by destruct (Nat.ltb_spec j j); [lia|]. }
              rewrite Jt by done. by destruct (Nat.ltb_spec j j); [lia|].
            + rewrite scale_block_miss by congruence.
              rewrite Jt by done.
              destruct (Nat.ltb_spec j m'), (Nat.ltb_spec j (S m'));
                try lia; reflexivity. }
        intros a' b' Ha' Hb'. rewrite Hrow by done.
        by destruct (Nat.ltb_spec j (nSites ali)); [|lia].
      + (* another row of blocks *)
        intros a' b' Ha' Hb'.
        rewrite (for_loop_never
                   (fun t => t (i, j, Z.of_nat a', Z.of_nat b'))).
        * rewrite It by done.
          destruct (Nat.ltb_spec i m), (Nat.ltb_spec i (S m)); try lia; reflexivity.
        * intros j' t' _. cbv zeta. apply scale_block_miss. congruence. }
  rewrite Hend by done.
  by destruct (Nat.ltb_spec i (nSites ali - 1)); [|lia].
Qed.

(** ** Totals of the conditional counts *)

Lemma Qsum_pos f lo hi x :
  lo <= x < hi ->
  (forall k, lo <= k < hi -> (0 <= f k)%Q) ->
  (0 < f x)%Q -> (0 < Qsum f lo hi)%Q.
Proof.
  intros Hx Hnn Hpos.
  rewrite (Qsum_split f lo x hi) by lia.
  rewrite (Qsum_split f x (S x) hi) by lia.
  rewrite Qsum_one.
  pose proof (Qsum_nonneg f lo x) as H1.
  pose proof (Qsum_nonneg f (S x) hi) as H2.
  assert (0 <= Qsum f lo x)%Q by (apply H1; intros; apply Hnn; lia).
  assert (0 <= Qsum f (S x) hi)%Q by (apply H2; intros; apply Hnn; lia).
  lra.
Qed.

Lemma weightAt_pos (l : list Q) s :
  Forall (fun x => 0 < x)%Q l -> s < length l -> (0 < weightAt l s)%Q.
Proof.
  intros Hall Hs. unfold weightAt.
  destruct (lookup_lt_is_Some_2 l s Hs) as [x Hx].
  rewrite (nth_lookup_Some l s _ x Hx).
  by eapply (Forall_lookup_1 _ l s x).
Qed.

Lemma Forall_pos_nonneg (l : list Q) :
  Forall (fun x => 0 < x)%Q l -> Forall (fun x => 0 <= x)%Q l.
Proof.
  intros Hall. eapply Forall_impl; [exact Hall|]. intros x Hx. simpl in *. lra.
Qed.

Lemma Qsum_list_pos (l : list Q) :
  Forall (fun x => 0 < x)%Q l -> l <> [] -> (0 < Qsum_list l)%Q.
Proof.
  intros Hall. induction Hall as [|x l Hx Hall IH]; [done|].
  intros _. simpl. destruct l as [|y l].
  - simpl. lra.
  - assert (0 < Qsum_list (y :: l))%Q by (by apply IH). lra.
Qed.

Lemma ungapped_count_total (ali : alignment_t Q) (nC : nat) i :
  (forall s, s < nSeqs ali -> (0 <= seqAt ali s i <= Z.of_nat nC)%Z) ->
  (Qsum (fun a => ungapped_count ali i a) 0 nC == ungapped_weight ali i)%Q.
Proof.
  intros Hvalid. unfold ungapped_count, ungapped_weight.
  rewrite Qsum_swap. apply Qsum_ext. intros s Hs.
  specialize (Hvalid s ltac:(lia)).
  destruct (Z.ltb_spec 0 (seqAt ali s i)) as [Hpos|Hgap].
  - apply Qsum_symbol with (c := (seqAt ali s i - 1)%Z)
                           (g := fun a => (seqAt ali s i =? Z.of_nat a + 1)%Z).
    + lia.
    + intros a Ha. apply Z.eqb_eq in Ha. lia.
    + apply Z.eqb_eq. lia.
  - apply Qsum_zero. intros a _.
    destruct (Z.eqb_spec (seqAt ali s i) (Z.of_nat a + 1)); [lia|reflexivity].
Qed.

Lemma ungapped_pair_count_total (ali : alignment_t Q) (nC : nat) i j :
  (forall s k, s < nSeqs ali -> k = i \/ k = j ->
     (0 <= seqAt ali s k <= Z.of_nat nC)%Z) ->
  (Qsum (fun a => Qsum (fun b => ungapped_pair_count ali i j a b) 0 nC) 0 nC
   == ungapped_pair_weight ali i j)%Q.
Proof.
  intros Hvalid. unfold ungapped_pair_count, ungapped_pair_weight.
  etransitivity; [apply Qsum_ext; intros a _; apply Qsum_swap|].
  rewrite Qsum_swap. apply Qsum_ext. intros s Hs.
  pose proof (Hvalid s i ltac:(lia) (or_introl eq_refl)) as Hi.
  pose proof (Hvalid s j ltac:(lia) (or_intror eq_refl)) as Hj.
  destruct (Z.ltb_spec 0 (seqAt ali s i)) as [Hpi|Hgi]; simpl.
  - rewrite (Qsum_single _ 0 nC (Z.to_nat (seqAt ali s i - 1))); [|lia|].
    + replace (Z.of_nat (Z.to_nat (seqAt ali s i - 1)) + 1)%Z
        with (seqAt ali s i) by lia.
      rewrite Z.eqb_refl. simpl.
      destruct (Z.ltb_spec 0 (seqAt ali s j)) as [Hpj|Hgj].
      * apply Qsum_symbol with (c := (seqAt ali s j - 1)%Z)
                               (g := fun b => (seqAt ali s j =? Z.of_nat b + 1)%Z).
        -- lia.
        -- intros b Hb. apply Z.eqb_eq in Hb. lia.
        -- apply Z.eqb_eq. lia.
      * apply Qsum_zero. intros b _.
        destruct (Z.eqb_spec (seqAt ali s j) (Z.of_nat b + 1)); [lia|reflexivity].
    + intros a _ Ha. apply Qsum_zero. intros b _.
      destruct (Z.eqb_spec (seqAt ali s i) (Z.of_nat a + 1)); [lia|reflexivity].
  - apply Qsum_zero. intros a _. apply Qsum_zero. intros b _.
    destruct (Z.eqb_spec (seqAt ali s i) (Z.of_nat a + 1)); [lia|reflexivity].
Qed.

Lemma valid_codes_gapreduced {T} (ali : alignment_t T) s i :
  loader_nCodes ali -> valid_codes ali -> s < nSeqs ali -> i < nSites ali ->
  (0 <= seqAt ali s i
     <= Z.of_nat (String.length (alphabet_string (ali_alphabet ali)) - 1))%Z.
Proof.
  intros Hn Hvalid Hs Hi. specialize (Hvalid s i Hs Hi).
  unfold loader_nCodes in Hn. rewrite Hn in Hvalid. lia.
Qed.

Lemma count_fi_ungapped_total (ali : alignment_t Q) i :
  loader_nCodes ali -> valid_codes ali -> i < nSites ali ->
  (Qsum (fun a => count_fi_ungapped ali (i, Z.of_nat a)) 0
        (String.length (alphabet_string (ali_alphabet ali)) - 1)
   == ungapped_weight ali i)%Q.
Proof.
  intros Hn Hvalid Hi.
  etransitivity;
    [apply Qsum_ext; intros a _; by apply count_fi_ungapped_cell|].
  apply ungapped_count_total. intros s Hs. by apply valid_codes_gapreduced.
Qed.

Lemma count_fij_ungapped_total (ali : alignment_t Q) i j :
  loader_nCodes ali -> valid_codes ali -> i < j < nSites ali ->
  (Qsum (fun a =>
      Qsum (fun b => count_fij_ungapped ali (i, j, Z.of_nat a, Z.of_nat b)) 0
           (String.length (alphabet_string (ali_alphabet ali)) - 1)) 0
        (String.length (alphabet_string (ali_alphabet ali)) - 1)
   == ungapped_pair_weight ali i j)%Q.
Proof.
  intros Hn Hvalid Hij.
  etransitivity;
    [apply Qsum_ext; intros a _; apply Qsum_ext; intros b _;
     by apply count_fij_ungapped_cell|].
  apply ungapped_pair_count_total. intros s k Hs [-> | ->];
    apply valid_codes_gapreduced; done || lia.
Qed.

(** ** Loops read at one cell, in every arithmetic *)

Lemma for_loop_read {St R} (read : St -> R) (g : nat -> R -> R) lo hi
    (body : nat -> St -> St) (st : St) :
  (forall k st', lo <= k < hi -> read (body k st') = g k (read st')) ->
  read (for_loop lo hi body st) = for_loop lo hi g (read st).
Proof.
  intros Hbody. destruct (decide (lo <= hi)) as [Hle|Hgt].
  - apply (for_loop_inv (fun k st' => read st' = for_loop lo k g (read st)));
      [done| |].
    + by rewrite for_loop_nil by lia.
    + intros k st' Hk Hst. rewrite Hbody, Hst by done.
      by rewrite (for_loop_S lo k g) by lia.
  - by rewrite !for_loop_nil by lia.
Qed.

Lemma for_loop_skip {St R} (read : St -> R) lo hi
    (body : nat -> St -> St) (st : St) :
  (forall k st', lo <= k < hi -> read (body k st') = read st') ->
  read (for_loop lo hi body st) = read st.
Proof.
  intros Hbody. destruct (decide (lo <= hi)) as [Hle|Hgt].
  - apply (for_loop_inv (fun _ st' => read st' = read st)); [done|done|].
    intros k st' Hk Hst. by rewrite Hbody.
  - by rewrite for_loop_nil by lia.
Qed.

Lemma for_loop_hit {St R} (read : St -> R) (g : R -> R) x lo hi
    (body : nat -> St -> St) (st : St) :
  lo <= x < hi ->
  (forall st', read (body x st') = g (read st')) ->
  (forall k st', lo <= k < hi -> k <> x -> read (body k st') = read st') ->
  read (for_loop lo hi body st) = g (read st).
Proof.
  intros Hx Hhit Hmiss.
  assert (read (for_loop lo hi body st)
          = if x <? hi then g (read st) else read st) as Hend.
  { apply (for_loop_inv
      (fun k st' => read st' = if x <? k then g (read st) else read st));
      [lia| |].
    - by destruct (Nat.ltb_spec x lo); [lia|].
    - intros k st' Hk Hst. destruct (decide (k = x)) as [->|Hne].
      + rewrite Hhit, Hst.
        destruct (Nat.ltb_spec x x); [lia|].
        by destruct (Nat.ltb_spec x (S x)); [|lia].
      + rewrite Hmiss, Hst by done.
        by destruct (Nat.ltb_spec x k), (Nat.ltb_spec x (S k)); try lia. }
  rewrite Hend. by destruct (Nat.ltb_spec x hi); [|lia].
Qed.

Lemma tupd_read {K T} `{EqDecision K} (t : table K T) k (f : T -> T) k0 :
  tupd t k f k0 = if decide (k0 = k) then f (t k0) else t k0.
Proof. reflexivity. Qed.

(** ** The conditional counts and their normalization, in every arithmetic *)

Section ConditionalCounts.
Context {T : Type} `{Numeric T}.
Variable ali : alignment_t T.

Lemma count_fi_ungapped_read i (a : nat) :
  i < nSites ali ->
  count_fi_ungapped ali (i, Z.of_nat a) = conditional_count ali i a.
Proof using Type.
  intros Hi. unfold count_fi_ungapped, conditional_count, weighted_count.
  rewrite (for_loop_read (fun t => t (i, Z.of_nat a))
    (fun s acc => if (seqAt ali s i =? Z.of_nat a + 1)%Z
                  then nadd acc (weightAt (weights ali) s) else acc)).
  - reflexivity.
  - intros s t _.
    apply (for_loop_hit (fun t => t (i, Z.of_nat a))
             (fun x => if (seqAt ali s i =? Z.of_nat a + 1)%Z
                       then nadd x (weightAt (weights ali) s) else x) i);
      [lia| |].
    + intros t'. destruct (Z.ltb_spec 0 (seqAt ali s i)) as [Hpos|Hgap].
      * rewrite tupd_read.
        destruct (Z.eqb_spec (seqAt ali s i) (Z.of_nat a + 1)) as [E|E];
          destruct (decide _) as [E'|E']; try reflexivity.
        -- destruct E'. f_equal. lia.
        -- injection E' as E'. lia.
      * by destruct (Z.eqb_spec (seqAt ali s i) (Z.of_nat a + 1)); [lia|].
    + intros i' t' _ Hne. destruct (0 <? seqAt ali s i')%Z; [|done].
      rewrite tupd_read. destruct (decide _) as [E|E]; [congruence|done].
Qed.

Lemma count_fij_ungapped_read i j (a b : nat) :
  i < j < nSites ali ->
  count_fij_ungapped ali (i, j, Z.of_nat a, Z.of_nat b)
  = conditional_pair_count ali i j a b.
Proof using Type.
  intros Hij. unfold count_fij_ungapped, conditional_pair_count, weighted_count.
  set (hit := fun s => (seqAt ali s i =? Z.of_nat a + 1)%Z
                       && (seqAt ali s j =? Z.of_nat b + 1)%Z).
  rewrite (for_loop_read (fun t => t (i, j, Z.of_nat a, Z.of_nat b))
    (fun s acc => if hit s then nadd acc (weightAt (weights ali) s) else acc)).
  - reflexivity.
  - intros s t _.
    apply (for_loop_hit (fun t => t (i, j, Z.of_nat a, Z.of_nat b))
             (fun x => if hit s then nadd x (weightAt (weights ali) s) else x) i);
      [lia| |].
    + intros t'.
      apply (for_loop_hit (fun t => t (i, j, Z.of_nat a, Z.of_nat b))
               (fun x => if hit s then nadd x (weightAt (weights ali) s) else x)
               j); [lia| |].
      * intros t''. unfold hit.
        destruct (Z.ltb_spec 0 (seqAt ali s i)) as [Hi|Hi];
          [destruct (Z.ltb_spec 0 (seqAt ali s j)) as [Hj|Hj]|].
        -- rewrite tupd_read.
           destruct (Z.eqb_spec (seqAt ali s i) (Z.of_nat a + 1)) as [Ea|Ea];
             destruct (Z.eqb_spec (seqAt ali s j) (Z.of_nat b + 1)) as [Eb|Eb];
             destruct (decide _) as [E'|E']; simpl; try reflexivity;
             try (injection E' as E1 E2; lia).
           destruct E'. repeat f_equal; lia.
        -- destruct (Z.eqb_spec (seqAt ali s j) (Z.of_nat b + 1)); [lia|].
           by rewrite andb_false_r.
        -- by destruct (Z.eqb_spec (seqAt ali s i) (Z.of_nat a + 1)); [lia|].
      * intros j' t'' _ Hne.
        destruct (0 <? seqAt ali s i)%Z; [|done].
        destruct (0 <? seqAt ali s j')%Z; [|done].
        rewrite tupd_read. destruct (decide _) as [E|E]; [congruence|done].
    + intros i' t' _ Hne.
      apply (for_loop_skip (fun t => t (i, j, Z.of_nat a, Z.of_nat b))).
      intros j' t'' _.
      destruct (0 <? seqAt ali s i')%Z; [|done].
      destruct (0 <? seqAt ali s j')%Z; [|done].
      rewrite tupd_read. destruct (decide _) as [E|E]; [congruence|done].
Qed.

(* Each row is multiplied by the inverse of its own total, read before the
   row is changed; the other rows are left alone. *)
Lemma normalize_fi_read (nC : nat) (f : table (nat * Z) T) i (a : nat) :
  i < nSites ali -> a < nC ->
  normalize_fi ali nC f (i, Z.of_nat a)
  = nmul (f (i, Z.of_nat a))
      (ndiv none
         (for_loop 0 nC (fun ai acc => nadd acc (f (i, Z.of_nat ai))) nzero)).
Proof using Type.
  intros Hi Ha. unfold normalize_fi.
  set (inv := ndiv none
         (for_loop 0 nC (fun ai acc => nadd acc (f (i, Z.of_nat ai))) nzero)).
  assert (forall a, a < nC ->
    for_loop 0 (nSites ali) (fun i f =>
       let fsum := for_loop 0 nC (fun ai acc => nadd acc (f (i, Z.of_nat ai))) nzero in
       let fsumInv := ndiv none fsum in
       for_loop 0 nC (fun ai f =>
         tupd f (i, Z.of_nat ai) (fun x => nmul x fsumInv)) f) f (i, Z.of_nat a)
    = if i <? nSites ali then nmul (f (i, Z.of_nat a)) inv
      else f (i, Z.of_nat a)) as Hend.
  { apply (for_loop_inv (fun m t => forall a, a < nC ->
      t (i, Z.of_nat a) = if i <? m then nmul (f (i, Z.of_nat a)) inv
                          else f (i, Z.of_nat a))); [lia|done|].
    intros m t Hm It a' Ha'. cbv zeta.
    destruct (decide (m = i)) as [->|Hne].
    - destruct (Nat.ltb_spec i (S i)); [|lia].
      assert (for_loop 0 nC (fun ai acc => nadd acc (t (i, Z.of_nat ai))) nzero
              = for_loop 0 nC (fun ai acc => nadd acc (f (i, Z.of_nat ai))) nzero)
        as ->.
      { apply for_loop_ext. intros ai acc Hai. rewrite It by lia.
        by destruct (Nat.ltb_spec i i); [lia|]. }
      fold inv.
      etrans.
      { apply (for_loop_hit (fun t => t (i, Z.of_nat a'))
                 (fun x => nmul x inv) a'); [lia| |].
        - intros t'. rewrite tupd_read. by destruct (decide _).
        - intros k t' _ Hk. rewrite tupd_read.
          destruct (decide _) as [E|E]; [|done]. injection E as E. lia. }
      cbv beta. rewrite It by done. by destruct (Nat.ltb_spec i i); [lia|].
    - etrans.
      { apply (for_loop_skip (fun t => t (i, Z.of_nat a'))).
        intros k t' _. rewrite tupd_read.
        destruct (decide _) as [E|E]; [congruence|done]. }
      cbv beta. rewrite It by done.
      by destruct (Nat.ltb_spec i m), (Nat.ltb_spec i (S m)); try lia. }
  rewrite Hend by done. by destruct (Nat.ltb_spec i (nSites ali)); [|lia].
Qed.

Lemma normalize_fij_read (nC : nat) (f : table (nat * nat * Z * Z) T)
    i j (a b : nat) :
  i < j < nSites ali -> a < nC -> b < nC ->
  normalize_fij ali nC f (i, j, Z.of_nat a, Z.of_nat b)
  = nmul (f (i, j, Z.of_nat a, Z.of_nat b))
      (ndiv none
         (for_loop 0 nC (fun ai acc =>
            for_loop 0 nC (fun aj acc =>
              nadd acc (f (i, j, Z.of_nat ai, Z.of_nat aj))) acc) nzero)).
Proof using Type.
  intros Hij Ha Hb. unfold normalize_fij.
  set (inv := ndiv none
         (for_loop 0 nC (fun ai acc =>
            for_loop 0 nC (fun aj acc =>
              nadd acc (f (i, j, Z.of_nat ai, Z.of_nat aj))) acc) nzero)).
  set (P := fun (done : bool) (t : table (nat * nat * Z * Z) T) =>
    forall a b, a < nC -> b < nC ->
      t (i, j, Z.of_nat a, Z.of_nat b)
      = if done then nmul (f (i, j, Z.of_nat a, Z.of_nat b)) inv
        else f (i, j, Z.of_nat a, Z.of_nat b)).
  assert (P (i <? nSites ali - 1)
    (for_loop 0 (nSites ali - 1) (fun i f =>
      for_loop (i + 1) (nSites ali) (fun j f =>
        let fsum :=
          for_loop 0 nC (fun ai acc =>
            for_loop 0 nC (fun aj acc =>
              nadd acc (f (i, j, Z.of_nat ai, Z.of_nat aj))) acc) nzero in
        let fsumInv := ndiv none fsum in
        for_loop 0 nC (fun ai f =>
          for_loop 0 nC (fun aj f =>
            tupd f (i, j, Z.of_nat ai, Z.of_nat aj)
              (fun x => nmul x fsumInv)) f) f) f) f)) as Hend.
  { apply (for_loop_inv (fun m t => P (i <? m) t)); [lia|by intros ? ? ? ?|].
    intros m t Hm It.
    assert (P ((i <? m) || ((i =? m) && (j <? nSites ali)))
      (for_loop (m + 1) (nSites ali) (fun j f =>
        let fsum :=
          for_loop 0 nC (fun ai acc =>
            for_loop 0 nC (fun aj acc =>
              nadd acc (f (m, j, Z.of_nat ai, Z.of_nat aj))) acc) nzero in
        let fsumInv := ndiv none fsum in
        for_loop 0 nC (fun ai f =>
          for_loop 0 nC (fun aj f =>
            tupd f (m, j, Z.of_nat ai, Z.of_nat aj)
              (fun x => nmul x fsumInv)) f) f) t)) as Hin.
    { apply (for_loop_inv
        (fun j' t' => P ((i <? m) || ((i =? m) && (j <? j'))) t')); [lia| |].
      - replace ((i =? m) && (j <? m + 1)) with false; [by rewrite orb_false_r|].
        destruct (Nat.eqb_spec i m); [|done].
        by destruct (Nat.ltb_spec j (m + 1)); [lia|].
      - intros j' t' Hj' It'. cbv zeta.
        destruct (decide (m = i /\ j' = j)) as [[-> ->]|Hne].
        + assert ((i <? i) = false) as Eii by (apply Nat.ltb_ge; lia).
          assert ((j <? j) = false) as Ejj by (apply Nat.ltb_ge; lia).
          assert ((j <? S j) = true) as EjS by (apply Nat.ltb_lt; lia).
          rewrite Eii, Nat.eqb_refl, Ejj in It'. simpl in It'.
          rewrite Eii, Nat.eqb_refl, EjS. simpl.
          assert (for_loop 0 nC (fun ai acc =>
                    for_loop 0 nC (fun aj acc =>
                      nadd acc (t' (i, j, Z.of_nat ai, Z.of_nat aj))) acc) nzero
                  = for_loop 0 nC (fun ai acc =>
                    for_loop 0 nC (fun aj acc =>
                      nadd acc (f (i, j, Z.of_nat ai, Z.of_nat aj))) acc) nzero)
            as ->.
          { apply for_loop_ext. intros ai acc Hai.
            apply for_loop_ext. intros aj acc' Haj.
            by rewrite (It' ai aj) by lia. }
          fold inv. intros a' b' Ha' Hb'.
          etrans.
          { apply (for_loop_hit (fun t => t (i, j, Z.of_nat a', Z.of_nat b'))
                     (fun x => nmul x inv) a'); [lia| |].
            - intros t''.
              apply (for_loop_hit (fun t => t (i, j, Z.of_nat a', Z.of_nat b'))
                       (fun x => nmul x inv) b'); [lia| |].
              + intros t3. rewrite tupd_read. by destruct (decide _).
              + intros k t3 _ Hk. rewrite tupd_read.
                destruct (decide _) as [E|E]; [|done]. injection E as E. lia.
            - intros k t'' _ Hk.
              apply (for_loop_skip (fun t => t (i, j, Z.of_nat a', Z.of_nat b'))).
              intros k' t3 _. rewrite tupd_read.
              destruct (decide _) as [E|E]; [|done]. injection E as E1 E2. lia. }
          cbv beta. by rewrite (It' a' b') by done.
        + intros a' b' Ha' Hb'.
          etrans.
          { apply (for_loop_skip (fun t => t (i, j, Z.of_nat a', Z.of_nat b'))).
            intros k t'' _.
            apply (for_loop_skip (fun t => t (i, j, Z.of_nat a', Z.of_nat b'))).
            intros k' t3 _. rewrite tupd_read.
            destruct (decide _) as [E|E]; [|done].
            injection E as E1 E2 E3 E4. lia. }
          cbv beta. rewrite (It' a' b') by done.
          replace ((i <? m) || ((i =? m) && (j <? S j')))
            with ((i <? m) || ((i =? m) && (j <? j'))); [done|].
          destruct (Nat.ltb_spec i m); [done|]. simpl.
          destruct (Nat.eqb_spec i m) as [->|]; [|done]. simpl.
          destruct (Nat.ltb_spec j j'), (Nat.ltb_spec j (S j')); try done; lia. }
    replace (i <? S m) with ((i <? m) || ((i =? m) && (j <? nSites ali)));
      [done|].
    destruct (Nat.ltb_spec i m), (Nat.eqb_spec i m),
      (Nat.ltb_spec j (nSites ali)), (Nat.ltb_spec i (S m)); simpl; try done; lia. }
  unfold P in Hend. rewrite (Hend a b) by done.
  by destruct (Nat.ltb_spec i (nSites ali - 1)); [|lia].
Qed.

End ConditionalCounts.

Lemma conditional_marginals_computed {T} `{Numeric T}
    (ali : alignment_t T) (options : options_t T) (i j a b : nat) :
  estimatorMAP options = INFER_MAP_PLM_GAPREDUCE ->
  a < nCodes (MSACountMarginals ali options) ->
  b < nCodes (MSACountMarginals ali options) ->
  (i < nSites ali ->
     fi (MSACountMarginals ali options) (i, Z.of_nat a)
     = nmul (conditional_count ali i a)
         (ndiv none
            (conditional_total ali (nCodes (MSACountMarginals ali options)) i)))
  /\ (i < j < nSites ali ->
     fij (MSACountMarginals ali options) (i, j, Z.of_nat a, Z.of_nat b)
     = nmul (conditional_pair_count ali i j a b)
         (ndiv none
            (conditional_pair_total ali
               (nCodes (MSACountMarginals ali options)) i j))).
Proof.
  intros Hmode. unfold MSACountMarginals. rewrite Hmode.
  cbn [fi fij nCodes]. intros Ha Hb. split.
  - intros Hi. rewrite normalize_fi_read by done.
    rewrite count_fi_ungapped_read by done. do 2 f_equal.
    unfold conditional_total. apply for_loop_ext. intros a' acc _.
    by rewrite count_fi_ungapped_read.
  - intros Hij. rewrite normalize_fij_read by done.
    rewrite count_fij_ungapped_read by done. do 2 f_equal.
    unfold conditional_pair_total. apply for_loop_ext. intros a' acc _.
    apply for_loop_ext. intros b' acc' _.
    by rewrite count_fij_ungapped_read.
Qed.

Lemma conditional_marginals_exact
    (ali : alignment_t Q) (options : options_t Q) (i j a b : nat) :
  estimatorMAP options = INFER_MAP_PLM_GAPREDUCE ->
  loader_nCodes ali -> valid_codes ali ->
  a < nCodes (MSACountMarginals ali options) ->
  b < nCodes (MSACountMarginals ali options) ->
  (i < nSites ali -> ~ (ungapped_weight ali i == 0)%Q ->
     (fi (MSACountMarginals ali options) (i, Z.of_nat a)
      == ungapped_count ali i a / ungapped_weight ali i)%Q)
  /\
  (i < j < nSites ali -> ~ (ungapped_pair_weight ali i j == 0)%Q ->
     (fij (MSACountMarginals ali options) (i, j, Z.of_nat a, Z.of_nat b)
      == ungapped_pair_count ali i j a b / ungapped_pair_weight ali i j)%Q).
Proof.
  intros Hmode Hn Hvalid. unfold MSACountMarginals. rewrite Hmode. simpl.
  intros Ha Hb. split.
  - intros Hi Hnz. rewrite normalize_fi_cell by done.
    rewrite count_fi_ungapped_total, count_fi_ungapped_cell by done.
    field. exact Hnz.
  - intros Hij Hnz. rewrite normalize_fij_cell by done.
    rewrite count_fij_ungapped_total, count_fij_ungapped_cell by done.
    field. exact Hnz.
Qed.

(** C2 (as amended).  Under the gap-reduced convention no guard exists.
    For an alignment with one weight per sequence whose codes are all
    below the length of the alphabet (every count is then written inside
    the tables), for a site i, a pair of sites i < j and symbols a, b below
    the reduced nCodes, in every arithmetic: fi(i, a) is the conditional
    count of the symbol (the weights of the sequences with symbol a + 1 at
    site i, added in the order of the sequences) multiplied by 1.0 / fsum,
    with fsum the counts of the site added in the order of the symbols,
    whatever fsum is; and fij(i, j, a, b) is the conditional count of the
    pair of symbols multiplied by 1.0 / fsum, with fsum the counts of the
    pair of sites.  In exact arithmetic, for an alignment with one weight
    per sequence whose codes are all in 0 .. nCodes-1, with nCodes the
    length of the alphabet: at a site whose ungapped weight total is not
    zero fi(i, a) is the conditional count divided by that total, and at a
    pair of sites whose doubly-ungapped total is not zero fij(i, j, a, b)
    is the conditional pair count divided by that total.  A zero total is
    divided by like any other: the code has neither a fallback nor a
    failure with a diagnostic. *)
Theorem conditional_marginals_unguarded :
  (forall (T : Type) (NT : Numeric T) (ali : alignment_t T)
          (options : options_t T) (i j a b : nat),
     estimatorMAP options = INFER_MAP_PLM_GAPREDUCE ->
     wf_weights ali ->
     (forall s k, s < nSeqs ali -> k < nSites ali ->
        (seqAt ali s k
         < Z.of_nat (String.length (alphabet_string (ali_alphabet ali))))%Z) ->
     a < nCodes (MSACountMarginals ali options) ->
     b < nCodes (MSACountMarginals ali options) ->
     (i < nSites ali ->
        fi (MSACountMarginals ali options) (i, Z.of_nat a)
        = nmul (conditional_count ali i a)
            (ndiv none
               (conditional_total ali
                  (nCodes (MSACountMarginals ali options)) i)))
     /\ (i < j < nSites ali ->
        fij (MSACountMarginals ali options) (i, j, Z.of_nat a, Z.of_nat b)
        = nmul (conditional_pair_count ali i j a b)
            (ndiv none
               (conditional_pair_total ali
                  (nCodes (MSACountMarginals ali options)) i j))))
  /\ (forall (ali : alignment_t Q) (options : options_t Q) (i j a b : nat),
     estimatorMAP options = INFER_MAP_PLM_GAPREDUCE ->
     wf_weights ali -> loader_nCodes ali -> valid_codes ali ->
     a < nCodes (MSACountMarginals ali options) ->
     b < nCodes (MSACountMarginals ali options) ->
     (i < nSites ali -> ~ (ungapped_weight ali i == 0)%Q ->
        (fi (MSACountMarginals ali options) (i, Z.of_nat a)
         == ungapped_count ali i a / ungapped_weight ali i)%Q)
     /\
     (i < j < nSites ali -> ~ (ungapped_pair_weight ali i j == 0)%Q ->
        (fij (MSACountMarginals ali options) (i, j, Z.of_nat a, Z.of_nat b)
         == ungapped_pair_count ali i j a b / ungapped_pair_weight ali i j)%Q)).
Proof.
  split.
  - intros T NT ali options i j a b Hmode _ _.
    by apply conditional_marginals_computed.
  - intros ali options i j a b Hmode _.
    by apply conditional_marginals_exact.
Qed.



(** ** The properties at sample inputs *)

Lemma twins_valid : valid_codes twins.
Proof.
  intros s i Hs Hi. change (nSeqs twins) with 2 in Hs.
  change (nSites twins) with 2 in Hi.
  destruct s as [|[|s]], i as [|[|i]]; try lia; vm_compute; split; congruence.
Qed.

Lemma twins_positive : Forall (fun x => 0 < x)%Q (weights twins).
Proof. repeat constructor. Qed.

Lemma twins_nEff : (nEff twins == Qsum_list (weights twins))%Q.
Proof. vm_compute. reflexivity. Qed.

Lemma pairwise_marginals_consistent_witness :
  (Qsum (fun b' => fij (MSACountMarginals twins (default_options INFER_MAP_PLM))
                       (0%nat, 1%nat, Z.of_nat 1, Z.of_nat b'))
        0%nat (nCodes (MSACountMarginals twins (default_options INFER_MAP_PLM)))
   == fi (MSACountMarginals twins (default_options INFER_MAP_PLM))
         (0%nat, Z.of_nat 1))%Q
  /\
  (Qsum (fun a' => fij (MSACountMarginals twins (default_options INFER_MAP_PLM))
                       (0%nat, 1%nat, Z.of_nat a', Z.of_nat 2))
        0%nat (nCodes (MSACountMarginals twins (default_options INFER_MAP_PLM)))
   == fi (MSACountMarginals twins (default_options INFER_MAP_PLM))
         (1%nat, Z.of_nat 2))%Q.
Proof.
  apply (pairwise_marginals_consistent twins (default_options INFER_MAP_PLM)
           0 1 1 2).
  - reflexivity.
  - reflexivity.
  - exact twins_valid.
  - vm_compute. discriminate.
  - simpl. lia.
  - simpl. lia.
  - simpl. lia.
Defined.

Lemma ungapij_le_marginal_ungapped_witness :
  (ungapij (MSACountMarginals twins (default_options INFER_MAP_PLM_GAPREDUCE)) (0%nat, 1%nat)
   <= Qmin (1 - gapi (MSACountMarginals twins
                        (default_options INFER_MAP_PLM_GAPREDUCE)) 0%nat)
           (1 - gapi (MSACountMarginals twins
                        (default_options INFER_MAP_PLM_GAPREDUCE)) 1%nat))%Q.
Proof.
  apply (ungapij_le_marginal_ungapped twins
           (default_options INFER_MAP_PLM_GAPREDUCE) 0 1).
  - reflexivity.
  - reflexivity.
  - apply Forall_pos_nonneg, twins_positive.
  - exact twins_nEff.
  - vm_compute. reflexivity.
  - simpl. lia.
Defined.

Lemma conditional_marginals_unguarded_witness :
  fi (MSACountMarginals (loaded (T := float) codesAA 2 2 [1; 2; 1; 2]%Z)
        (default_options INFER_MAP_PLM_GAPREDUCE)) (0%nat, 0%Z)
  = nmul (conditional_count (loaded (T := float) codesAA 2 2 [1; 2; 1; 2]%Z) 0 0)
      (ndiv none
         (conditional_total (loaded (T := float) codesAA 2 2 [1; 2; 1; 2]%Z)
            20 0))
  /\ (fi (MSACountMarginals twins (default_options INFER_MAP_PLM_GAPREDUCE))
         (0%nat, 0%Z)
      == ungapped_count twins 0%nat 0%nat / ungapped_weight twins 0%nat)%Q.
Proof.
  destruct conditional_marginals_unguarded as [Hany Hexact]. split.
  - apply (Hany float _ (loaded codesAA 2 2 [1; 2; 1; 2]%Z)
             (default_options INFER_MAP_PLM_GAPREDUCE) 0 1 0 1).
    + reflexivity.
    + reflexivity.
    + intros s k Hs Hk. change (nSeqs _) with 2 in Hs.
      change (nSites _) with 2 in Hk.
      destruct s as [|[|s]], k as [|[|k]]; try lia; vm_compute; reflexivity.
    + simpl. lia.
    + simpl. lia.
    + simpl. lia.
  - apply (Hexact twins (default_options INFER_MAP_PLM_GAPREDUCE) 0 1 0 1).
    + reflexivity.
    + reflexivity.
    + reflexivity.
    + exact twins_valid.
    + simpl. lia.
    + simpl. lia.
    + simpl. lia.
    + vm_compute. discriminate.
Defined.


(** C2, counterexample.  Two protein sequences "A-" and "C-" read with the
    default options and the gap-reduced convention: the conditional total
    of the second site is zero, and MSACountMarginals divides by it; in
    IEEE arithmetic the row of fi and the block of fij that involve this
    site are NaN. *)
Lemma conditional_marginals_zero_total_counterexample :
  match MSARead (T := float) gap_column_records
          (default_options INFER_MAP_PLM_GAPREDUCE) with
  | Some ali0 =>
      let ali := MSAReweightSequences false ali0
                   (theta (default_options (T := float) INFER_MAP_PLM_GAPREDUCE))
                   (scale (default_options (T := float) INFER_MAP_PLM_GAPREDUCE)) in
      let r := MSACountMarginals ali (default_options INFER_MAP_PLM_GAPREDUCE) in
      PrimFloat.eqb
        (for_loop 0 (nCodes r)
           (fun a acc => nadd acc (count_fi_ungapped ali (1, Z.of_nat a))) nzero)
        PrimFloat.zero = true
      /\ PrimFloat.is_nan (fi r (1, 0%Z)) = true
      /\ PrimFloat.is_nan (fij r (0, 1, 0%Z, 0%Z)) = true
  | None => False
  end.
Proof. vm_compute. repeat split; reflexivity. Qed.


(** C8, counterexample.  In binary64, under the gap-reduced convention and
    with the default options.  For the sequences "-A", "-C", "AA", "AC",
    "AD" the weights are 1 and nEff is 5, and the rounded
    ungapij(0,1) = 0.60000000000000009 is above the rounded
    1 - gapi(0) = 0.59999999999999998.  For the sequences "AC" and "AC"
    reweighted with scale = 0x1p-1074 (option -s), the smallest positive
    double, the weights are 0 (non-negative) and so is nEff; gapi and
    ungapij are NaN, and the comparison fails. *)
Lemma ungapij_le_marginal_ungapped_counterexample :
  match main_statistics (T := float) false gapped_records
          (default_options INFER_MAP_PLM_GAPREDUCE) with
  | Some r =>
      weights r = [1; 1; 1; 1; 1]%float
      /\ nEff r = 5%float
      /\ ungapij r (0, 1) = 0x1.3333333333334p-1%float
      /\ nsub none (gapi r 0) = 0x1.3333333333333p-1%float
      /\ nleb (ungapij r (0, 1)) (nsub none (gapi r 0)) = false
  | None => False
  end
  /\
  match main_statistics (T := float) false twin_records
          (scaled_options INFER_MAP_PLM_GAPREDUCE 0x1p-1074%float) with
  | Some r =>
      nltb nzero 0x1p-1074%float = true
      /\ weights r = [0; 0]%float
      /\ Forall (fun x => nleb nzero x = true) (weights r)
      /\ PrimFloat.is_nan (ungapij r (0, 1)) = true
      /\ PrimFloat.is_nan (gapi r 0) = true
      /\ nleb (ungapij r (0, 1)) (nsub none (gapi r 0)) = false
      /\ nleb (ungapij r (0, 1)) (nsub none (gapi r 1)) = false
  | None => False
  end.
Proof.
  split; vm_compute; repeat split; repeat constructor.
Qed.

(** ** MSARead: the codes of the retained cells *)

Lemma filter_length_Forall {A} (P : A -> Prop) `{forall x, Decision (P x)}
    (l : list A) :
  length (filter P l) = length l -> Forall P l.
Proof.
  induction l as [|x l IH]; [constructor|].
  rewrite filter_cons. destruct (decide (P x)) as [Hx|Hx]; simpl; intros Hlen.
  - constructor; [done|]. apply IH. lia.
  - pose proof (length_filter P l). lia.
Qed.

Lemma select_sites_Forall (P : Z -> Prop) (sv : list bool) (row : list Z) :
  Forall P row -> Forall P (select_sites sv row).
Proof.
  revert row. induction sv as [|v sv IH]; intros row Hrow; [constructor|].
  destruct Hrow as [|c row Hc Hrow]; [constructor|]. simpl.
  destruct v; [constructor; [done|]|]; by apply IH.
Qed.

Lemma select_sites_length (sv : list bool) (row : list Z) :
  length sv <= length row ->
  length (select_sites sv row) = length (filter (fun v => v = true) sv).
Proof.
  revert row. induction sv as [|v sv IH]; intros row Hlen; [done|].
  destruct row as [|c row]; [simpl in Hlen; lia|].
  simpl in Hlen. simpl. rewrite filter_cons.
  destruct v; destruct (decide _); try done; simpl; rewrite IH by lia; done.
Qed.

Lemma valid_row_in_range (nC n : nat) (row : list Z) :
  length row = n -> (seqValid nC row =? n) = true ->
  Forall (fun c => code_in_range nC c = true) row.
Proof.
  intros Hlen Hv. apply Nat.eqb_eq in Hv. unfold seqValid in Hv.
  apply (filter_length_Forall (fun c => code_in_range nC c = true)). lia.
Qed.

Lemma code_in_range_spec (nC : nat) (c : Z) :
  code_in_range nC c = true <-> (- Z.of_nat nC <= c < Z.of_nat nC)%Z.
Proof. unfold code_in_range. rewrite andb_true_iff. lia. Qed.

Lemma shift_code_range (nC : nat) (c : Z) :
  code_in_range nC c = true ->
  (0 <= shift_code nC c < Z.of_nat nC)%Z.
Proof.
  intros Hc. apply code_in_range_spec in Hc. unfold shift_code.
  destruct (Z.ltb_spec c 0); lia.
Qed.

Lemma length_list_ascii_of_string (s : string) :
  length (list_ascii_of_string s) = String.length s.
Proof. induction s as [|c s IH]; simpl; congruence. Qed.

Lemma concat_length_uniform {A} (n : nat) (ls : list (list A)) :
  Forall (fun l => length l = n) ls -> length (concat ls) = length ls * n.
Proof.
  induction 1 as [|l ls Hl Hls IH]; [done|].
  simpl. rewrite length_app, IH, Hl. lia.
Qed.

(* The rows that the loader keeps, before the shift of the soft codes. *)
Lemma retained_rows (nC nSites0 : nat) (rows : list (list Z)) (sv : list bool) :
  Forall (fun row => length row = nSites0) rows ->
  length sv <= nSites0 ->
  let valid := fun row => seqValid nC row =? nSites0 in
  let nValidSeqs := length (filter (fun row => valid row = true) rows) in
  let nValidSites := length (filter (fun v => v = true) sv) in
  let reduce := (nValidSeqs <? length rows) || (nValidSites <? nSites0) in
  let rows1 := if reduce
               then map (select_sites sv) (filter (fun row => valid row = true) rows)
               else rows in
  Forall (Forall (fun c => code_in_range nC c = true)) rows1
  /\ Forall (fun row => length row = if reduce then nValidSites else nSites0) rows1
  /\ length rows1 = if reduce then nValidSeqs else length rows.
Proof.
  intros Hrows Hsv valid nValidSeqs nValidSites reduce rows1.
  subst rows1. destruct reduce eqn:Hred.
  - split; [|split].
    + apply Forall_map, Forall_forall. intros row Hin.
      apply list_elem_of_filter in Hin. destruct Hin as [Hv Hin].
      apply select_sites_Forall. apply (valid_row_in_range nC nSites0); [|done].
      by apply (proj1 (Forall_forall _ _) Hrows).
    + apply Forall_map, Forall_forall. intros row Hin.
      apply list_elem_of_filter in Hin. destruct Hin as [_ Hin].
      rewrite select_sites_length;
        [done|by rewrite (proj1 (Forall_forall _ _) Hrows row)].
    + by rewrite length_map.
  - apply orb_false_iff in Hred. destruct Hred as [Hseqs _].
    apply Nat.ltb_ge in Hseqs.
    pose proof (length_filter (fun row => valid row = true) rows) as Hle.
    assert (Forall (fun row => valid row = true) rows) as Hall
      by (apply (filter_length_Forall (fun row => valid row = true));
          subst nValidSeqs; lia).
    split; [|split; done].
    apply Forall_forall. intros row Hin.
    apply (valid_row_in_range nC nSites0).
    + by apply (proj1 (Forall_forall _ _) Hrows).
    + by apply (proj1 (Forall_forall _ _) Hall).
Qed.

Lemma Forall_matrix_cell (P : Z -> Prop) (cells : list Z) (n m s i : nat) :
  Forall P cells -> length cells = n * m -> s < n -> i < m ->
  P (nth (i + m * s) cells 0%Z).
Proof.
  intros Hall Hlen Hs Hi.
  destruct (nth_lookup_or_length cells (i + m * s) 0%Z) as [Hx|Hge]; [|nia].
  by eapply (Forall_lookup_1 _ cells).
Qed.

(** X29.  In every alignment that MSARead returns, no retained cell
    holds the out-of-alphabet sentinel nCodes: every cell is in
    [-nCodes, nCodes-1].  For the built-in protein alphabet every soft
    (negative) code has moreover been shifted back, so that all cells are
    in [0, nCodes-1]. *)
Theorem loader_codes_in_range {T} `{Numeric T}
    (records : list (string * string)) (options : options_t T)
    (ali : alignment_t T) :
  MSARead records options = Some ali ->
  (forall s i, s < nSeqs ali -> i < nSites ali ->
     (- Z.of_nat (nCodes ali) <= seqAt ali s i < Z.of_nat (nCodes ali))%Z)
  /\ (alphabet options = codesAA -> valid_codes ali).
Proof.
  intros Hread. unfold MSARead in Hread.
  destruct records as [|[name0 seq0] rest]; [discriminate|].
  cbv zeta in Hread.
  set (alpha := alphabet options) in *.
  set (nC := String.length (alphabet_string alpha)) in *.
  set (nSites0 := String.length seq0) in *.
  set (records := (name0, seq0) :: rest) in *.
  set (rows := map _ records) in *.
  set (tgt := match target options with Some _ => _ | None => _ end) in *.
  set (sv := if (0 <=? tgt)%Z then _ else repeat true nSites0) in *.
  destruct (forallb _ records) eqn:Hlen; [|discriminate].
  assert (Forall (fun row => length row = nSites0) rows) as Hrows.
  { subst rows. apply Forall_map, Forall_forall. intros r Hr.
    rewrite length_map, length_list_ascii_of_string.
    apply Nat.eqb_eq.
    apply (proj1 (forallb_forall _ records) Hlen r). by apply list_elem_of_In. }
  assert (length sv <= nSites0) as Hsv.
  { subst sv. destruct (0 <=? tgt)%Z.
    - rewrite length_map.
      destruct (nth_in_or_default (Z.to_nat tgt) rows []) as [Hin | ->];
        [|simpl; lia].
      apply list_elem_of_In in Hin.
      by rewrite (proj1 (Forall_forall _ _) Hrows _ Hin).
    - by rewrite repeat_length. }
  pose proof (retained_rows nC nSites0 rows sv Hrows Hsv) as Hkept.
  cbv zeta in Hkept.
  replace (length rows) with (length records) in Hkept
    by (subst rows; by rewrite length_map).
  set (reduce := _ || _) in *.
  set (rows1 := if reduce then _ else rows) in *.
  destruct Hkept as (Hrange & Hlens & Hcount).
  injection Hread as <-. unfold valid_codes, seqAt.
  cbn [nSeqs nSites nCodes sequences].
  set (n1 := if reduce then _ else length records) in *.
  set (m1 := if reduce then _ else nSites0) in *.
  assert (forall rows2 : list (list Z),
            length rows2 = n1 -> Forall (fun row => length row = m1) rows2 ->
            length (concat rows2) = n1 * m1) as Hflat.
  { intros rows2 <- Hall. by apply concat_length_uniform. }
  split.
  - intros s i Hs Hi.
    apply (Forall_matrix_cell
             (fun c => (- Z.of_nat nC <= c < Z.of_nat nC)%Z) _ n1 m1);
      [|apply Hflat|done|done].
    + apply Forall_concat. destruct (is_codesAA alpha).
      * apply Forall_map. eapply Forall_impl; [exact Hrange|].
        intros row Hrow. apply Forall_map.
        eapply Forall_impl; [exact Hrow|].
        intros c Hc. simpl. apply shift_code_range in Hc. lia.
      * eapply Forall_impl; [exact Hrange|].
        intros row Hrow. eapply Forall_impl; [exact Hrow|].
        intros c Hc. by apply code_in_range_spec.
    + destruct (is_codesAA alpha); [by rewrite length_map|done].
    + destruct (is_codesAA alpha); [|done].
      apply Forall_map. eapply Forall_impl; [exact Hlens|].
      intros row Hrow. simpl. by rewrite length_map.
  - intros HAA s i Hs Hi. subst alpha. rewrite HAA. cbn [is_codesAA].
    apply (Forall_matrix_cell
             (fun c => (0 <= c < Z.of_nat nC)%Z) _ n1 m1);
      [|apply Hflat|done|done].
    + apply Forall_concat, Forall_map. eapply Forall_impl; [exact Hrange|].
      intros row Hrow. apply Forall_map.
      eapply Forall_impl; [exact Hrow|].
      intros c Hc. simpl. by apply shift_code_range.
    + by rewrite length_map.
    + apply Forall_map. eapply Forall_impl; [exact Hlens|].
      intros row Hrow. simpl. by rewrite length_map.
Qed.

Lemma loader_codes_in_range_witness :
  exists ali : alignment_t Q,
    MSARead [("s1", "AC-a"); ("s2", "ACXa")]%string
            (default_options INFER_MAP_PLM) = Some ali
    /\ valid_codes ali.
Proof.
  eexists. split.
  - vm_compute. reflexivity.
  - apply (loader_codes_in_range
             [("s1", "AC-a"); ("s2", "ACXa")]%string
             (default_options INFER_MAP_PLM)).
    + vm_compute. reflexivity.
    + reflexivity.
Defined.

(** C1, the code at the failing input.  With the alphabet "-AC" given on
    the command line (option -a), the loader keeps the sequence "a-" with
    the soft code -2 in its first cell: the shift that the comment "Shift
    any lowercase codes back to uppercase" announces is made only when
    ali->alphabet == codesAA.  MSACountMarginals then takes the code as the
    symbol index of fi(0, seq(0, 0)). *)
Lemma loader_keeps_soft_code :
  match MSARead (T := float) [("s1", "a-")]%string (custom_options "-AC") with
  | Some ali =>
      nSeqs ali = 1 /\ nSites ali = 2 /\ nCodes ali = 3
      /\ MSAReadCode "a" (customAlphabet "-AC") 3 = (-2)%Z
      /\ seqAt ali 0 0 = (-2)%Z
      /\ ~ (0 <= seqAt ali 0 0 < Z.of_nat (nCodes ali))%Z
  | None => False
  end.
Proof. vm_compute. repeat split; try reflexivity. intros [Hle _]. by apply Hle. Qed.

(** C10, the code at the failing input.  With the alphabet "-AC" given on
    the command line, the loader keeps the sequence "Ac" with the soft
    code -1 in its second cell (the defect of the shift, which is made only
    for the built-in alphabet), and MSACountMarginals adds the weight of
    the sequence to fi(1, -1) and fij(0, 1, 1, -1), outside the symbols
    0 .. nCodes-1 over which the marginals are summed. *)
Lemma pairwise_marginals_soft_code :
  match MSARead (T := float) soft_records (custom_options "-AC") with
  | Some ali =>
      nSeqs ali = 3 /\ nSites ali = 2 /\ nCodes ali = 3
      /\ seqAt ali 1 0 = 1%Z /\ seqAt ali 1 1 = (-1)%Z
      /\ ~ (0 <= seqAt ali 1 1 < Z.of_nat (nCodes ali))%Z
  | None => False
  end.
Proof. vm_compute. repeat split; try reflexivity. intros [Hle _]. by apply Hle. Qed.

(** ** MSAEstimateSampleSize: the sites of a trial and the CDF scan *)

Lemma pick_other_spec (i j : nat) (draws rest : list nat) :
  pick_other i draws = Some (j, rest)
  <-> j <> i /\ exists n, draws = repeat i n ++ j :: rest.
Proof.
  split.
  - revert j rest. induction draws as [|d l IH]; intros j rest Hp; [done|].
    simpl in Hp. destruct (Nat.eqb_spec d i) as [->|Hne].
    + destruct (IH _ _ Hp) as (Hj & n & ->). split; [done|]. by exists (S n).
    + injection Hp as <- <-. split; [done|]. by exists 0.
  - intros (Hj & n & ->). induction n as [|n IH]; simpl.
    + by destruct (Nat.eqb_spec j i).
    + by rewrite Nat.eqb_refl.
Qed.

Lemma cdf_scan_Some (U : Q) (cdf : list Q) (si k : nat) :
  cdf_scan U cdf si = Some k
  <-> si <= k /\ k - si < length cdf
      /\ (U <= nth (k - si) cdf 0)%Q
      /\ (forall k', k' < k - si -> (nth k' cdf 0 < U)%Q).
Proof.
  revert si. induction cdf as [|c cdf IH]; intros si; simpl.
  - split; [done|]. intros (_ & Hlt & _). lia.
  - cbn [nltb Q_numeric]. destruct (Qle_bool U c) eqn:E; simpl.
    + apply Qle_bool_iff in E. split.
      * intros [= <-]. rewrite Nat.sub_diag. repeat split; try lia; done.
      * intros (Hle & Hlt & HU & Hbelow).
        destruct (k - si) as [|d] eqn:Ed; [f_equal; lia|].
        specialize (Hbelow 0 ltac:(lia)). simpl in Hbelow. lra.
    + assert (c < U)%Q as Hc.
      { apply Qnot_le_lt. intros Hle. apply Qle_bool_iff in Hle. congruence. }
      rewrite IH. split.
      * intros (Hle & Hlt & HU & Hbelow).
        replace (k - si) with (S (k - S si)) by lia.
        repeat split; try lia; [done|].
        intros [|k'] Hk'; [done|]. apply Hbelow. lia.
      * intros (Hle & Hlt & HU & Hbelow).
        destruct (k - si) as [|d] eqn:Ed; [simpl in HU; lra|].
        replace (k - S si) with d by lia.
        repeat split; try lia; [done|].
        intros k' Hk'. apply (Hbelow (S k')). lia.
Qed.

Lemma cdf_scan_None (U : Q) (cdf : list Q) (si : nat) :
  cdf_scan U cdf si = None <-> Forall (fun c => c < U)%Q cdf.
Proof.
  revert si. induction cdf as [|c cdf IH]; intros si; simpl.
  - split; [constructor|done].
  - cbn [nltb Q_numeric]. destruct (Qle_bool U c) eqn:E; simpl.
    + apply Qle_bool_iff in E. split; [done|].
      intros Hall. inversion Hall; subst. lra.
    + rewrite IH. split.
      * intros Hall. constructor; [|done].
        apply Qnot_le_lt. intros Hle. apply Qle_bool_iff in Hle. congruence.
      * intros Hall. by inversion Hall.
Qed.

Lemma cdf_scan_stop {T} `{Numeric T} (U : T) (cdf : list T) (si k : nat) :
  cdf_scan U cdf si = Some k
  <-> si <= k /\ k - si < length cdf
      /\ nltb (nth (k - si) cdf nzero) U = false
      /\ (forall k', k' < k - si -> nltb (nth k' cdf nzero) U = true).
Proof.
  revert si. induction cdf as [|c cdf IH]; intros si; simpl.
  - split; [done|]. intros (_ & Hlt & _). lia.
  - destruct (nltb c U) eqn:E.
    + rewrite IH. split.
      * intros (Hle & Hlt & HU & Hbelow).
        replace (k - si) with (S (k - S si)) by lia.
        repeat split; try lia; [done|].
        intros [|k'] Hk'; [done|]. apply Hbelow. lia.
      * intros (Hle & Hlt & HU & Hbelow).
        destruct (k - si) as [|d] eqn:Ed; [simpl in HU; congruence|].
        replace (k - S si) with d by lia.
        repeat split; try lia; [done|].
        intros k' Hk'. apply (Hbelow (S k')). lia.
    + split.
      * intros [= <-]. rewrite Nat.sub_diag. repeat split; try lia; done.
      * intros (Hle & Hlt & HU & Hbelow).
        destruct (k - si) as [|d] eqn:Ed; [f_equal; lia|].
        specialize (Hbelow 0 ltac:(lia)). simpl in Hbelow. congruence.
Qed.

Lemma cdf_scan_overrun {T} `{Numeric T} (U : T) (cdf : list T) (si : nat) :
  cdf_scan U cdf si = None <-> Forall (fun c => nltb c U = true) cdf.
Proof.
  revert si. induction cdf as [|c cdf IH]; intros si; simpl.
  - split; [constructor|done].
  - destruct (nltb c U) eqn:E.
    + rewrite IH. split.
      * intros Hall. by constructor.
      * intros Hall. by inversion Hall.
    + split; [done|]. intros Hall. inversion Hall; subst. congruence.
Qed.

(** C9 (as amended).  The two sites of a trial are the first value i that
    RandomInt returns and the first later value j that differs from i:
    values equal to i are the only ones drawn again, whatever the rows of
    fi hold, so that a site with an all-zero row is selected like any
    other.  The CDF inversion scan while (U > iCDF[si]) si++ returns the
    first index whose cell U does not exceed; it stays within the array
    exactly when such a cell exists, and runs past the last cell exactly
    when U exceeds every cell.  This holds in every arithmetic. *)
Theorem trial_sites_and_cdf_scan {T} `{Numeric T}
    (ali : alignment_t T) (draws rest : list nat) (i j : nat)
    (U : T) (cdf : list T) (k : nat) :
  (pick_sites ali draws = Some (i, j, rest)
   <-> j <> i /\ exists n, draws = i :: repeat i n ++ j :: rest)
  /\ (cdf_scan U cdf 0 = Some k
      <-> k < length cdf /\ nltb (nth k cdf nzero) U = false
          /\ forall k', k' < k -> nltb (nth k' cdf nzero) U = true)
  /\ (cdf_scan U cdf 0 = None <-> Forall (fun c => nltb c U = true) cdf).
Proof.
  split; [|split].
  - unfold pick_sites. destruct draws as [|d l].
    + split; [done|]. by intros (_ & n & Hn).
    + destruct (pick_other d l) as [[j' rest']|] eqn:E.
      * apply pick_other_spec in E. destruct E as (Hj & n & ->). split.
        -- intros [= <- <- <-]. split; [done|]. by exists n.
        -- intros (Hj' & n' & [= <- Hl]). f_equal.
           assert (pick_other d (repeat d n ++ j' :: rest') = Some (j, rest)) as E'.
           { rewrite Hl. apply pick_other_spec. split; [done|]. by exists n'. }
           assert (pick_other d (repeat d n ++ j' :: rest') = Some (j', rest'))
             as E'' by (apply pick_other_spec; split; [done|]; by exists n).
           congruence.
      * split; [done|]. intros (Hj & n & [= <- Hl]).
        assert (pick_other d l = Some (j, rest)) as E'
          by (apply pick_other_spec; split; [done|]; by exists n).
        congruence.
  - rewrite cdf_scan_stop, Nat.sub_0_r. split.
    + intros (_ & H1 & H2 & H3). done.
    + intros (H1 & H2 & H3). repeat split; try done. lia.
  - apply cdf_scan_overrun.
Qed.

(** C9, counterexample.  In binary64.  A protein file whose two sequences
    "AX" and "XC" both have a character outside the alphabet is read as an
    alignment of no sequence and two sites; main goes on, every row of fi
    is zero, and the trial whose calls of RandomInt return 0 and then 1
    takes sites 0 and 1.  For the sequences "A-" and "C-" under the
    gap-reduced convention ungapij(0,1) is 0, so that on the pair (0,1)
    NeffLocal = Neff * 0.0 is 0 (here for Neff = nEff = 2), Nint is 0, and
    invN = 1.0 / Nint divides by zero.  And for seven probabilities
    iP[a] = 1.0 / 7.0 the last cell of iCDF is 0x1.ffffffffffffep-1: the
    scan with U = 0x1.fffffffffffffp-1, which is below 1, runs past
    iCDF[nCodes-1]. *)
Lemma degenerate_site_selected_counterexample :
  match main_statistics (T := float) false dropped_records
          (default_options INFER_MAP_PLM) with
  | Some r =>
      nSeqs r = 0 /\ nSites r = 2
      /\ fi_row_zero r 0 = true /\ fi_row_zero r 1 = true
      /\ pick_sites r [0; 1] = Some (0, 1, [])
  | None => False
  end
  /\
  match main_statistics (T := float) false gap_column_records
          (default_options INFER_MAP_PLM_GAPREDUCE) with
  | Some r =>
      let NeffLocal :=
        trial_NeffLocal r (default_options INFER_MAP_PLM_GAPREDUCE)
          (nEff r) 0 1 in
      nEff r = 2%float
      /\ ungapij r (0, 1) = 0%float
      /\ NeffLocal = 0%float
      /\ trial_Nint floor_double int_of_double NeffLocal 0.5%float = 0%Z
      /\ trial_invN (T := float) 0 = PrimFloat.infinity
  | None => False
  end
  /\
  (let iP := repeat (ndiv none (nlit 7)) 7 in
   let U := 0x1.fffffffffffffp-1%float in
   nltb U none = true
   /\ nth 6 (compute_cdf 7 iP) nzero = 0x1.ffffffffffffep-1%float
   /\ cdf_scan U (compute_cdf 7 iP) 0 = None).
Proof.
  split; [|split]; vm_compute; repeat split; reflexivity.
Qed.

(** * Further properties of the code *)

(** ** MSAReadCode *)

Lemma find_code_spec (uc : ascii) (a : string) (nC fuel i : nat) :
  nC - 1 <= i + fuel -> i <= nC - 1 ->
  i <= find_code uc a nC fuel i <= nC - 1
  /\ (forall k, i <= k < find_code uc a nC fuel i -> alphabet_at a k <> uc)
  /\ (find_code uc a nC fuel i < nC - 1 ->
      alphabet_at a (find_code uc a nC fuel i) = uc).
Proof.
  revert i. induction fuel as [|fuel IH]; intros i Hfuel Hi; simpl.
  - split; [lia|]. split; [intros k Hk; lia|lia].
  - destruct (Nat.ltb_spec i (nC - 1)) as [Hlt|Hge]; simpl.
    + destruct (Ascii.eqb_spec uc (alphabet_at a i)) as [E|E]; simpl.
      * split; [lia|]. split; [intros k Hk; lia|done].
      * destruct (IH (S i)) as (Hr & Hbefore & Hat); [lia|lia|].
        split; [lia|]. split; [|done].
        intros k Hk. destruct (decide (k = i)) as [->|Hne]; [congruence|].
        apply Hbefore. lia.
    + split; [lia|]. split; [intros k Hk; lia|lia].
Qed.

Lemma find_code_0 (uc : ascii) (a : string) (nC : nat) :
  find_code uc a nC nC 0 <= nC - 1
  /\ (forall k, k < find_code uc a nC nC 0 -> alphabet_at a k <> uc)
  /\ (find_code uc a nC nC 0 < nC - 1 ->
      alphabet_at a (find_code uc a nC nC 0) = uc).
Proof.
  destruct (find_code_spec uc a nC nC 0) as (Hr & Hbefore & Hat); [lia|lia|].
  split; [lia|]. split; [|done]. intros k Hk. apply Hbefore. lia.
Qed.

(* The three steps of MSAReadCode, on the index that the scan returns. *)
Lemma MSAReadCode_unfold (c : ascii) (alphabet : alphabet_t) (nC : nat) :
  let a := alphabet_string alphabet in
  let c' := lookup_char alphabet c in
  let k := find_code (toupper c') a nC nC 0 in
  MSAReadCode c alphabet nC =
    if negb (Ascii.eqb c' (alphabet_at a k)) && Ascii.eqb (toupper c') (alphabet_at a k)
    then (Z.of_nat k - Z.of_nat nC)%Z
    else if (0 <? k) && negb (Ascii.eqb (toupper c') (alphabet_at a k))
         then Z.of_nat nC else Z.of_nat k.
Proof.
  intros a c' k. unfold MSAReadCode. fold a. fold (lookup_char alphabet c).
  fold c'. fold k.
  pose proof (find_code_0 (toupper c') a nC) as (Hk & _). fold k in Hk.
  destruct (negb (Ascii.eqb c' (alphabet_at a k))
            && Ascii.eqb (toupper c') (alphabet_at a k)) eqn:E.
  - destruct (Z.ltb_spec 0 (Z.of_nat k - Z.of_nat nC)); [lia|done].
  - rewrite Nat2Z.id.
    destruct (Z.ltb_spec 0 (Z.of_nat k)), (Nat.ltb_spec 0 k); try lia; done.
Qed.

(** X1.  MSAReadCode always returns a code between -nCodes and nCodes,
    whatever the character and the alphabet. *)
Theorem MSAReadCode_range (c : ascii) (alphabet : alphabet_t) (nC : nat) :
  (- Z.of_nat nC <= MSAReadCode c alphabet nC <= Z.of_nat nC)%Z.
Proof.
  rewrite MSAReadCode_unfold. cbv zeta.
  pose proof (find_code_0 (toupper (lookup_char alphabet c))
                (alphabet_string alphabet) nC) as (Hk & _).
  destruct (_ && _); [lia|]. destruct (_ && _); lia.
Qed.

(** X2.  Decoding.  For an alphabet of at least two symbols: a code in
    [0, nCodes-1] is the index of the character itself (with '.' read as
    '-' for the protein alphabet), which is then its own upper case; a
    negative code c is the index c + nCodes of the upper case of a
    character that is not itself in upper case. *)
Theorem MSAReadCode_decode (c : ascii) (alphabet : alphabet_t) :
  2 <= String.length (alphabet_string alphabet) ->
  let nC := String.length (alphabet_string alphabet) in
  let code := MSAReadCode c alphabet nC in
  ((0 <= code < Z.of_nat nC)%Z ->
     alphabet_at (alphabet_string alphabet) (Z.to_nat code) = lookup_char alphabet c
     /\ toupper (lookup_char alphabet c) = lookup_char alphabet c)
  /\ ((code < 0)%Z ->
        alphabet_at (alphabet_string alphabet) (Z.to_nat (code + Z.of_nat nC))
          = toupper (lookup_char alphabet c)
        /\ lookup_char alphabet c <> toupper (lookup_char alphabet c)).
Proof.
  intros Hlen nC code. subst code. rewrite MSAReadCode_unfold. cbv zeta.
  set (a := alphabet_string alphabet). set (c' := lookup_char alphabet c).
  pose proof (find_code_0 (toupper c') a nC) as (Hk & Hbefore & Hat).
  set (k := find_code (toupper c') a nC nC 0) in *.
  destruct (Ascii.eqb_spec c' (alphabet_at a k)) as [Ec|Ec];
    destruct (Ascii.eqb_spec (toupper c') (alphabet_at a k)) as [Eu|Eu]; simpl.
  - rewrite andb_false_r, Nat2Z.id.
    split; [intros _; split; congruence|intros ?; lia].
  - destruct (Nat.ltb_spec 0 k) as [Hpos|Hzero]; simpl.
    + split; intros ?; lia.
    + exfalso. apply Eu. symmetry. apply Hat. lia.
  - split; [intros ?; lia|]. intros _.
    replace (Z.of_nat k - Z.of_nat nC + Z.of_nat nC)%Z with (Z.of_nat k) by lia.
    rewrite Nat2Z.id. split; congruence.
  - destruct (Nat.ltb_spec 0 k) as [Hpos|Hzero]; simpl.
    + split; intros ?; lia.
    + exfalso. apply Eu. symmetry. apply Hat. lia.
Qed.

Lemma MSAReadCode_decode_witness :
  alphabet_at (alphabet_string codesAA)
    (Z.to_nat (MSAReadCode "."%char codesAA 21)) = "-"%char
  /\ alphabet_at (alphabet_string codesAA)
       (Z.to_nat (MSAReadCode "y"%char codesAA 21 + 21)) = "Y"%char.
Proof.
  destruct (MSAReadCode_decode "."%char codesAA) as [Hexact _]; [simpl; lia|].
  destruct (MSAReadCode_decode "y"%char codesAA) as [_ Hsoft]; [simpl; lia|].
  split.
  - apply Hexact. vm_compute. split; congruence.
  - apply Hsoft. reflexivity.
Defined.

(** X3.  For an alphabet of at least two symbols and an ASCII character
    (a byte below 128), MSAReadCode returns the out-of-alphabet code nCodes
    exactly when the upper case of the character (of '-' for the '.' of the
    protein alphabet) occurs nowhere in the alphabet. *)
Theorem MSAReadCode_sentinel (c : ascii) (alphabet : alphabet_t) :
  nat_of_ascii c < 128 ->
  2 <= String.length (alphabet_string alphabet) ->
  let nC := String.length (alphabet_string alphabet) in
  MSAReadCode c alphabet nC = Z.of_nat nC
  <-> forall k, k < nC ->
        alphabet_at (alphabet_string alphabet) k <> toupper (lookup_char alphabet c).
Proof.
  intros _ Hlen nC. rewrite MSAReadCode_unfold. cbv zeta.
  set (a := alphabet_string alphabet). set (c' := lookup_char alphabet c).
  pose proof (find_code_0 (toupper c') a nC) as (Hk & Hbefore & Hat).
  set (k := find_code (toupper c') a nC nC 0) in *.
  destruct (Ascii.eqb_spec (toupper c') (alphabet_at a k)) as [Eu|Eu].
  - (* the upper case is found at index k *)
    assert (k < nC) as Hlt by lia.
    rewrite andb_true_r, andb_false_r.
    split.
    + intros Hcode. destruct (negb _); lia.
    + intros Hnone. exfalso. by apply (Hnone k Hlt).
  - rewrite andb_false_r, andb_true_r.
    assert (k = nC - 1) as Hk1.
    { destruct (decide (k < nC - 1)) as [Hlt|]; [|lia].
      exfalso. apply Eu. symmetry. by apply Hat. }
    destruct (Nat.ltb_spec 0 k); [|lia]. split; [|done].
    intros _ k' Hk'. destruct (decide (k' = k)) as [->|Hne]; [congruence|].
    apply Hbefore. lia.
Qed.

Lemma MSAReadCode_sentinel_witness :
  MSAReadCode "X"%char codesAA 21 = 21%Z
  <-> forall k, k < 21 ->
        alphabet_at (alphabet_string codesAA) k <> toupper (lookup_char codesAA "X"%char).
Proof.
  apply (MSAReadCode_sentinel "X"%char codesAA).
  - vm_compute. lia.
  - simpl. lia.
Defined.

(** X4.  Encoding of an ASCII character (a byte below 128; '.' is read as
    '-' for the protein alphabet).  A character that is its own upper case
    and first occurs in the alphabet at index k gets the code k; a
    character that is not its own upper case, and whose upper case first
    occurs at index k, gets the soft code k - nCodes. *)
Theorem MSAReadCode_encode (c : ascii) (alphabet : alphabet_t) (k : nat) :
  let a := alphabet_string alphabet in
  let nC := String.length a in
  let c' := lookup_char alphabet c in
  nat_of_ascii c < 128 ->
  k < nC ->
  alphabet_at a k = toupper c' ->
  (forall k', k' < k -> alphabet_at a k' <> toupper c') ->
  MSAReadCode c alphabet nC
  = if Ascii.eqb c' (toupper c') then Z.of_nat k else (Z.of_nat k - Z.of_nat nC)%Z.
Proof.
  intros a nC c' _ Hk Hat Hfirst. rewrite MSAReadCode_unfold. cbv zeta.
  fold a. fold c'.
  pose proof (find_code_0 (toupper c') a nC) as (Hr & Hbefore & Hfound).
  fold nC in Hr, Hbefore, Hfound |- *.
  set (k0 := find_code (toupper c') a nC nC 0) in *.
  assert (k0 = k) as ->.
  { destruct (Nat.lt_trichotomy k0 k) as [Hlt|[->|Hgt]]; [|done|].
    - exfalso. apply (Hfirst k0 Hlt). apply Hfound. lia.
    - exfalso. by apply (Hbefore k Hgt). }
  rewrite Hat, Ascii.eqb_refl, andb_true_r. simpl.
  destruct (Ascii.eqb c' (toupper c')); simpl; [|done].
  by rewrite andb_false_r.
Qed.

Lemma MSAReadCode_encode_witness :
  MSAReadCode "c"%char codesAA 21 = (2 - 21)%Z.
Proof.
  apply (MSAReadCode_encode "c"%char codesAA 2).
  - vm_compute. lia.
  - simpl. lia.
  - reflexivity.
  - intros k' Hk'. destruct k' as [|[|k']]; [discriminate|discriminate|lia].
Defined.

(** X5.  With an alphabet of a single symbol no character is ever rejected:
    the code is -1 for a character that is not the symbol but whose upper
    case is, and 0 (the symbol itself) for every other character, in the
    alphabet or not. *)
Theorem MSAReadCode_single_symbol (c : ascii) (alphabet : alphabet_t) :
  String.length (alphabet_string alphabet) = 1 ->
  let a := alphabet_string alphabet in
  let c' := lookup_char alphabet c in
  MSAReadCode c alphabet 1
  = if negb (Ascii.eqb c' (alphabet_at a 0)) && Ascii.eqb (toupper c') (alphabet_at a 0)
    then (-1)%Z else 0%Z.
Proof.
  intros _ a c'. rewrite MSAReadCode_unfold. reflexivity.
Qed.

Lemma MSAReadCode_single_symbol_witness :
  MSAReadCode "?"%char (customAlphabet "A") 1 = 0%Z.
Proof.
  apply (MSAReadCode_single_symbol "?"%char (customAlphabet "A")). reflexivity.
Defined.

(** ** MSARead: the shape of the result *)

Lemma filter_Forall_id {A} (P : A -> Prop) `{forall x, Decision (P x)}
    (l : list A) :
  Forall P l -> filter P l = l.
Proof.
  induction 1 as [|x l Hx Hl IH]; [done|].
  rewrite filter_cons. destruct (decide (P x)); [by rewrite IH|done].
Qed.

Lemma select_sites_all (sv : list bool) (row : list Z) :
  Forall (fun v => v = true) sv -> length sv = length row ->
  select_sites sv row = row.
Proof.
  revert row. induction sv as [|v sv IH]; intros [|c row] Hall Hlen;
    try done.
  inversion Hall as [|? ? Hv Hall']; subst. simpl. f_equal.
  apply IH; [done|]. simpl in Hlen. lia.
Qed.

Lemma MSARead_result {T} `{Numeric T}
    (records : list (string * string)) (options : options_t T)
    (ali : alignment_t T) :
  MSARead records options = Some ali ->
  Forall (fun row => length row = first_length records) (encoded_rows options records)
  /\ length (site_mask options records) <= first_length records
  /\ ali_alphabet ali = alphabet options
  /\ nCodes ali = String.length (alphabet_string (alphabet options))
  /\ nSeqs ali = length (kept_rows options records)
  /\ nSites ali = length (filter (fun v => v = true) (site_mask options records))
  /\ sequences ali
     = concat (map (reduced_row options records) (kept_rows options records))
  /\ ali_target ali = reduced_target options records
  /\ weights ali = repeat none (nSeqs ali)
  /\ nEff ali = nnat (nSeqs ali).
Proof.
  intros Hread. unfold MSARead in Hread.
  destruct records as [|[name0 seq0] rest]; [discriminate|].
  cbv zeta in Hread.
  unfold kept_rows, reduced_target, reduced_row, site_mask, focus_index,
    row_kept, encoded_rows, first_length.
  cbn [snd].
  set (alpha := alphabet options) in *.
  set (nC := String.length (alphabet_string alpha)) in *.
  set (nSites0 := String.length seq0) in *.
  set (records := (name0, seq0) :: rest) in *.
  set (rows := map (fun r => map _ (list_ascii_of_string r.2)) records) in *.
  set (tgt := match target options with Some _ => _ | None => _ end) in *.
  set (sv := if (0 <=? tgt)%Z then _ else repeat true nSites0) in *.
  destruct (forallb _ records) eqn:Hlen; [|discriminate].
  assert (Forall (fun row => length row = nSites0) rows) as Hrows.
  { subst rows. apply Forall_map, Forall_forall. intros r Hr.
    rewrite length_map, length_list_ascii_of_string.
    apply Nat.eqb_eq.
    apply (proj1 (forallb_forall _ records) Hlen r). by apply list_elem_of_In. }
  assert (length sv <= nSites0) as Hsv.
  { subst sv. destruct (0 <=? tgt)%Z.
    - rewrite length_map.
      destruct (nth_in_or_default (Z.to_nat tgt) rows []) as [Hin | ->];
        [|simpl; lia].
      apply list_elem_of_In in Hin.
      by rewrite (proj1 (Forall_forall _ _) Hrows _ Hin).
    - by rewrite repeat_length. }
  set (kept := filter _ rows) in *.
  set (nVS := length (filter (fun v => v = true) sv)) in *.
  set (reduce := _ || _) in *.
  assert ((if reduce then map (select_sites sv) kept else rows)
            = map (select_sites sv) kept
          /\ (if reduce then length kept else length records) = length kept
          /\ (if reduce then nVS else nSites0) = nVS) as (E1 & E2 & E3).
  { destruct reduce eqn:Hred; [done|].
    apply orb_false_iff in Hred. destruct Hred as [Hseqs Hsites].
    apply Nat.ltb_ge in Hseqs. apply Nat.ltb_ge in Hsites.
    assert (length rows = length records) as Hlr
      by (subst rows; by rewrite length_map).
    pose proof (length_filter (fun row => (seqValid nC row =? nSites0) = true) rows)
      as Hle1.
    pose proof (length_filter (fun v => v = true) sv) as Hle2.
    change (length kept <= length rows) in Hle1.
    change (nVS <= length sv) in Hle2.
    assert (kept = rows) as Hkept.
    { apply filter_Forall_id.
      apply (filter_length_Forall
               (fun row => (seqValid nC row =? nSites0) = true)).
      change (length kept = length rows). lia. }
    assert (Forall (fun v => v = true) sv) as Hall.
    { apply (filter_length_Forall (fun v => v = true)).
      change (nVS = length sv). lia. }
    split; [|split; [rewrite Hkept; lia|lia]].
    rewrite Hkept. transitivity (map id rows); [by rewrite map_id|].
    apply map_ext_in. intros row Hin. symmetry. apply select_sites_all; [done|].
    apply list_elem_of_In in Hin.
    pose proof (proj1 (Forall_forall _ _) Hrows _ Hin) as Hrow.
    cbv beta in Hrow. unfold id. lia. }
  rewrite E1, E2, E3 in Hread. injection Hread as <-.
  repeat (split; [done|]).
  split; [|done].
  change (concat (if is_codesAA alpha
                  then map (map (shift_code nC)) (map (select_sites sv) kept)
                  else map (select_sites sv) kept)
          = concat (map (fun row => if is_codesAA alpha
                                    then map (shift_code nC) (select_sites sv row)
                                    else select_sites sv row) kept)).
  f_equal. destruct (is_codesAA alpha); [|done]. by rewrite map_map.
Qed.

Lemma MSAReadCode_in_range_iff (c : ascii) (alphabet : alphabet_t) (nC : nat) :
  code_in_range nC (MSAReadCode c alphabet nC) = true
  <-> MSAReadCode c alphabet nC <> Z.of_nat nC.
Proof.
  rewrite code_in_range_spec, MSAReadCode_unfold. cbv zeta.
  pose proof (find_code_0 (toupper (lookup_char alphabet c))
                (alphabet_string alphabet) nC) as (Hk & _).
  set (k := find_code _ _ nC nC 0) in *.
  destruct (_ && _).
  - split; [lia|]. intros Hne. destruct nC; [simpl in *|]; lia.
  - destruct (Nat.ltb_spec 0 k) as [Hpos|Hzero]; simpl.
    + destruct (negb _); [lia|]. split; lia.
    + split; [lia|]. intros Hne. lia.
Qed.

Lemma length_filter_map {A B} (f : A -> B) (P : B -> Prop) (Q : A -> Prop)
    `{forall y, Decision (P y)} `{forall x, Decision (Q x)} (l : list A) :
  (forall x, x ∈ l -> P (f x) <-> Q x) ->
  length (filter P (map f l)) = length (filter Q l).
Proof.
  induction l as [|x l IH]; intros Hiff; [done|].
  simpl. rewrite !filter_cons.
  pose proof (Hiff x ltac:(left)) as Hx.
  assert (length (filter P (map f l)) = length (filter Q l)) as IH'
    by (apply IH; intros y Hy; apply Hiff; by right).
  destruct (decide (P (f x))), (decide (Q x)); simpl; try lia; tauto.
Qed.

Lemma row_kept_iff {T} (options : options_t T)
    (records : list (string * string)) (row : list Z) :
  length row = first_length records ->
  row_kept options records row = true
  <-> Forall (fun c => code_in_range
                         (String.length (alphabet_string (alphabet options))) c
                       = true) row.
Proof.
  intros Hlen. unfold row_kept. split.
  - intros Hv. by apply (valid_row_in_range _ (first_length records)).
  - intros Hall. apply Nat.eqb_eq. unfold seqValid.
    rewrite filter_Forall_id by done. done.
Qed.

Lemma forallb_false_exists {A} (f : A -> bool) (l : list A) :
  forallb f l = false -> exists x, In x l /\ f x = false.
Proof.
  induction l as [|x l IH]; simpl; [done|].
  destruct (f x) eqn:E; simpl.
  - intros Hl. destruct (IH Hl) as (y & Hin & Hy). exists y. by split; [right|].
  - intros _. exists x. by split; [left|].
Qed.

(** X6.  On the records of a file (there is always a first one) MSARead
    fails (exits with an error) exactly when some sequence does not have
    the length of the first one. *)
Theorem MSARead_error {T} `{Numeric T}
    (records : list (string * string)) (options : options_t T) :
  records <> [] ->
  MSARead records options = None
  <-> exists r, In r records /\ String.length (snd r) <> first_length records.
Proof.
  intros Hne. unfold MSARead. destruct records as [|[name0 seq0] rest]; [done|].
  cbv zeta. set (records := (name0, seq0) :: rest).
  change (String.length seq0) with (first_length records).
  destruct (forallb _ records) eqn:Hlen.
  - split; [done|]. intros (r & Hin & Hr).
    apply (proj1 (forallb_forall _ records) Hlen) in Hin.
    apply Nat.eqb_eq in Hin. done.
  - split; [|done]. intros _.
    destruct (forallb_false_exists _ records Hlen) as (r & Hin & Hr).
    exists r. split; [done|]. by apply Nat.eqb_neq.
Qed.

Lemma MSARead_error_witness :
  MSARead (T := Q) [("a", "AC"); ("b", "A")]%string
          (default_options INFER_MAP_PLM) = None
  <-> exists r, In r [("a", "AC"); ("b", "A")]%string
        /\ String.length (snd r)
           <> first_length [("a", "AC"); ("b", "A")]%string.
Proof.
  apply (MSARead_error [("a", "AC"); ("b", "A")]%string
           (default_options INFER_MAP_PLM)).
  discriminate.
Defined.

Lemma reduced_row_length {T} (options : options_t T)
    (records : list (string * string)) (row : list Z) :
  length (site_mask options records) <= length row ->
  length (reduced_row options records row)
  = length (filter (fun v => v = true) (site_mask options records)).
Proof.
  intros Hlen. unfold reduced_row. cbv zeta.
  destruct (is_codesAA (alphabet options));
    [rewrite length_map|]; by apply select_sites_length.
Qed.

Lemma kept_rows_in {T} (options : options_t T)
    (records : list (string * string)) (row : list Z) :
  row ∈ kept_rows options records ->
  row ∈ encoded_rows options records /\ row_kept options records row = true.
Proof.
  unfold kept_rows. intros Hin. apply list_elem_of_filter in Hin. tauto.
Qed.

(** X7.  The alignment that MSARead returns is a full matrix with one unit
    weight per sequence: sequences has nSeqs * nSites cells, weights has
    nSeqs cells all equal to 1.0, nEff is nSeqs and nCodes is the length of
    the alphabet; the reduction only removes rows and columns, so nSeqs is
    at most the number of records and nSites at most the length of the
    first sequence. *)
Theorem MSARead_shape {T} `{Numeric T}
    (records : list (string * string)) (options : options_t T)
    (ali : alignment_t T) :
  MSARead records options = Some ali ->
  length (sequences ali) = nSeqs ali * nSites ali
  /\ weights ali = repeat none (nSeqs ali)
  /\ wf_weights ali
  /\ nEff ali = nnat (nSeqs ali)
  /\ loader_nCodes ali
  /\ nSeqs ali <= length records
  /\ nSites ali <= first_length records.
Proof.
  intros Hread.
  destruct (MSARead_result records options ali Hread)
    as (Hrows & Hmask & Halpha & HnC & Hseqs & Hsites & Hcells & _ & Hw & HnEff).
  split; [|split; [done|split; [|split; [done|split; [|split]]]]].
  - rewrite Hcells, Hseqs, Hsites.
    rewrite (concat_length_uniform
               (length (filter (fun v => v = true) (site_mask options records))));
      [by rewrite length_map|].
    apply Forall_map, Forall_forall. intros row Hin.
    apply kept_rows_in in Hin. destruct Hin as [Hin _].
    apply reduced_row_length.
    by rewrite (proj1 (Forall_forall _ _) Hrows row Hin).
  - unfold wf_weights. by rewrite Hw, repeat_length.
  - unfold loader_nCodes. by rewrite HnC, Halpha.
  - rewrite Hseqs. unfold kept_rows.
    etransitivity; [apply length_filter|].
    unfold encoded_rows. by rewrite length_map.
  - rewrite Hsites. etransitivity; [apply length_filter|done].
Qed.

Lemma MSARead_shape_witness :
  exists ali : alignment_t Q,
    MSARead sample_records (focus_options "s3") = Some ali
    /\ length (sequences ali) = nSeqs ali * nSites ali
    /\ wf_weights ali.
Proof.
  eexists. split; [vm_compute; reflexivity|].
  destruct (MSARead_shape sample_records (focus_options (T := Q) "s3") _ eq_refl)
    as (Hlen & _ & Hwf & _).
  split; [exact Hlen|exact Hwf].
Defined.

Lemma filter_repeat_true (n : nat) :
  filter (fun v => v = true) (repeat true n) = repeat true n.
Proof.
  apply filter_Forall_id. induction n; simpl; by constructor.
Qed.

(** X8.  MSARead keeps exactly the records none of whose characters is
    encoded as out of alphabet: nSeqs is their number.  Without a focus
    sequence no column is dropped (nSites is the length of the sequences)
    and target stays -1. *)
Theorem MSARead_kept {T} `{Numeric T}
    (records : list (string * string)) (options : options_t T)
    (ali : alignment_t T) :
  MSARead records options = Some ali ->
  let nC := String.length (alphabet_string (alphabet options)) in
  nSeqs ali
  = length (filter
              (fun r => Forall (fun c => MSAReadCode c (alphabet options) nC
                                         <> Z.of_nat nC)
                               (list_ascii_of_string (snd r)))
              records)
  /\ (target options = None ->
      nSites ali = first_length records /\ ali_target ali = (-1)%Z).
Proof.
  intros Hread nC.
  destruct (MSARead_result records options ali Hread)
    as (Hrows & _ & _ & _ & Hseqs & Hsites & _ & Htgt & _).
  split.
  - subst nC. rewrite Hseqs. unfold kept_rows, encoded_rows.
    apply length_filter_map. intros r Hr.
    rewrite row_kept_iff.
    + rewrite Forall_map. apply Forall_iff. intros c.
      apply MSAReadCode_in_range_iff.
    + apply (proj1 (Forall_forall _ _) Hrows).
      apply list_elem_of_In. unfold encoded_rows.
      apply (in_map (fun r0 : string * string =>
               map (fun c => MSAReadCode c (alphabet options)
                     (String.length (alphabet_string (alphabet options))))
                   (list_ascii_of_string r0.2))).
      by apply list_elem_of_In.
  - intros Hnone. rewrite Hsites, Htgt.
    unfold reduced_target, site_mask, focus_index. rewrite Hnone. simpl.
    by rewrite filter_repeat_true, repeat_length.
Qed.

Lemma MSARead_kept_witness :
  match MSARead (T := Q) sample_records (default_options INFER_MAP_PLM) with
  | Some ali => nSeqs ali = 2 /\ nSites ali = 4 /\ ali_target ali = (-1)%Z
  | None => False
  end.
Proof.
  destruct (MSARead (T := Q) sample_records (default_options INFER_MAP_PLM))
    as [ali|] eqn:E; [|vm_compute in E; discriminate].
  destruct (MSARead_kept sample_records (default_options INFER_MAP_PLM) ali E)
    as (Hseqs & Hcols).
  split; [|by apply Hcols].
  rewrite Hseqs. vm_compute. reflexivity.
Defined.

(** ** MSARead: the cells of the result *)

Lemma nth_concat_uniform (m : nat) (rows : list (list Z)) (s i : nat) :
  Forall (fun row => length row = m) rows -> s < length rows -> i < m ->
  nth (i + m * s) (concat rows) 0%Z = nth i (nth s rows []) 0%Z.
Proof.
  intros Hall. revert s. induction Hall as [|row rows Hrow Hall IH];
    intros s Hs Hi; [simpl in Hs; lia|].
  destruct s as [|s]; simpl.
  - rewrite Nat.mul_0_r, Nat.add_0_r. apply app_nth1. lia.
  - rewrite app_nth2 by lia.
    replace (i + m * S s - length row) with (i + m * s) by lia.
    apply IH; [simpl in Hs; lia|done].
Qed.

Lemma nth_map_in_range {A B} (f : A -> B) (l : list A) (n : nat) (d : A) (e : B) :
  n < length l -> nth n (map f l) e = f (nth n l d).
Proof.
  intros Hn. rewrite (nth_indep _ e (f d)) by (by rewrite length_map).
  apply map_nth.
Qed.

(* seq(s, i) of the result is cell i of the reduced s-th kept row. *)
Lemma MSARead_cell {T} `{Numeric T}
    (records : list (string * string)) (options : options_t T)
    (ali : alignment_t T) (s i : nat) :
  MSARead records options = Some ali ->
  s < nSeqs ali -> i < nSites ali ->
  seqAt ali s i
  = nth i (reduced_row options records (nth s (kept_rows options records) [])) 0%Z.
Proof.
  intros Hread Hs Hi.
  destruct (MSARead_result records options ali Hread)
    as (Hrows & Hmask & _ & _ & Hseqs & Hsites & Hcells & _).
  unfold seqAt. rewrite Hcells.
  rewrite (nth_concat_uniform (nSites ali)); [|  |by rewrite length_map, <- Hseqs|done].
  - f_equal. apply nth_map_in_range. by rewrite <- Hseqs.
  - apply Forall_map, Forall_forall. intros row Hin.
    apply kept_rows_in in Hin. destruct Hin as [Hin _]. rewrite Hsites.
    apply reduced_row_length.
    by rewrite (proj1 (Forall_forall _ _) Hrows row Hin).
Qed.

Lemma filter_take_lookup {A} (P : A -> Prop) `{forall x, Decision (P x)}
    (l : list A) (t : nat) (x : A) :
  l !! t = Some x -> P x ->
  0 < length (filter P (take (S t) l))
  /\ filter P l !! (length (filter P (take (S t) l)) - 1) = Some x.
Proof.
  intros Hx HP.
  assert (filter P l = filter P (take t l) ++ x :: filter P (drop (S t) l)) as Hl.
  { rewrite <- (take_drop_middle l t x Hx) at 1.
    rewrite filter_app, filter_cons. by destruct (decide (P x)). }
  assert (length (filter P (take (S t) l)) = length (filter P (take t l)) + 1)
    as Hlen.
  { rewrite (take_S_r l t x Hx), filter_app, length_app.
    rewrite filter_cons, filter_nil. by destruct (decide (P x)). }
  rewrite Hlen, Hl. split; [lia|].
  apply list_lookup_middle. lia.
Qed.

Lemma select_sites_mask (f : Z -> bool) (row : list Z) :
  Forall (fun c => f c = true) (select_sites (map f row) row).
Proof.
  induction row as [|c row IH]; simpl; [constructor|].
  destruct (f c) eqn:E; [constructor|]; done.
Qed.

Lemma find_target_first (t : string) (names : list string) (s : nat) :
  match find_target t names s with
  | Zneg _ => Forall (fun n => String.prefix t n = false) names
  | k => exists i, k = Z.of_nat (s + i) /\ i < length names
                   /\ String.prefix t (nth i names ""%string) = true
                   /\ forall i', i' < i ->
                        String.prefix t (nth i' names ""%string) = false
  end.
Proof.
  revert s. induction names as [|n names IH]; intros s; simpl; [constructor|].
  destruct (String.prefix t n) eqn:E.
  - assert (exists i, Z.of_nat s = Z.of_nat (s + i) /\ i < S (length names)
              /\ String.prefix t (nth i (n :: names) ""%string) = true
              /\ forall i', i' < i ->
                   String.prefix t (nth i' (n :: names) ""%string) = false) as Hex.
    { exists 0. rewrite Nat.add_0_r. repeat split; [lia|done|]. intros i' Hi'. lia. }
    destruct (Z.of_nat s) eqn:Es; try done. lia.
  - specialize (IH (S s)). destruct (find_target t names (S s)) as [|p|p].
    + destruct IH as (i & Hk & Hi & Hp & Hfirst). exists (S i).
      repeat split; [lia|simpl; lia|done|].
      intros [|i'] Hi'; [done|]. apply Hfirst. lia.
    + destruct IH as (i & Hk & Hi & Hp & Hfirst). exists (S i).
      repeat split; [lia|simpl; lia|done|].
      intros [|i'] Hi'; [done|]. apply Hfirst. lia.
    + by constructor.
Qed.

Lemma focus_index_first {T} (options : options_t T)
    (records : list (string * string)) (t : string) (k : nat) :
  target options = Some t ->
  k < length records ->
  String.prefix t (fst (nth k records (""%string, ""%string))) = true ->
  (forall k', k' < k ->
     String.prefix t (fst (nth k' records (""%string, ""%string))) = false) ->
  focus_index options records = Z.of_nat k.
Proof.
  intros Ht Hk Hp Hfirst. unfold focus_index. rewrite Ht.
  pose proof (find_target_first t (map fst records) 0) as Hfind.
  assert (forall i, nth i (map fst records) ""%string
                    = fst (nth i records (""%string, ""%string))) as Hnth
    by (intros i; apply (map_nth fst records (""%string, ""%string))).
  destruct (find_target t (map fst records) 0) as [|p|p] eqn:E.
  - destruct Hfind as (i & Hi0 & Hi & Hpi & Hfi). rewrite Hnth in Hpi.
    destruct (Nat.lt_trichotomy i k) as [Hlt|[->|Hgt]]; [|lia|].
    + rewrite (Hfirst i Hlt) in Hpi. done.
    + specialize (Hfi k Hgt). rewrite Hnth in Hfi. congruence.
  - destruct Hfind as (i & Hi0 & Hi & Hpi & Hfi). rewrite Hnth in Hpi.
    destruct (Nat.lt_trichotomy i k) as [Hlt|[->|Hgt]]; [|lia|].
    + rewrite (Hfirst i Hlt) in Hpi. done.
    + specialize (Hfi k Hgt). rewrite Hnth in Hfi. congruence.
  - exfalso. rewrite Forall_forall in Hfind.
    assert (String.prefix t (nth k (map fst records) ""%string) = false) as Hno.
    { apply Hfind, list_elem_of_In, nth_In. by rewrite length_map. }
    rewrite Hnth in Hno. congruence.
Qed.

(** X9.  Focus mode with the protein alphabet.  When the first record
    whose name starts with the target has no out-of-alphabet character,
    target designates it in the reduced alignment: its row holds the cells
    of that record at the kept columns, none of which is a gap or a soft
    code (every cell is in [1, nCodes-1]). *)
Theorem MSARead_focus_row {T} `{Numeric T}
    (records : list (string * string)) (options : options_t T)
    (ali : alignment_t T) (t : string) (k : nat) :
  MSARead records options = Some ali ->
  alphabet options = codesAA ->
  target options = Some t ->
  k < length records ->
  String.prefix t (fst (nth k records (""%string, ""%string))) = true ->
  (forall k', k' < k ->
     String.prefix t (fst (nth k' records (""%string, ""%string))) = false) ->
  row_kept options records (nth k (encoded_rows options records) []) = true ->
  (0 <= ali_target ali < Z.of_nat (nSeqs ali))%Z
  /\ forall i, i < nSites ali ->
       seqAt ali (Z.to_nat (ali_target ali)) i
       = nth i (select_sites (site_mask options records)
                             (nth k (encoded_rows options records) [])) 0%Z
       /\ (1 <= seqAt ali (Z.to_nat (ali_target ali)) i < Z.of_nat (nCodes ali))%Z.
Proof.
  intros Hread HAA Ht Hk Hp Hfirst Hkept.
  destruct (MSARead_result records options ali Hread)
    as (Hrows & Hmask & _ & HnC & Hseqs & Hsites & _ & Htgt & _).
  pose proof (focus_index_first options records t k Ht Hk Hp Hfirst) as Hfocus.
  set (rows := encoded_rows options records) in *.
  set (row := nth k rows []) in *.
  assert (length rows = length records) as Hlr
    by (subst rows; unfold encoded_rows; by rewrite length_map).
  assert (rows !! k = Some row) as Hrow.
  { destruct (nth_lookup_or_length rows k []) as [Hx|Hge]; [done|lia]. }
  assert (length row = first_length records) as Hlenrow.
  { apply (proj1 (Forall_forall _ _) Hrows). by eapply list_elem_of_lookup_2. }
  assert (site_mask options records
          = map (siteValid_of true (is_gapreduce (estimatorMAP options))) row)
    as Hsv.
  { unfold site_mask. rewrite Hfocus, HAA.
    destruct (Z.leb_spec 0 (Z.of_nat k)); [|lia]. by rewrite Nat2Z.id. }
  destruct (filter_take_lookup (fun r => row_kept options records r = true)
              rows k row Hrow Hkept) as (Hpos & Hlook).
  assert (Z.to_nat (ali_target ali)
          = length (filter (fun r => row_kept options records r = true)
                      (take (S k) rows)) - 1
          /\ (0 <= ali_target ali)%Z) as (Hidx & Hnonneg).
  { rewrite Htgt. unfold reduced_target. rewrite Hfocus.
    destruct (Z.leb_spec 0 (Z.of_nat k)); [|lia]. rewrite Nat2Z.id.
    fold rows. lia. }
  assert (Z.to_nat (ali_target ali) < nSeqs ali) as Hlt.
  { rewrite Hseqs, Hidx. by eapply lookup_lt_Some. }
  split; [lia|]. intros i Hi.
  rewrite (MSARead_cell records options ali _ i Hread Hlt Hi).
  rewrite Hidx.
  change (filter _ rows) with (kept_rows options records) in Hlook.
  rewrite (nth_lookup_Some _ _ [] row Hlook).
  assert (Forall (fun c => (0 < c < Z.of_nat (nCodes ali))%Z)
            (select_sites (site_mask options records) row)) as Hcells.
  { rewrite Hsv.
    pose proof (select_sites_mask
                  (siteValid_of true (is_gapreduce (estimatorMAP options))) row)
      as Hsel.
    assert (Forall (fun c => code_in_range (nCodes ali) c = true)
              (select_sites
                 (map (siteValid_of true (is_gapreduce (estimatorMAP options))) row)
                 row)) as Hrange.
    { apply select_sites_Forall. rewrite HnC.
      apply (proj1 (row_kept_iff options records row Hlenrow)). done. }
    rewrite Forall_forall in Hsel, Hrange. apply Forall_forall. intros c Hc.
    specialize (Hsel c Hc). specialize (Hrange c Hc).
    apply code_in_range_spec in Hrange. unfold siteValid_of in Hsel.
    simpl in Hsel.
    destruct (Z.ltb_spec c 0), (Z.eqb_spec c 0); try done; lia. }
  assert (reduced_row options records row
          = select_sites (site_mask options records) row) as Hred.
  { unfold reduced_row. cbv zeta. rewrite HAA. simpl.
    rewrite <- (map_id (select_sites _ row)) at 2.
    apply map_ext_Forall. eapply Forall_impl; [exact Hcells|].
    intros c Hc. simpl in Hc. unfold shift_code.
    destruct (Z.ltb_spec c 0); [lia|done]. }
  rewrite Hred. split; [done|].
  assert (i < length (select_sites (site_mask options records) row)) as Hil.
  { rewrite <- Hred, reduced_row_length, <- Hsites; [done|].
    by rewrite Hlenrow. }
  rewrite Forall_forall in Hcells.
  assert (0 < nth i (select_sites (site_mask options records) row) 0
          < Z.of_nat (nCodes ali))%Z
    by (apply Hcells, list_elem_of_In, nth_In, Hil).
  lia.
Qed.

Lemma MSARead_focus_row_witness :
  match MSARead (T := Q) sample_records (focus_options "s3") with
  | Some ali =>
      (0 <= ali_target ali < Z.of_nat (nSeqs ali))%Z
      /\ forall i, i < nSites ali ->
           seqAt ali (Z.to_nat (ali_target ali)) i
           = nth i (select_sites (site_mask (focus_options (T := Q) "s3")
                                            sample_records)
                                 (nth 2 (encoded_rows (focus_options (T := Q) "s3")
                                                      sample_records) [])) 0%Z
           /\ (1 <= seqAt ali (Z.to_nat (ali_target ali)) i
               < Z.of_nat (nCodes ali))%Z
  | None => False
  end.
Proof.
  destruct (MSARead (T := Q) sample_records (focus_options "s3"))
    as [ali|] eqn:E; [|vm_compute in E; discriminate].
  apply (MSARead_focus_row sample_records (focus_options "s3") ali "s3" 2 E).
  - reflexivity.
  - reflexivity.
  - simpl. lia.
  - reflexivity.
  - intros k' Hk'. destruct k' as [|[|k']]; [reflexivity|reflexivity|lia].
  - reflexivity.
Defined.

Lemma decode_shifted (c : ascii) (alphabet : alphabet_t) :
  2 <= String.length (alphabet_string alphabet) ->
  let nC := String.length (alphabet_string alphabet) in
  MSAReadCode c alphabet nC <> Z.of_nat nC ->
  alphabet_at (alphabet_string alphabet)
    (Z.to_nat (shift_code nC (MSAReadCode c alphabet nC)))
  = toupper (lookup_char alphabet c).
Proof.
  intros Hlen nC. rewrite MSAReadCode_unfold. cbv zeta.
  set (a := alphabet_string alphabet). set (c' := lookup_char alphabet c).
  pose proof (find_code_0 (toupper c') a nC) as (Hk & Hbefore & Hat).
  set (k := find_code (toupper c') a nC nC 0) in *.
  unfold shift_code.
  destruct (Ascii.eqb_spec (toupper c') (alphabet_at a k)) as [Eu|Eu].
  - rewrite andb_true_r, andb_false_r. intros _.
    destruct (negb _).
    + destruct (Z.ltb_spec (Z.of_nat k - Z.of_nat nC) 0); [|lia].
      replace (Z.of_nat k - Z.of_nat nC + Z.of_nat nC)%Z with (Z.of_nat k) by lia.
      by rewrite Nat2Z.id.
    + destruct (Z.ltb_spec (Z.of_nat k) 0); [lia|]. by rewrite Nat2Z.id.
  - rewrite andb_false_r, andb_true_r.
    destruct (Nat.ltb_spec 0 k) as [Hpos|Hzero]; [done|].
    intros _. exfalso. apply Eu. symmetry. apply Hat. lia.
Qed.

(** X10.  Round trip through the loader.  With the protein alphabet, no
    focus sequence and no record dropped, the symbol of the alphabet at
    seq(s, i) is the upper case of character i of record s of the file
    ('.' read as '-'). *)
Theorem MSARead_decode {T} `{Numeric T}
    (records : list (string * string)) (options : options_t T)
    (ali : alignment_t T) (s i : nat) :
  MSARead records options = Some ali ->
  alphabet options = codesAA ->
  target options = None ->
  nSeqs ali = length records ->
  s < nSeqs ali -> i < nSites ali ->
  alphabet_at (alphabet_string codesAA) (Z.to_nat (seqAt ali s i))
  = toupper (lookup_char codesAA
               (nth i (list_ascii_of_string
                         (snd (nth s records (""%string, ""%string))))
                    Ascii.zero)).
Proof.
  intros Hread HAA Hnone Hall Hs Hi.
  destruct (MSARead_result records options ali Hread)
    as (Hrows & _ & _ & _ & Hseqs & Hsites & _).
  rewrite (MSARead_cell records options ali s i Hread Hs Hi).
  set (rows := encoded_rows options records) in *.
  assert (length rows = length records) as Hlr
    by (subst rows; unfold encoded_rows; by rewrite length_map).
  assert (kept_rows options records = rows) as Hkept.
  { unfold kept_rows. fold rows. apply filter_Forall_id.
    apply (filter_length_Forall (fun row => row_kept options records row = true)).
    change (length (kept_rows options records) = length rows). lia. }
  assert (site_mask options records = repeat true (first_length records)) as Hmask.
  { unfold site_mask, focus_index. by rewrite Hnone. }
  rewrite Hmask, filter_repeat_true, repeat_length in Hsites.
  rewrite Hkept.
  set (chars := list_ascii_of_string (nth s records (""%string, ""%string)).2).
  assert (nth s rows []
          = map (fun c => MSAReadCode c codesAA 21) chars) as Hrow.
  { subst rows chars. unfold encoded_rows. rewrite HAA.
    change (String.length (alphabet_string codesAA)) with 21.
    apply (nth_map_in_range
             (fun r : string * string =>
                map (fun c => MSAReadCode c codesAA 21)
                    (list_ascii_of_string r.2))). lia. }
  assert (length chars = first_length records) as Hlen.
  { rewrite <- (proj1 (Forall_forall _ _) Hrows (nth s rows [])).
    - by rewrite Hrow, length_map.
    - apply list_elem_of_In, nth_In. lia. }
  assert (reduced_row options records (nth s rows [])
          = map (shift_code 21) (nth s rows [])) as Hred.
  { unfold reduced_row. cbv zeta. rewrite HAA, Hmask. simpl. f_equal.
    apply select_sites_all.
    - clear. induction (first_length records); simpl; by constructor.
    - by rewrite repeat_length, Hrow, length_map. }
  rewrite Hred, Hrow.
  rewrite (nth_map_in_range _ _ i 0%Z) by (rewrite length_map; lia).
  rewrite (nth_map_in_range _ _ i Ascii.zero) by lia.
  apply (decode_shifted _ codesAA); [simpl; lia|].
  (* the row is kept: none of its codes is the out-of-alphabet code *)
  assert (row_kept options records (nth s rows []) = true) as Hk.
  { assert (nth s rows [] ∈ kept_rows options records) as Hin
      by (rewrite Hkept; apply list_elem_of_In, nth_In; lia).
    apply kept_rows_in in Hin. tauto. }
  assert (length (nth s rows []) = first_length records) as Hlenrow
    by (by rewrite Hrow, length_map).
  apply (proj1 (row_kept_iff options records _ Hlenrow)) in Hk.
  rewrite HAA, Hrow in Hk. apply Forall_map in Hk.
  apply MSAReadCode_in_range_iff.
  apply (proj1 (Forall_forall _ _) Hk).
  apply list_elem_of_In, nth_In. lia.
Qed.

Lemma MSARead_decode_witness :
  match MSARead (T := Q) gap_column_records (default_options INFER_MAP_PLM) with
  | Some ali =>
      alphabet_at (alphabet_string codesAA) (Z.to_nat (seqAt ali 1 0)) = "C"%char
  | None => False
  end.
Proof.
  destruct (MSARead (T := Q) gap_column_records (default_options INFER_MAP_PLM))
    as [ali|] eqn:E; [|vm_compute in E; discriminate].
  assert (nSeqs ali = 2 /\ nSites ali = 2) as [Hn Hm]
    by (vm_compute in E; injection E as <-; split; reflexivity).
  apply (MSARead_decode gap_column_records (default_options INFER_MAP_PLM)
           ali 1 0 E); try reflexivity; try lia.
  exact Hn.
Defined.

(** ** MSAReweightSequences: what the weights depend on *)

Lemma sum_range_le f g lo hi :
  (forall k, lo <= k < hi -> f k <= g k) -> sum_range f lo hi <= sum_range g lo hi.
Proof.
  intros Hle. induction hi as [|hi IH].
  - rewrite !sum_range_nil by lia. lia.
  - destruct (decide (lo <= hi)) as [Hlo|Hgt].
    + rewrite (sum_range_split f lo hi (S hi)), (sum_range_split g lo hi (S hi))
        by lia.
      rewrite !sum_range_one.
      assert (sum_range f lo hi <= sum_range g lo hi)
        by (apply IH; intros; apply Hle; lia).
      assert (f hi <= g hi) by (apply Hle; lia). lia.
    + rewrite !sum_range_nil by lia. lia.
Qed.

Lemma sum_range_const c lo hi : sum_range (fun _ => c) lo hi = c * (hi - lo).
Proof.
  induction hi as [|hi IH].
  - rewrite sum_range_nil by lia. lia.
  - destruct (decide (lo <= hi)) as [Hlo|Hgt].
    + rewrite (sum_range_split _ lo hi (S hi)), sum_range_one, IH by lia. nia.
    + rewrite sum_range_nil by lia. nia.
Qed.

(* The count over the others and the count over all indices differ by
   the term of the index itself. *)
Lemma others_total (P : nat -> nat -> bool) n x :
  x < n ->
  others P n x + Nat.b2n (P x x) = sum_range (fun t => Nat.b2n (P x t)) 0 n.
Proof.
  intros Hx. unfold others.
  set (f := fun t => Nat.b2n (negb (x =? t) && P x t)).
  set (g := fun t => Nat.b2n (P x t)).
  rewrite (sum_range_split f 0 x n), (sum_range_split f x (S x) n) by lia.
  rewrite (sum_range_split g 0 x n), (sum_range_split g x (S x) n) by lia.
  rewrite !sum_range_one.
  rewrite (sum_range_ext f g 0 x), (sum_range_ext f g (S x) n).
  - unfold f, g. rewrite Nat.eqb_refl. simpl. lia.
  - intros k Hk. unfold f, g. destruct (Nat.eqb_spec x k); [lia|done].
  - intros k Hk. unfold f, g. destruct (Nat.eqb_spec x k); [lia|done].
Qed.

Lemma others_le (P : nat -> nat -> bool) n x : x < n -> others P n x <= n - 1.
Proof.
  intros Hx. unfold others.
  set (f := fun t => Nat.b2n (negb (x =? t) && P x t)).
  rewrite (sum_range_split f 0 x n), (sum_range_split f x (S x) n) by lia.
  rewrite sum_range_one.
  assert (forall k, f k <= 1) as Hf
    by (intros k; unfold f; destruct (negb (x =? k) && P x k); simpl; lia).
  pose proof (sum_range_le f (fun _ => 1) 0 x (fun k _ => Hf k)) as H1.
  pose proof (sum_range_le f (fun _ => 1) (S x) n (fun k _ => Hf k)) as H2.
  rewrite sum_range_const in H1, H2.
  assert (f x = 0) as -> by (unfold f; by rewrite Nat.eqb_refl).
  lia.
Qed.

Lemma others_mono (P P' : nat -> nat -> bool) n x :
  (forall t, t < n -> t <> x -> P x t = true -> P' x t = true) ->
  others P n x <= others P' n x.
Proof.
  intros Himp. unfold others. apply sum_range_le. intros t Ht.
  destruct (Nat.eqb_spec x t) as [->|Hne]; simpl; [lia|].
  destruct (P x t) eqn:E; simpl; [|lia].
  rewrite Himp by (done || lia). simpl. lia.
Qed.

Lemma others_none (P : nat -> nat -> bool) n x :
  (forall t, t < n -> t <> x -> P x t = false) -> others P n x = 0.
Proof.
  intros Hnone. unfold others. apply sum_range_zero. intros t Ht.
  destruct (Nat.eqb_spec x t) as [->|Hne]; simpl; [done|].
  by rewrite Hnone by (done || lia).
Qed.

Lemma others_all (P : nat -> nat -> bool) n x :
  x < n -> (forall t, t < n -> P x t = true) -> others P n x = n - 1.
Proof.
  intros Hx Hall. pose proof (others_total P n x Hx) as Htot.
  rewrite (sum_range_ext _ (fun _ => 1)) in Htot
    by (intros t Ht; rewrite Hall by lia; done).
  rewrite sum_range_const, Hall in Htot by done. simpl in Htot. lia.
Qed.

(* Reweighting reads the sequences, the dimensions and nothing else: the
   weights and nEff that the alignment holds are overwritten. *)
Lemma reweight_ext {T} `{Numeric T} (openmp : bool)
    (ali1 ali2 : alignment_t T) (th sc : T) :
  ali_alphabet ali1 = ali_alphabet ali2 -> nSeqs ali1 = nSeqs ali2 ->
  nSites ali1 = nSites ali2 -> nCodes ali1 = nCodes ali2 ->
  names ali1 = names ali2 -> sequences ali1 = sequences ali2 ->
  ali_target ali1 = ali_target ali2 ->
  fi ali1 = fi ali2 -> fij ali1 = fij ali2 ->
  gapi ali1 = gapi ali2 -> ungapij ali1 = ungapij ali2 ->
  for_loop 0 (nSeqs ali1) (fun i w => <[i := none]> w) (weights ali1)
  = for_loop 0 (nSeqs ali2) (fun i w => <[i := none]> w) (weights ali2) ->
  MSAReweightSequences openmp ali1 th sc = MSAReweightSequences openmp ali2 th sc.
Proof.
  destruct ali1, ali2.
  cbn [ali_alphabet nSeqs nSites nCodes names sequences ali_target weights
       fi fij gapi ungapij].
  intros -> -> -> -> -> -> -> -> -> -> -> Hinit.
  unfold MSAReweightSequences.
  cbn [ali_alphabet nSeqs nSites nCodes names sequences ali_target weights
       fi fij gapi ungapij].
  rewrite Hinit. reflexivity.
Qed.

(** X11.  Reweighting overwrites whatever weights the alignment held:
    reweighting an alignment that was already reweighted, with any other
    theta, scale and loop nest, gives the same alignment as reweighting the
    original one.  This holds in every arithmetic. *)
Theorem reweight_overwrites {T} `{Numeric T} (openmp openmp' : bool)
    (ali : alignment_t T) (th sc th' sc' : T) :
  wf_weights ali ->
  MSAReweightSequences openmp (MSAReweightSequences openmp' ali th' sc') th sc
  = MSAReweightSequences openmp ali th sc.
Proof.
  intros Hwf. apply reweight_ext; try reflexivity.
  rewrite (init_weights (MSAReweightSequences openmp' ali th' sc')
             (reweight_length openmp' ali th' sc' Hwf)).
  by rewrite (init_weights ali Hwf).
Qed.

Lemma reweight_overwrites_witness :
  MSAReweightSequences true
    (MSAReweightSequences false twins (3 # 2)%Q (7 # 1)%Q) (1 # 5)%Q 1%Q
  = MSAReweightSequences true twins (1 # 5)%Q 1%Q.
Proof.
  apply (reweight_overwrites true false twins (1 # 5)%Q 1%Q (3 # 2)%Q (7 # 1)%Q).
  reflexivity.
Defined.

Lemma neighbor_count_identical {T} `{Numeric T} (ali : alignment_t T) (th : T) s t :
  s < nSeqs ali -> t < nSeqs ali ->
  (forall n, n < nSites ali -> seqAt ali s n = seqAt ali t n) ->
  neighbor_count ali th s = neighbor_count ali th t.
Proof.
  intros Hs Ht Hrows.
  assert (forall u, identity ali s u = identity ali t u) as Hid.
  { intros u. unfold identity. apply for_loop_ext. intros n id Hn.
    by rewrite Hrows by lia. }
  assert (forall u, is_neighbor ali th s u = is_neighbor ali th t u) as Hnb.
  { intros u. unfold is_neighbor. by rewrite Hid. }
  assert (is_neighbor ali th s s = is_neighbor ali th t t) as Hself.
  { by rewrite (Hnb s), (is_neighbor_sym ali th t s), (Hnb t). }
  unfold neighbor_count.
  pose proof (others_total (is_neighbor ali th) (nSeqs ali) s Hs) as H1.
  pose proof (others_total (is_neighbor ali th) (nSeqs ali) t Ht) as H2.
  rewrite (sum_range_ext _ (fun u => Nat.b2n (is_neighbor ali th t u))) in H1
    by (intros; by rewrite Hnb).
  rewrite Hself in H1. lia.
Qed.

(** X12.  Two sequences with the same row of codes come out of the
    reweighting with the same weight, for every theta and scale, for both
    loop nests and in every arithmetic. *)
Theorem reweight_identical_rows {T} `{Numeric T} (openmp : bool)
    (ali : alignment_t T) (th sc : T) (s t : nat) :
  wf_weights ali -> s < nSeqs ali -> t < nSeqs ali ->
  (forall n, n < nSites ali -> seqAt ali s n = seqAt ali t n) ->
  exists w,
    weights (MSAReweightSequences openmp ali th sc) !! s = Some w
    /\ weights (MSAReweightSequences openmp ali th sc) !! t = Some w.
Proof.
  intros Hwf Hs Ht Hrows. destruct (theta_in_range th) eqn:Hth.
  - eexists. split.
    + by apply reweight_lookup_in_range.
    + rewrite reweight_lookup_in_range by done.
      by rewrite (neighbor_count_identical ali th s t).
  - rewrite reweight_out_of_range by done. eexists.
    split; by apply lookup_replicate_2.
Qed.

Lemma reweight_identical_rows_witness :
  exists w,
    weights (MSAReweightSequences (T := float) false
               (loaded codesAA 2 2 [1; 2; 1; 2]%Z) 0.25%float 1%float) !! 0
    = Some w
    /\ weights (MSAReweightSequences (T := float) false
                  (loaded codesAA 2 2 [1; 2; 1; 2]%Z) 0.25%float 1%float) !! 1
       = Some w.
Proof.
  apply (reweight_identical_rows (T := float) false
           (loaded codesAA 2 2 [1; 2; 1; 2]%Z) 0.25%float 1%float 0 1).
  - reflexivity.
  - simpl. lia.
  - simpl. lia.
  - intros n Hn. destruct n as [|[|n]]; [reflexivity|reflexivity|simpl in Hn; lia].
Defined.

(** ** MSAReweightSequences: the weights as theta varies *)

Lemma Qsum_const (c : Q) lo hi :
  lo <= hi -> (Qsum (fun _ => c) lo hi == inject_Z (Z.of_nat (hi - lo)) * c)%Q.
Proof.
  intros Hle. induction hi as [|hi IH].
  - assert (lo = 0) as -> by lia. rewrite Qsum_nil by lia.
    change (inject_Z (Z.of_nat (0 - 0))) with 0%Q. ring.
  - destruct (decide (lo = S hi)) as [->|Hne].
    + rewrite Qsum_nil, Nat.sub_diag by lia.
      change (inject_Z (Z.of_nat 0)) with 0%Q. ring.
    + rewrite Qsum_S, IH by lia.
      replace (S hi - lo) with (S (hi - lo)) by lia.
      rewrite Nat2Z.inj_succ, <- Z.add_1_r, inject_Z_plus.
      change (inject_Z 1) with 1%Q. ring.
Qed.

Lemma is_neighbor_Q (ali : alignment_t Q) (th : Q) s t :
  is_neighbor ali th s t = true
  <-> ((1 - th) * inject_Z (Z.of_nat (nSites ali))
       <= inject_Z (Z.of_nat (identity ali s t)))%Q.
Proof.
  unfold is_neighbor. cbn [nleb nmul nsub none nnat nlit Q_numeric].
  change (inject_Z 1) with 1%Q. apply Qle_bool_iff.
Qed.

Lemma identity_le {T} (ali : alignment_t T) s t : identity ali s t <= nSites ali.
Proof.
  unfold identity. rewrite for_loop_count.
  etransitivity; [apply (sum_range_le _ (fun _ => 1))|].
  - intros n _. destruct (_ =? _)%Z; lia.
  - rewrite sum_range_const. lia.
Qed.

Lemma identity_lt {T} (ali : alignment_t T) s t n :
  n < nSites ali -> seqAt ali s n <> seqAt ali t n ->
  identity ali s t < nSites ali.
Proof.
  intros Hn Hne. unfold identity. rewrite for_loop_count.
  set (g := fun n => if (seqAt ali s n =? seqAt ali t n)%Z then 1 else 0).
  rewrite (sum_range_split g 0 n (nSites ali)),
    (sum_range_split g n (S n) (nSites ali)) by lia.
  rewrite sum_range_one.
  assert (forall k, g k <= 1) as Hg
    by (intros k; unfold g; destruct (_ =? _)%Z; lia).
  pose proof (sum_range_le g (fun _ => 1) 0 n (fun k _ => Hg k)) as H1.
  pose proof (sum_range_le g (fun _ => 1) (S n) (nSites ali) (fun k _ => Hg k))
    as H2.
  rewrite sum_range_const in H1, H2.
  assert (g n = 0) as ->
    by (unfold g; by destruct (Z.eqb_spec (seqAt ali s n) (seqAt ali t n))).
  lia.
Qed.

Lemma identity_full {T} (ali : alignment_t T) s t :
  identity ali s t = nSites ali
  <-> forall n, n < nSites ali -> seqAt ali s n = seqAt ali t n.
Proof.
  split.
  - intros Hid n Hn.
    destruct (Z.eq_dec (seqAt ali s n) (seqAt ali t n)) as [|Hne]; [done|].
    pose proof (identity_lt ali s t n Hn Hne). lia.
  - intros Hall. rewrite identity_spec. by apply spec_identity_all.
Qed.

(* The weight of a sequence after the reweighting, in closed form. *)
Lemma reweight_weightAt_Q (openmp : bool) (ali : alignment_t Q) (th sc : Q) s :
  wf_weights ali -> s < nSeqs ali ->
  (weightAt (weights (MSAReweightSequences openmp ali th sc)) s
   == (if theta_in_range th
       then 1 / (1 + inject_Z (Z.of_nat (neighbor_count ali th s)))
       else 1) * sc)%Q.
Proof.
  intros Hwf Hs. unfold weightAt. destruct (theta_in_range th) eqn:Hth.
  - rewrite (nth_lookup_Some _ s _ _
               (reweight_lookup_in_range openmp ali th sc Hwf s Hth Hs)).
    cbn [nmul ndiv none nlit Q_numeric]. change (inject_Z 1) with 1%Q.
    by rewrite iter_incr_Q.
  - rewrite reweight_out_of_range by done.
    rewrite (nth_lookup_Some _ s _ (nmul none sc))
      by (by apply lookup_replicate_2).
    reflexivity.
Qed.

Lemma reweight_nEff_Qsum (openmp : bool) (ali : alignment_t Q) (th sc : Q) :
  wf_weights ali ->
  (nEff (MSAReweightSequences openmp ali th sc)
   == Qsum (fun s => weightAt (weights (MSAReweightSequences openmp ali th sc)) s)
        0 (nSeqs ali))%Q.
Proof.
  intros Hwf. rewrite reweight_nEff_sum by done.
  rewrite <- (reweight_length openmp ali th sc Hwf).
  symmetry. apply Qsum_weights.
Qed.

Lemma inverse_count_bounds (k n : nat) :
  k <= n - 1 -> 0 < n ->
  (1 / inject_Z (Z.of_nat n) <= 1 / (1 + inject_Z (Z.of_nat k))
   /\ 1 / (1 + inject_Z (Z.of_nat k)) <= 1)%Q.
Proof.
  intros Hk Hn.
  assert (0 <= inject_Z (Z.of_nat k))%Q as Hk0 by apply inject_nat_nonneg.
  assert (1 + inject_Z (Z.of_nat k) <= inject_Z (Z.of_nat n))%Q as Hkn.
  { change 1%Q with (inject_Z 1). rewrite <- inject_Z_plus, <- Zle_Qle. lia. }
  split.
  - apply Qle_shift_div_l; [lra|].
    assert ((1 / inject_Z (Z.of_nat n)) * inject_Z (Z.of_nat n) == 1)%Q as E
      by (field; lra).
    assert (0 < 1 / inject_Z (Z.of_nat n))%Q
      by (apply Qlt_shift_div_l; lra).
    nra.
  - apply Qle_shift_div_r; lra.
Qed.

Lemma inverse_count_antitone (k k' : nat) :
  k <= k' ->
  (1 / (1 + inject_Z (Z.of_nat k')) <= 1 / (1 + inject_Z (Z.of_nat k)))%Q.
Proof.
  intros Hk.
  assert (0 <= inject_Z (Z.of_nat k))%Q as Hk0 by apply inject_nat_nonneg.
  assert (inject_Z (Z.of_nat k) <= inject_Z (Z.of_nat k'))%Q as Hkk
    by (rewrite <- Zle_Qle; lia).
  set (a := inject_Z (Z.of_nat k)) in *. set (b := inject_Z (Z.of_nat k')) in *.
  apply Qle_shift_div_l; [lra|].
  assert ((1 / (1 + b)) * (1 + b) == 1)%Q as E by (field; lra).
  assert (0 < 1 / (1 + b))%Q by (apply Qlt_shift_div_l; lra).
  nra.
Qed.

(** X13.  In exact arithmetic, for an alignment with one weight per
    sequence and a positive scale, every weight of a sequence s < nSeqs
    lies between scale / nSeqs and scale, and nEff between scale and
    nSeqs * scale, whatever theta is: a sequence counts as at least the
    nSeqs-th part of one and at most one. *)
Theorem reweight_bounds
    (openmp : bool) (ali : alignment_t Q) (th sc : Q) (s : nat) :
  wf_weights ali -> (0 < sc)%Q -> s < nSeqs ali ->
  (sc / inject_Z (Z.of_nat (nSeqs ali))
     <= weightAt (weights (MSAReweightSequences openmp ali th sc)) s
   /\ weightAt (weights (MSAReweightSequences openmp ali th sc)) s <= sc
   /\ sc <= nEff (MSAReweightSequences openmp ali th sc)
   /\ nEff (MSAReweightSequences openmp ali th sc)
        <= inject_Z (Z.of_nat (nSeqs ali)) * sc)%Q.
Proof.
  intros Hwf Hsc Hs.
  assert (0 < inject_Z (Z.of_nat (nSeqs ali)))%Q as Hn.
  { change 0%Q with (inject_Z 0). rewrite <- Zlt_Qlt. lia. }
  assert (forall u, u < nSeqs ali ->
    (sc / inject_Z (Z.of_nat (nSeqs ali))
       <= weightAt (weights (MSAReweightSequences openmp ali th sc)) u
     /\ weightAt (weights (MSAReweightSequences openmp ali th sc)) u <= sc)%Q)
    as Hw.
  { intros u Hu. rewrite reweight_weightAt_Q by done.
    assert (sc / inject_Z (Z.of_nat (nSeqs ali))
            == 1 / inject_Z (Z.of_nat (nSeqs ali)) * sc)%Q as -> by (field; lra).
    destruct (theta_in_range th).
    - destruct (inverse_count_bounds (neighbor_count ali th u) (nSeqs ali))
        as [H1 H2]; [by apply others_le|lia|].
      split; nra.
    - assert (1 / inject_Z (Z.of_nat (nSeqs ali)) <= 1)%Q.
      { apply Qle_shift_div_r; [done|].
        change 1%Q with (inject_Z 1) at 1. rewrite Qmult_1_l, <- Zle_Qle. lia. }
      split; nra. }
  split; [by apply Hw|]. split; [by apply Hw|].
  rewrite reweight_nEff_Qsum by done. split.
  - assert (sc == Qsum (fun _ => sc / inject_Z (Z.of_nat (nSeqs ali)))
                    0 (nSeqs ali))%Q as E.
    { rewrite Qsum_const, Nat.sub_0_r by lia. field. lra. }
    rewrite E at 1. apply Qsum_le. intros u Hu. apply Hw. lia.
  - assert (inject_Z (Z.of_nat (nSeqs ali)) * sc
            == Qsum (fun _ => sc) 0 (nSeqs ali))%Q as ->
      by (by rewrite Qsum_const, Nat.sub_0_r by lia).
    apply Qsum_le. intros u Hu. apply Hw. lia.
Qed.

Lemma reweight_bounds_witness :
  (3 / inject_Z 2
     <= weightAt (weights (MSAReweightSequences false twins (1 # 5) 3)) 0
   /\ weightAt (weights (MSAReweightSequences false twins (1 # 5) 3)) 0 <= 3
   /\ 3 <= nEff (MSAReweightSequences false twins (1 # 5) 3)
   /\ nEff (MSAReweightSequences false twins (1 # 5) 3) <= inject_Z 2 * 3)%Q.
Proof.
  apply (reweight_bounds false twins (1 # 5)%Q 3%Q 0).
  - reflexivity.
  - reflexivity.
  - simpl. lia.
Defined.

(** X14.  Raising theta never raises a weight: for 0 <= theta <= theta' <= 1
    and a non-negative scale, every sequence weighs at most as much under
    theta' as under theta, and so does nEff. *)
Theorem reweight_antitone_theta
    (openmp : bool) (ali : alignment_t Q) (th th' sc : Q) (s : nat) :
  wf_weights ali -> (0 <= th)%Q -> (th <= th')%Q -> (th' <= 1)%Q ->
  (0 <= sc)%Q -> s < nSeqs ali ->
  (weightAt (weights (MSAReweightSequences openmp ali th' sc)) s
     <= weightAt (weights (MSAReweightSequences openmp ali th sc)) s
   /\ nEff (MSAReweightSequences openmp ali th' sc)
        <= nEff (MSAReweightSequences openmp ali th sc))%Q.
Proof.
  intros Hwf H0 Hle H1 Hsc Hs.
  assert (theta_in_range th = true) as Hth by (apply theta_in_range_Q; lra).
  assert (theta_in_range th' = true) as Hth' by (apply theta_in_range_Q; lra).
  assert (forall u, u < nSeqs ali ->
    (weightAt (weights (MSAReweightSequences openmp ali th' sc)) u
       <= weightAt (weights (MSAReweightSequences openmp ali th sc)) u)%Q) as Hw.
  { intros u Hu. rewrite !reweight_weightAt_Q by done. rewrite Hth, Hth'.
    assert (neighbor_count ali th u <= neighbor_count ali th' u) as Hcount.
    { apply others_mono. intros t _ _. rewrite !is_neighbor_Q.
      pose proof (inject_nat_nonneg (nSites ali)). intros Hnb. nra. }
    pose proof (inverse_count_antitone _ _ Hcount).
    nra. }
  split; [by apply Hw|].
  rewrite !reweight_nEff_Qsum by done.
  apply Qsum_le. intros u Hu. apply Hw. lia.
Qed.

Lemma reweight_antitone_theta_witness :
  (weightAt (weights (MSAReweightSequences true distinct_pair (1 # 2) 1)) 0
     <= weightAt (weights (MSAReweightSequences true distinct_pair (1 # 5) 1)) 0
   /\ nEff (MSAReweightSequences true distinct_pair (1 # 2) 1)
        <= nEff (MSAReweightSequences true distinct_pair (1 # 5) 1))%Q.
Proof.
  apply (reweight_antitone_theta true distinct_pair (1 # 5)%Q (1 # 2)%Q 1%Q 0).
  - reflexivity.
  - unfold Qle. simpl. lia.
  - unfold Qle. simpl. lia.
  - unfold Qle. simpl. lia.
  - unfold Qle. simpl. lia.
  - simpl. lia.
Defined.

(** X15.  With theta = 0 the neighbours of a sequence are exactly the other
    sequences with the same row of codes, so a sequence whose row no other
    sequence repeats keeps the weight scale. *)
Theorem reweight_theta_zero
    (openmp : bool) (ali : alignment_t Q) (sc : Q) (s : nat) :
  wf_weights ali -> s < nSeqs ali ->
  (forall t, is_neighbor ali 0%Q s t = true
             <-> forall n, n < nSites ali -> seqAt ali s n = seqAt ali t n)
  /\ ((forall t, t < nSeqs ali -> t <> s ->
         exists n, n < nSites ali /\ seqAt ali s n <> seqAt ali t n) ->
      (weightAt (weights (MSAReweightSequences openmp ali 0%Q sc)) s == sc)%Q).
Proof.
  intros Hwf Hs.
  assert (forall t, is_neighbor ali 0%Q s t = true
             <-> forall n, n < nSites ali -> seqAt ali s n = seqAt ali t n)
    as Hnb.
  { intros t. rewrite is_neighbor_Q, <- identity_full.
    pose proof (identity_le ali s t) as Hle.
    assert ((1 - 0) * inject_Z (Z.of_nat (nSites ali))
            == inject_Z (Z.of_nat (nSites ali)))%Q as -> by ring.
    rewrite <- Zle_Qle. lia. }
  split; [exact Hnb|].
  intros Hdist. rewrite reweight_weightAt_Q by done.
  assert (theta_in_range 0%Q = true) as -> by reflexivity.
  assert (neighbor_count ali 0%Q s = 0) as ->.
  { apply others_none. intros t Ht Hne.
    destruct (is_neighbor ali 0%Q s t) eqn:E; [|done].
    destruct (Hdist t Ht Hne) as (n & Hn & Hdiff).
    destruct Hdiff. by apply (proj1 (Hnb t)). }
  change (inject_Z (Z.of_nat 0)) with 0%Q. field.
Qed.

Lemma reweight_theta_zero_witness :
  (weightAt (weights (MSAReweightSequences false distinct_pair 0%Q 2%Q)) 0
   == 2)%Q.
Proof.
  apply (reweight_theta_zero false distinct_pair 2%Q 0).
  - reflexivity.
  - simpl. lia.
  - intros t Ht Hne. exists 1.
    destruct t as [|[|t]]; [done| |simpl in Ht; lia].
    split; [simpl; lia|]. vm_compute. discriminate.
Defined.

(** X16.  In exact arithmetic, for an alignment with one weight per
    sequence: with theta = 1 every sequence is a neighbour of every other
    one, the weight of each sequence s < nSeqs is scale / nSeqs and nEff is
    scale, whatever the sequences are. *)
Theorem reweight_theta_one
    (openmp : bool) (ali : alignment_t Q) (sc : Q) (s : nat) :
  wf_weights ali -> s < nSeqs ali ->
  (weightAt (weights (MSAReweightSequences openmp ali 1%Q sc)) s
   == sc / inject_Z (Z.of_nat (nSeqs ali)))%Q
  /\ (nEff (MSAReweightSequences openmp ali 1%Q sc) == sc)%Q.
Proof.
  intros Hwf Hs.
  assert (0 < inject_Z (Z.of_nat (nSeqs ali)))%Q as Hn.
  { change 0%Q with (inject_Z 0). rewrite <- Zlt_Qlt. lia. }
  assert (forall u, u < nSeqs ali ->
    (weightAt (weights (MSAReweightSequences openmp ali 1%Q sc)) u
     == sc / inject_Z (Z.of_nat (nSeqs ali)))%Q) as Hw.
  { intros u Hu. rewrite reweight_weightAt_Q by done.
    assert (theta_in_range 1%Q = true) as -> by reflexivity.
    assert (neighbor_count ali 1%Q u = nSeqs ali - 1) as ->.
    { apply others_all; [done|]. intros t _. apply is_neighbor_Q.
      pose proof (inject_nat_nonneg (identity ali u t)).
      assert ((1 - 1) * inject_Z (Z.of_nat (nSites ali)) == 0)%Q as -> by ring.
      done. }
    assert (1 + inject_Z (Z.of_nat (nSeqs ali - 1))
            == inject_Z (Z.of_nat (nSeqs ali)))%Q as ->.
    { change 1%Q with (inject_Z 1). rewrite <- inject_Z_plus.
      replace (1 + Z.of_nat (nSeqs ali - 1))%Z with (Z.of_nat (nSeqs ali)) by lia.
      reflexivity. }
    field. lra. }
  split; [by apply Hw|].
  rewrite reweight_nEff_Qsum by done.
  rewrite (Qsum_ext _ (fun _ => sc / inject_Z (Z.of_nat (nSeqs ali)))%Q)
    by (intros u Hu; apply Hw; lia).
  rewrite Qsum_const, Nat.sub_0_r by lia. field. lra.
Qed.

Lemma reweight_theta_one_witness :
  (weightAt (weights (MSAReweightSequences false distinct_pair 1%Q 3%Q)) 1
   == 3 / inject_Z 2)%Q
  /\ (nEff (MSAReweightSequences false distinct_pair 1%Q 3%Q) == 3)%Q.
Proof.
  apply (reweight_theta_one false distinct_pair 3%Q 1).
  - reflexivity.
  - simpl. lia.
Defined.

(** ** MSACountMarginals: relations between the statistics *)

Lemma Qsum_indicator_scale (g : nat -> bool) (v : nat -> Q) (c : Q) lo hi :
  (Qsum (fun s => if g s then v s * c else 0) lo hi
   == Qsum (fun s => if g s then v s else 0) lo hi * c)%Q.
Proof.
  rewrite <- Qsum_scale. apply Qsum_ext. intros s _.
  destruct (g s); ring.
Qed.

(* The weights split into those of the sequences with a gap at site i and
   those of the sequences without. *)
Lemma gap_ungapped_split (ali : alignment_t Q) i :
  wf_weights ali ->
  (forall s, s < nSeqs ali -> (0 <= seqAt ali s i)%Z) ->
  (Qsum (fun s => if (seqAt ali s i =? 0)%Z
                  then weightAt (weights ali) s else 0) 0 (nSeqs ali)
   + ungapped_weight ali i == Qsum_list (weights ali))%Q.
Proof.
  intros Hwf Hvalid. unfold ungapped_weight.
  rewrite <- Qsum_add, <- Qsum_weights. unfold wf_weights in Hwf. rewrite Hwf.
  apply Qsum_ext. intros s Hs. specialize (Hvalid s ltac:(lia)).
  destruct (Z.eqb_spec (seqAt ali s i) 0), (Z.ltb_spec 0 (seqAt ali s i));
    try lia; ring.
Qed.

(** X17.  In exact arithmetic, for an alignment with one weight per
    sequence, whose codes are all in 0 .. nCodes-1 and whose nEff is not
    zero (the code divides by it), the gap frequency gapi(i) of the gap-reduced convention at a site
    i < nSites is the sitewise marginal fi(i, 0) of the gap symbol under
    the standard convention, for the same weights. *)
Theorem gapi_is_standard_gap_marginal
    (ali : alignment_t Q) (reduced standard : options_t Q) (i : nat) :
  estimatorMAP reduced = INFER_MAP_PLM_GAPREDUCE ->
  estimatorMAP standard = INFER_MAP_PLM ->
  wf_weights ali -> valid_codes ali ->
  ~ (nEff ali == 0)%Q ->
  i < nSites ali ->
  (gapi (MSACountMarginals ali reduced) i
   == fi (MSACountMarginals ali standard) (i, 0%Z))%Q.
Proof.
  intros Hred Hstd _ _ _ Hi. unfold MSACountMarginals. rewrite Hred, Hstd.
  cbn [gapi fi].
  rewrite count_gapi_cell, count_fi_cell by done.
  symmetry. apply Qsum_indicator_scale.
Qed.

Lemma gapi_is_standard_gap_marginal_witness :
  (gapi (MSACountMarginals twins (default_options INFER_MAP_PLM_GAPREDUCE)) 1%nat
   == fi (MSACountMarginals twins (default_options INFER_MAP_PLM)) (1%nat, 0%Z))%Q.
Proof.
  apply (gapi_is_standard_gap_marginal twins
           (default_options INFER_MAP_PLM_GAPREDUCE)
           (default_options INFER_MAP_PLM) 1).
  - reflexivity.
  - reflexivity.
  - reflexivity.
  - exact twins_valid.
  - vm_compute. discriminate.
  - simpl. lia.
Defined.

(** X18.  In exact arithmetic the two conventions are related by the rule
    of conditional probability.  For an alignment with one weight per
    sequence, with nCodes the length of the alphabet, with every code in
    0 .. nCodes-1 and with nEff the sum of the weights and not zero: at a
    site i < nSites whose ungapped weight total is not zero, and for a
    symbol a below the reduced nCodes, the conditional marginal fi(i, a) of
    the gap-reduced convention times the ungapped frequency 1 - gapi(i) is
    the standard marginal of the same symbol, which the standard convention
    numbers a + 1. *)
Theorem conditional_times_ungapped
    (ali : alignment_t Q) (reduced standard : options_t Q) (i a : nat) :
  estimatorMAP reduced = INFER_MAP_PLM_GAPREDUCE ->
  estimatorMAP standard = INFER_MAP_PLM ->
  wf_weights ali -> loader_nCodes ali -> valid_codes ali ->
  (nEff ali == Qsum_list (weights ali))%Q -> ~ (nEff ali == 0)%Q ->
  i < nSites ali -> a < nCodes (MSACountMarginals ali reduced) ->
  ~ (ungapped_weight ali i == 0)%Q ->
  (fi (MSACountMarginals ali reduced) (i, Z.of_nat a)
     * (1 - gapi (MSACountMarginals ali reduced) i)
   == fi (MSACountMarginals ali standard) (i, (Z.of_nat a + 1)%Z))%Q.
Proof.
  intros Hred Hstd Hwf Hcodes Hvalid Hsum HN Hi.
  unfold MSACountMarginals. rewrite Hred, Hstd. cbn [gapi fi nCodes].
  intros Ha Hnz.
  rewrite normalize_fi_cell by done.
  rewrite count_fi_ungapped_total, count_fi_ungapped_cell by done.
  rewrite count_gapi_cell, count_fi_cell by done.
  rewrite Qsum_indicator_scale.
  cbn [ndiv none nlit Q_numeric]. change (inject_Z 1) with 1%Q.
  pose proof (gap_ungapped_split ali i Hwf) as Hsplit.
  rewrite <- Hsum in Hsplit.
  fold (ungapped_count ali i a).
  set (G := Qsum _ 0 (nSeqs ali)) in *.
  assert (G == nEff ali - ungapped_weight ali i)%Q as ->.
  { rewrite <- Hsplit; [ring|]. intros s Hs. apply Hvalid; done. }
  field. split; done.
Qed.

Lemma conditional_times_ungapped_witness :
  (fi (MSACountMarginals twins (default_options INFER_MAP_PLM_GAPREDUCE))
      (0%nat, Z.of_nat 0)
     * (1 - gapi (MSACountMarginals twins
                    (default_options INFER_MAP_PLM_GAPREDUCE)) 0%nat)
   == fi (MSACountMarginals twins (default_options INFER_MAP_PLM))
        (0%nat, (Z.of_nat 0 + 1)%Z))%Q.
Proof.
  apply (conditional_times_ungapped twins
           (default_options INFER_MAP_PLM_GAPREDUCE)
           (default_options INFER_MAP_PLM) 0 0).
  - reflexivity.
  - reflexivity.
  - reflexivity.
  - reflexivity.
  - exact twins_valid.
  - vm_compute. reflexivity.
  - vm_compute. discriminate.
  - simpl. lia.
  - simpl. lia.
  - vm_compute. discriminate.
Defined.

(** X19.  In exact arithmetic, under the standard convention, for an
    alignment of at least one sequence with one weight per sequence, with
    every code in 0 .. nCodes-1, and with positive weights that sum to
    nEff: at a site i < nSites and for a symbol a in 0 .. nCodes-1 the
    sitewise marginal fi(i, a) lies between 0 and 1, and it is 0 exactly
    when no sequence carries the code a at site i. *)
Theorem marginal_range_and_support
    (ali : alignment_t Q) (options : options_t Q) (i : nat) (a : Z) :
  estimatorMAP options = INFER_MAP_PLM ->
  wf_weights ali -> 0 < nSeqs ali ->
  Forall (fun x => 0 < x)%Q (weights ali) ->
  (nEff ali == Qsum_list (weights ali))%Q ->
  i < nSites ali ->
  valid_codes ali -> (0 <= a < Z.of_nat (nCodes ali))%Z ->
  (0 <= fi (MSACountMarginals ali options) (i, a)
   /\ fi (MSACountMarginals ali options) (i, a) <= 1)%Q
  /\ ((fi (MSACountMarginals ali options) (i, a) == 0)%Q
      <-> forall s, s < nSeqs ali -> seqAt ali s i <> a).
Proof.
  intros Hmode Hwf Hn Hpos Hsum Hi _ _.
  unfold MSACountMarginals. rewrite Hmode. cbn [fi].
  rewrite count_fi_cell, Qsum_indicator_scale by done.
  cbn [ndiv none nlit Q_numeric]. change (inject_Z 1) with 1%Q.
  pose proof (Forall_pos_nonneg _ Hpos) as Hnn.
  assert (0 < nEff ali)%Q as HN.
  { rewrite Hsum. apply Qsum_list_pos; [done|].
    intros Hnil. unfold wf_weights in Hwf. rewrite Hnil in Hwf.
    simpl in Hwf. lia. }
  destruct (Qinv_total _ HN) as [Hz Hone].
  set (z := (1 / nEff ali)%Q) in *.
  set (A := Qsum _ 0 (nSeqs ali)).
  assert (0 <= A)%Q as HA0.
  { apply Qsum_nonneg. intros s _.
    pose proof (weightAt_nonneg (weights ali) s Hnn).
    destruct (_ =? _)%Z; [done|lra]. }
  assert (A <= nEff ali)%Q as HA1.
  { rewrite Hsum, <- Qsum_weights. unfold wf_weights in Hwf. rewrite Hwf.
    apply Qsum_le. intros s _.
    pose proof (weightAt_nonneg (weights ali) s Hnn).
    destruct (_ =? _)%Z; lra. }
  split; [split; nra|].
  split.
  - intros Hzero s Hs Hsa.
    assert (0 < A)%Q.
    { apply (Qsum_pos _ 0 (nSeqs ali) s); [lia| |].
      - intros s' _. pose proof (weightAt_nonneg (weights ali) s' Hnn).
        destruct (_ =? _)%Z; [done|lra].
      - rewrite Hsa, Z.eqb_refl. apply weightAt_pos; [done|].
        unfold wf_weights in Hwf. lia. }
    nra.
  - intros Habsent.
    assert (A == 0)%Q as ->; [|ring].
    apply Qsum_zero. intros s Hs.
    destruct (Z.eqb_spec (seqAt ali s i) a) as [E|E]; [|reflexivity].
    destruct (Habsent s ltac:(lia) E).
Qed.

Lemma marginal_range_and_support_witness :
  (0 <= fi (MSACountMarginals twins (default_options INFER_MAP_PLM)) (0%nat, 1%Z)
   /\ fi (MSACountMarginals twins (default_options INFER_MAP_PLM)) (0%nat, 1%Z) <= 1)%Q
  /\ ((fi (MSACountMarginals twins (default_options INFER_MAP_PLM)) (0%nat, 1%Z)
       == 0)%Q
      <-> forall s, s < nSeqs twins -> seqAt twins s 0 <> 1%Z).
Proof.
  apply (marginal_range_and_support twins (default_options INFER_MAP_PLM) 0 1%Z).
  - reflexivity.
  - reflexivity.
  - simpl. lia.
  - exact twins_positive.
  - vm_compute. reflexivity.
  - simpl. lia.
  - exact twins_valid.
  - change (nCodes twins) with 21. lia.
Defined.

(** ** MSAReweightSequences followed by MSACountMarginals *)

Lemma reweight_scale (openmp : bool) (ali : alignment_t Q) (th sc : Q) s :
  wf_weights ali -> s < nSeqs ali ->
  (weightAt (weights (MSAReweightSequences openmp ali th sc)) s
   == weightAt (weights (MSAReweightSequences openmp ali th 1)) s * sc)%Q.
Proof.
  intros Hwf Hs. rewrite !reweight_weightAt_Q by done. ring.
Qed.

Lemma reweight_nEff_scale (openmp : bool) (ali : alignment_t Q) (th sc : Q) :
  wf_weights ali ->
  (nEff (MSAReweightSequences openmp ali th sc)
   == nEff (MSAReweightSequences openmp ali th 1) * sc)%Q.
Proof.
  intros Hwf. rewrite !reweight_nEff_Qsum by done.
  rewrite <- Qsum_scale. apply Qsum_ext. intros s Hs.
  apply reweight_scale; [done|lia].
Qed.

Lemma reweight_weight_pos (openmp : bool) (ali : alignment_t Q) (th sc : Q) s :
  wf_weights ali -> (0 < sc)%Q -> s < nSeqs ali ->
  (0 < weightAt (weights (MSAReweightSequences openmp ali th sc)) s)%Q.
Proof.
  intros Hwf Hsc Hs. rewrite reweight_weightAt_Q by done.
  destruct (theta_in_range th); [|lra].
  pose proof (inject_nat_nonneg (neighbor_count ali th s)).
  assert (0 < 1 / (1 + inject_Z (Z.of_nat (neighbor_count ali th s))))%Q
    by (apply Qlt_shift_div_l; lra).
  nra.
Qed.

Lemma reweight_nEff_pos (openmp : bool) (ali : alignment_t Q) (th sc : Q) :
  wf_weights ali -> (0 < sc)%Q -> 0 < nSeqs ali ->
  (0 < nEff (MSAReweightSequences openmp ali th sc))%Q.
Proof.
  intros Hwf Hsc Hn. rewrite reweight_nEff_Qsum by done.
  apply (Qsum_pos _ 0 (nSeqs ali) 0); [lia| |].
  - intros s Hs. apply Qlt_le_weak. apply reweight_weight_pos; done || lia.
  - by apply reweight_weight_pos.
Qed.

(** X20.  In exact arithmetic the marginals do not depend on the scale of
    the weights.  For an alignment of at least one sequence with one weight
    per sequence and every code in 0 .. nCodes-1, for every non-zero scale,
    sites i < j < nSites and symbols a, b in 0 .. nCodes-1: counting the
    standard marginals after a reweighting with that scale gives the same
    fi(i, a) and fij(i, j, a, b) as after a reweighting with scale 1, and
    likewise the gapi(i) and ungapij(i, j) of the gap-reduced
    convention. *)
Theorem marginals_scale_invariant
    (openmp : bool) (ali : alignment_t Q) (options : options_t Q)
    (th sc : Q) (i j : nat) (a b : Z) :
  wf_weights ali -> 0 < nSeqs ali -> ~ (sc == 0)%Q -> i < j < nSites ali ->
  valid_codes ali ->
  (0 <= a < Z.of_nat (nCodes ali))%Z -> (0 <= b < Z.of_nat (nCodes ali))%Z ->
  (estimatorMAP options = INFER_MAP_PLM ->
     (fi (MSACountMarginals (MSAReweightSequences openmp ali th sc) options) (i, a)
      == fi (MSACountMarginals (MSAReweightSequences openmp ali th 1) options)
           (i, a))%Q
     /\ (fij (MSACountMarginals (MSAReweightSequences openmp ali th sc) options)
             (i, j, a, b)
         == fij (MSACountMarginals (MSAReweightSequences openmp ali th 1) options)
              (i, j, a, b))%Q)
  /\ (estimatorMAP options = INFER_MAP_PLM_GAPREDUCE ->
     (gapi (MSACountMarginals (MSAReweightSequences openmp ali th sc) options) i
      == gapi (MSACountMarginals (MSAReweightSequences openmp ali th 1) options)
           i)%Q
     /\ (ungapij (MSACountMarginals (MSAReweightSequences openmp ali th sc) options)
                 (i, j)
         == ungapij (MSACountMarginals (MSAReweightSequences openmp ali th 1)
                       options) (i, j))%Q).
Proof.
  intros Hwf Hn Hsc Hij _ _ _.
  pose proof (reweight_nEff_scale openmp ali th sc Hwf) as HN.
  pose proof (reweight_nEff_pos openmp ali th 1%Q Hwf eq_refl Hn) as HN1.
  set (R := MSAReweightSequences openmp ali th sc) in *.
  set (R1 := MSAReweightSequences openmp ali th 1%Q) in *.
  assert (forall s, s < nSeqs ali ->
    (weightAt (weights R) s * (1 / nEff R)
     == weightAt (weights R1) s * (1 / nEff R1))%Q) as Hcell.
  { intros s Hs. unfold R, R1. rewrite (reweight_scale openmp ali th sc s Hwf Hs).
    fold R R1. rewrite HN. field. split; first [done|lra]. }
  assert (forall (g : nat -> bool),
    (Qsum (fun s => if g s then weightAt (weights R) s * (1 / nEff R) else 0)
          0 (nSeqs ali)
     == Qsum (fun s => if g s then weightAt (weights R1) s * (1 / nEff R1) else 0)
          0 (nSeqs ali))%Q) as Hsum.
  { intros g. apply Qsum_ext. intros s Hs.
    destruct (g s); [|reflexivity]. apply Hcell. lia. }
  split; intros Hmode; unfold MSACountMarginals; rewrite Hmode;
    cbn [fi fij gapi ungapij ndiv none nlit Q_numeric];
    change (inject_Z 1) with 1%Q.
  - split.
    + rewrite (count_fi_cell R), (count_fi_cell R1)
        by (change (i < nSites ali); lia).
      apply (Hsum (fun s => (seqAt ali s i =? a)%Z)).
    + rewrite (count_fij_cell R), (count_fij_cell R1)
        by (change (i < j < nSites ali); lia).
      apply (Hsum (fun s => (seqAt ali s i =? a)%Z && (seqAt ali s j =? b)%Z)).
  - split.
    + rewrite (count_gapi_cell R), (count_gapi_cell R1)
        by (change (i < nSites ali); lia).
      rewrite <- !Qsum_indicator_scale.
      apply (Hsum (fun s => (seqAt ali s i =? 0)%Z)).
    + rewrite (count_ungapij_cell R), (count_ungapij_cell R1)
        by (change (i < j < nSites ali); lia).
      rewrite <- !Qsum_indicator_scale.
      apply (Hsum (fun s => (0 <? seqAt ali s i)%Z && (0 <? seqAt ali s j)%Z)).
Qed.

Lemma marginals_scale_invariant_witness :
  (fi (MSACountMarginals (MSAReweightSequences false twins (1 # 5) 3)
         (default_options INFER_MAP_PLM)) (0%nat, 1%Z)
   == fi (MSACountMarginals (MSAReweightSequences false twins (1 # 5) 1)
            (default_options INFER_MAP_PLM)) (0%nat, 1%Z))%Q
  /\ (fij (MSACountMarginals (MSAReweightSequences false twins (1 # 5) 3)
             (default_options INFER_MAP_PLM)) (0%nat, 1%nat, 1%Z, 2%Z)
      == fij (MSACountMarginals (MSAReweightSequences false twins (1 # 5) 1)
                (default_options INFER_MAP_PLM)) (0%nat, 1%nat, 1%Z, 2%Z))%Q.
Proof.
  apply (marginals_scale_invariant false twins (default_options INFER_MAP_PLM)
           (1 # 5)%Q 3%Q 0 1 1%Z 2%Z).
  - reflexivity.
  - simpl. lia.
  - vm_compute. discriminate.
  - simpl. lia.
  - exact twins_valid.
  - change (nCodes twins) with 21. lia.
  - change (nCodes twins) with 21. lia.
  - reflexivity.
Defined.

(** ** main: from the file to the marginals *)






(** ** MSARead: the region of the focus sequence *)

Lemma alphabet_at_app_l (s1 s2 : string) k :
  k < String.length s1 -> alphabet_at (s1 ++ s2) k = alphabet_at s1 k.
Proof.
  intros Hk. unfold alphabet_at. by rewrite <- append_correct1.
Qed.

Lemma alphabet_at_app_r (s1 s2 : string) k :
  alphabet_at (s1 ++ s2) (String.length s1 + k) = alphabet_at s2 k.
Proof.
  unfold alphabet_at. by rewrite Nat.add_comm, <- append_correct2.
Qed.

Lemma string_length_app (s1 s2 : string) :
  String.length (s1 ++ s2) = String.length s1 + String.length s2.
Proof. induction s1 as [|c s1 IH]; simpl; congruence. Qed.

Lemma length_string_of_list (l : list ascii) :
  String.length (string_of_list_ascii l) = length l.
Proof. induction l as [|c l IH]; simpl; congruence. Qed.

Lemma alphabet_at_list (l : list ascii) k :
  alphabet_at (string_of_list_ascii l) k = nth k l Ascii.zero.
Proof.
  revert k. induction l as [|c l IH]; intros [|k]; try reflexivity.
  apply (IH k).
Qed.

Lemma region_digits_spec (name : string) (regLeft n fuel ix : nat) :
  (forall k, k < n -> isdigit (alphabet_at name (regLeft + k)) = true) ->
  isdigit (alphabet_at name (regLeft + n)) = false ->
  regLeft + n <= String.length name ->
  ix <= n - 1 -> n - 1 - ix <= fuel -> 0 < n ->
  region_digits name regLeft fuel ix = n - 1.
Proof.
  intros Hdig Hend Hlen. revert ix. induction fuel as [|fuel IH]; intros ix Hix Hfuel Hn.
  - simpl. lia.
  - simpl. destruct (decide (ix = n - 1)) as [->|Hne].
    + replace (regLeft + (n - 1) + 1) with (regLeft + n) by lia.
      by rewrite Hend, andb_false_r.
    + replace (regLeft + ix + 1) with (regLeft + S ix) by lia.
      rewrite Hdig by lia.
      destruct (Nat.ltb_spec (regLeft + ix) (String.length name)); [|lia].
      simpl. apply IH; lia.
Qed.

Lemma decimal_fold (ds : list ascii) (acc : Z) :
  fold_left (fun acc c => (10 * acc + (Z.of_nat (nat_of_ascii c) - 48))%Z) ds acc
  = (acc * 10 ^ Z.of_nat (length ds) + decimal ds)%Z.
Proof.
  unfold decimal. revert acc. induction ds as [|c ds IH]; intros acc.
  - simpl. lia.
  - cbn [fold_left length]. rewrite IH, (IH (10 * 0 + _)%Z).
    rewrite Nat2Z.inj_succ, Z.pow_succ_r by lia. ring.
Qed.

Lemma decimal_cons (c : ascii) (ds : list ascii) :
  decimal (c :: ds)
  = ((Z.of_nat (nat_of_ascii c) - 48) * 10 ^ Z.of_nat (length ds) + decimal ds)%Z.
Proof.
  unfold decimal at 1. cbn [fold_left]. rewrite decimal_fold. ring.
Qed.

Lemma region_start_spec (name : string) (regLeft : nat) (ds : list ascii) :
  ds <> [] ->
  (forall k, k < length ds -> alphabet_at name (regLeft + k) = nth k ds Ascii.zero) ->
  region_start name regLeft (length ds - 1)
  = ((decimal ds - 1)%Z, (10 ^ Z.of_nat (length ds))%Z).
Proof.
  intros Hne Hat. unfold region_start.
  set (n := length ds).
  assert (0 < n) as Hn by (subst n; destruct ds; [done|simpl; lia]).
  replace (S (n - 1)) with n by lia.
  replace (decimal ds) with (decimal (drop (n - n) ds))
    by (by rewrite Nat.sub_diag).
  apply (for_loop_inv (fun k st =>
           st = ((decimal (drop (n - k) ds) - 1)%Z, (10 ^ Z.of_nat k)%Z)));
    [lia| |].
  - rewrite Nat.sub_0_r. subst n. by rewrite drop_all.
  - intros k st Hk ->. cbn [fst snd].
    rewrite Hat by (fold n; lia).
    destruct (lookup_lt_is_Some_2 ds (n - 1 - k)) as [c Hc]; [fold n; lia|].
    replace (n - S k) with (n - 1 - k) by lia.
    rewrite (drop_S ds c (n - 1 - k) Hc).
    replace (S (n - 1 - k)) with (n - k) by lia.
    rewrite decimal_cons, length_drop. fold n.
    replace (n - (n - k)) with k by lia.
    rewrite (nth_lookup_Some ds (n - 1 - k) _ c Hc).
    rewrite Nat2Z.inj_succ, Z.pow_succ_r by lia. f_equal; ring.
Qed.

Lemma isdigit_value (c : ascii) :
  isdigit c = true -> (0 <= Z.of_nat (nat_of_ascii c) - 48 <= 9)%Z.
Proof.
  unfold isdigit. cbv zeta. rewrite andb_true_iff, !Nat.leb_le. lia.
Qed.

Lemma decimal_bound (ds : list ascii) :
  Forall (fun c => isdigit c = true) ds ->
  (0 <= decimal ds < 10 ^ Z.of_nat (length ds))%Z.
Proof.
  induction 1 as [|c ds Hc Hds IH].
  - unfold decimal. simpl. lia.
  - rewrite decimal_cons. apply isdigit_value in Hc.
    change (length (c :: ds)) with (S (length ds)).
    rewrite Nat2Z.inj_succ, Z.pow_succ_r by lia. nia.
Qed.

(** X22.  The region of the focus sequence.  When the name of the focus
    sequence is the target followed by '/', a start of one to nine decimal
    digits and anything that does not begin with a digit, leftOffset is the
    value of the start minus one, a number below 10^9 that an int holds. *)
Theorem parse_region_decimal (t : string) (ds : list ascii) (rest : string) :
  ds <> [] -> Forall (fun c => isdigit c = true) ds -> length ds <= 9 ->
  isdigit (alphabet_at rest 0) = false ->
  parse_region t (t ++ "/" ++ string_of_list_ascii ds ++ rest)
  = (decimal ds - 1)%Z
  /\ (0 <= decimal ds < 10 ^ 9)%Z.
Proof.
  intros Hne Hdig Hnine Hrest. split; cycle 1.
  { pose proof (decimal_bound ds Hdig) as [H0 H1]. split; [done|].
    eapply Z.lt_le_trans; [exact H1|]. apply Z.pow_le_mono_r; lia. }
  unfold parse_region.
  set (name := (t ++ "/" ++ string_of_list_ascii ds ++ rest)%string).
  assert (0 < length ds) as Hn by (destruct ds; [done|simpl; lia]).
  assert (String.length name
          = String.length t + 1 + length ds + String.length rest) as Hlen.
  { subst name. rewrite !string_length_app, length_string_of_list. simpl. lia. }
  assert (alphabet_at name (String.length t) = "/"%char) as Hslash.
  { pose proof (alphabet_at_app_r t
                  ("/" ++ string_of_list_ascii ds ++ rest)%string 0) as H0.
    by rewrite Nat.add_0_r in H0. }
  assert (forall k, alphabet_at name (String.length t + 1 + k)
                    = alphabet_at (string_of_list_ascii ds ++ rest) k) as Hat.
  { intros k. subst name.
    replace (String.length t + 1 + k) with (String.length t + S k) by lia.
    by rewrite alphabet_at_app_r. }
  assert (forall k, k < length ds ->
            alphabet_at name (String.length t + 1 + k) = nth k ds Ascii.zero)
    as Hin.
  { intros k Hk. rewrite Hat, alphabet_at_app_l, alphabet_at_list;
      [done|by rewrite length_string_of_list]. }
  assert (forall k, k < length ds -> isdigit (nth k ds Ascii.zero) = true) as Hd.
  { intros k Hk. apply (proj1 (Forall_forall _ _) Hdig).
    apply list_elem_of_In, nth_In. lia. }
  rewrite Hslash. destruct (Nat.ltb_spec (String.length t + 1) (String.length name));
    [|lia].
  rewrite Ascii.eqb_refl. cbn [andb].
  pose proof (Hin 0 Hn) as H0. rewrite Nat.add_0_r in H0.
  rewrite H0, Hd by lia.
  rewrite (region_digits_spec name (String.length t + 1) (length ds)).
  - by rewrite region_start_spec.
  - intros k Hk. rewrite Hin by done. by apply Hd.
  - rewrite Hat.
    pose proof (alphabet_at_app_r (string_of_list_ascii ds) rest 0) as H1.
    rewrite length_string_of_list, Nat.add_0_r in H1. by rewrite H1.
  - lia.
  - lia.
  - lia.
  - lia.
Qed.

Lemma parse_region_decimal_witness :
  parse_region "s3" ("s3" ++ "/" ++ string_of_list_ascii ["5"%char] ++ "-9")
  = (decimal ["5"%char] - 1)%Z
  /\ (0 <= decimal ["5"%char] < 10 ^ 9)%Z.
Proof.
  apply (parse_region_decimal "s3" ["5"%char] "-9").
  - discriminate.
  - repeat constructor.
  - simpl. lia.
  - reflexivity.
Defined.

(** ** MSARead: the offsets of the kept columns *)

Lemma kept_before_S (siteValid : list bool) (c : nat) (v : bool) :
  siteValid !! c = Some v ->
  kept_before siteValid (S c)
  = kept_before siteValid c + (if v then 1 else 0).
Proof.
  intros Hv. unfold kept_before.
  rewrite (take_S_r siteValid c v Hv), filter_app, length_app.
  destruct v; reflexivity.
Qed.

Lemma kept_before_mono (siteValid : list bool) (c c' : nat) :
  c <= c' -> kept_before siteValid c <= kept_before siteValid c'.
Proof.
  intros Hle. unfold kept_before.
  replace c' with (c + (c' - c)) by lia.
  rewrite <- take_take_drop, filter_app, length_app. lia.
Qed.

Lemma kept_before_all (siteValid : list bool) :
  kept_before siteValid (length siteValid)
  = length (filter (fun v => v = true) siteValid).
Proof. unfold kept_before. by rewrite firstn_all. Qed.

(* The cell of a kept column c in the reduced row: its index is the number
   of kept columns before c. *)
Lemma select_sites_nth (siteValid : list bool) (row : list Z) (c : nat) (d : Z) :
  length siteValid <= length row ->
  nth c siteValid false = true ->
  nth (kept_before siteValid c) (select_sites siteValid row) d = nth c row d.
Proof.
  revert row c. induction siteValid as [|v vs IH]; intros row c Hlen Hc.
  - by destruct c.
  - destruct row as [|r row]; [simpl in Hlen; lia|]. simpl in Hlen.
    destruct c as [|c].
    + simpl in Hc. subst v. reflexivity.
    + simpl in Hc. unfold kept_before. cbn [take select_sites nth].
      rewrite filter_cons. destruct v; destruct (decide _); try done;
        cbn [length nth]; apply IH; done || lia.
Qed.

Lemma map_offsets_spec (siteValid : list bool) (leftOffset : Z) :
  let offsets :=
    map_offsets siteValid (length (filter (fun v => v = true) siteValid))
      leftOffset in
  length offsets = length (filter (fun v => v = true) siteValid)
  /\ forall ix, ix < length offsets ->
       exists c, c < length siteValid /\ nth c siteValid false = true
                 /\ kept_before siteValid c = ix
                 /\ offsets !! ix = Some (Z.of_nat c + 1 + leftOffset)%Z.
Proof.
  cbv zeta. unfold map_offsets.
  set (N := length (filter (fun v => v = true) siteValid)).
  set (o0 := for_loop 0 N _ _).
  assert (length o0 = N) as Hlen0.
  { subst o0. apply (for_loop_inv (fun _ o => length o = N)); [lia| |].
    - apply length_replicate.
    - intros i o _ Ho. by rewrite length_insert. }
  pose proof (for_loop_inv (fun i (st : nat * list Z) =>
      st.1 = kept_before siteValid i /\ length st.2 = N
      /\ forall ix, ix < st.1 ->
           exists c, c < i /\ nth c siteValid false = true
                     /\ kept_before siteValid c = ix
                     /\ st.2 !! ix = Some (Z.of_nat c + 1 + leftOffset)%Z)
    0 (length siteValid)
    (fun i st =>
       if nth i siteValid false
       then (S st.1, <[st.1 := (Z.of_nat i + 1 + leftOffset)%Z]> st.2)
       else st) (0, o0)) as Hinv.
  destruct Hinv as (Hfst & Hlen & Hcells); [lia| |  |].
  - cbn [fst snd]. split; [done|]. split; [done|]. intros ix Hix. lia.
  - intros i [ix0 o] Hi (Hfst & Hlen & Hcells). cbn [fst snd] in *.
    destruct (lookup_lt_is_Some_2 siteValid i) as [v Hv]; [lia|].
    rewrite (nth_lookup_Some siteValid i false v Hv).
    pose proof (kept_before_S siteValid i v Hv) as HS.
    destruct v; cbn [fst snd].
    + assert (ix0 < N) as Hroom.
      { pose proof (kept_before_mono siteValid (S i) (length siteValid)
                      ltac:(lia)) as Hm.
        rewrite kept_before_all in Hm. fold N in Hm. lia. }
      split; [lia|]. split; [by rewrite length_insert|].
      intros ix Hix. destruct (decide (ix = ix0)) as [->|Hne].
      * exists i. split; [lia|]. split.
        { by rewrite (nth_lookup_Some siteValid i false true Hv). }
        split; [done|]. apply list_lookup_insert_eq. lia.
      * destruct (Hcells ix) as (c & Hc & Hkept & Hbefore & Hoff); [lia|].
        exists c. split; [lia|]. split; [done|]. split; [done|].
        by rewrite list_lookup_insert_ne.
    + split; [lia|]. split; [done|].
      intros ix Hix. destruct (Hcells ix Hix) as (c & Hc & Hrest).
      exists c. split; [lia|done].
  - rewrite kept_before_all in Hfst. fold N in Hfst.
    split; [done|]. intros ix Hix. apply Hcells. lia.
Qed.

(* The characters that the scan of the region start passes are digits. *)
Lemma region_digits_scanned (name : string) (regLeft fuel ix k : nat) :
  ix < k <= region_digits name regLeft fuel ix ->
  isdigit (alphabet_at name (regLeft + k)) = true.
Proof.
  revert ix. induction fuel as [|fuel IH]; intros ix Hk; simpl in Hk; [lia|].
  destruct ((regLeft + ix <? String.length name)
            && isdigit (alphabet_at name (regLeft + ix + 1))) eqn:E; [|lia].
  destruct (decide (k = S ix)) as [->|Hne].
  - apply andb_true_iff in E. destruct E as [_ E].
    by replace (regLeft + S ix) with (regLeft + ix + 1) by lia.
  - apply (IH (S ix)). lia.
Qed.

Lemma region_start_bound (name : string) (regLeft ix : nat) :
  (forall k, k <= ix -> isdigit (alphabet_at name (regLeft + k)) = true) ->
  ix < 9 ->
  (-1 <= fst (region_start name regLeft ix) < 10 ^ 9)%Z.
Proof.
  intros Hdig Hix.
  set (ds := map (fun k => alphabet_at name (regLeft + k)) (seq 0 (S ix))).
  assert (length ds = S ix) as Hlen
    by (subst ds; by rewrite length_map, length_seq).
  assert (forall k, k < length ds ->
            alphabet_at name (regLeft + k) = nth k ds Ascii.zero) as Hat.
  { intros k Hk. subst ds.
    rewrite (nth_map_in_range (fun k => alphabet_at name (regLeft + k))
               _ k 0 Ascii.zero)
      by (rewrite length_seq; lia).
    rewrite seq_nth by lia. reflexivity. }
  assert (ds <> []) as Hne by (intros E; rewrite E in Hlen; simpl in Hlen; lia).
  pose proof (region_start_spec name regLeft ds Hne Hat) as Hstart.
  rewrite Hlen in Hstart. replace (S ix - 1) with ix in Hstart by lia.
  rewrite Hstart. cbn [fst].
  assert (Forall (fun c => isdigit c = true) ds) as Hall.
  { subst ds. apply Forall_map, Forall_forall. intros k Hk. simpl.
    apply Hdig. apply list_elem_of_In, in_seq in Hk. lia. }
  pose proof (decimal_bound ds Hall) as [H0 H1]. rewrite Hlen in H1.
  assert (10 ^ Z.of_nat (S ix) <= 10 ^ 9)%Z
    by (apply Z.pow_le_mono_r; lia).
  lia.
Qed.

(* With a region start of at most nine digits leftOffset is a number that
   an int holds, and no step of its computation overflows. *)
Lemma parse_region_bound (t name : string) :
  region_digits name (String.length t + 1) (String.length name) 0 < 9 ->
  (-1 <= parse_region t name < 10 ^ 9)%Z.
Proof.
  intros Hscan. unfold parse_region.
  destruct (_ && _); [|lia].
  destruct (isdigit (alphabet_at name (String.length t + 1))) eqn:E0; [|lia].
  apply region_start_bound; [|done].
  intros k Hk. destruct k as [|k].
  - by rewrite Nat.add_0_r.
  - apply (region_digits_scanned name (String.length t + 1)
             (String.length name) 0). lia.
Qed.

Lemma focus_leftOffset_bound {T} (options : options_t T)
    (records : list (string * string)) :
  region_scan options records < 9 ->
  (-1 <= focus_leftOffset options records < 10 ^ 9)%Z.
Proof.
  unfold region_scan, focus_leftOffset.
  destruct (target options) as [t|]; [|lia].
  intros Hscan. destruct (0 <=? focus_index options records)%Z; [|lia].
  by apply parse_region_bound.
Qed.

(** X23.  The offsets of a focus alignment.  When the region start that
    the code scans in the name of the focus sequence has at most nine
    digits and the sequences have at most 10^9 columns (so that every int
    of the computation holds its value): ali->offsets has one entry per
    kept column; entry ix is c + 1 + leftOffset, where c is the column of
    the file that every kept row's cell ix was copied from (and, for the
    protein alphabet, shifted back to upper case); the entries are
    non-negative and below 2^31, and they increase strictly. *)
Theorem offsets_map {T} `{Numeric T}
    (records : list (string * string)) (options : options_t T)
    (ali : alignment_t T) (offsets : list Z) :
  MSARead records options = Some ali ->
  MSARead_offsets options records = Some offsets ->
  region_scan options records < 9 ->
  (Z.of_nat (first_length records) <= 10 ^ 9)%Z ->
  length offsets = nSites ali
  /\ (forall ix, ix < nSites ali ->
        exists c, c < first_length records
          /\ nth ix offsets 0%Z
             = (Z.of_nat c + 1 + focus_leftOffset options records)%Z
          /\ (0 <= nth ix offsets 0 < 2 ^ 31)%Z
          /\ forall s, s < nSeqs ali ->
               seqAt ali s ix
               = let x := nth c (nth s (kept_rows options records) []) 0%Z in
                 if is_codesAA (alphabet options)
                 then shift_code
                        (String.length (alphabet_string (alphabet options))) x
                 else x)
  /\ (forall ix ix', ix < ix' -> ix' < nSites ali ->
        (nth ix offsets 0 < nth ix' offsets 0)%Z).
Proof.
  intros Hread Hoff Hscan Hcols. unfold MSARead_offsets in Hoff.
  pose proof (focus_leftOffset_bound options records Hscan) as Hleft.
  destruct (0 <=? focus_index options records)%Z; [|discriminate].
  injection Hoff as <-.
  destruct (map_offsets_spec (site_mask options records)
              (focus_leftOffset options records)) as [Hlen Hcells].
  destruct (MSARead_result records options ali Hread)
    as (Hrows & Hmask & _ & _ & Hseqs & Hsites & _).
  set (mask := site_mask options records) in *.
  set (offsets := map_offsets mask _ _) in *.
  assert (length offsets = nSites ali) as Hlen' by (by rewrite Hlen, Hsites).
  split; [exact Hlen'|]. split.
  - intros ix Hix.
    destruct (Hcells ix) as (c & Hc & Hkept & Hbefore & Hcell); [lia|].
    exists c. split; [lia|]. split.
    { by rewrite (nth_lookup_Some offsets ix _ _ Hcell). }
    split.
    { rewrite (nth_lookup_Some offsets ix _ _ Hcell).
      change (2 ^ 31)%Z with 2147483648%Z.
      change (10 ^ 9)%Z with 1000000000%Z in Hleft, Hcols. lia. }
    intros s Hs. rewrite (MSARead_cell records options ali s ix Hread Hs Hix).
    set (row := nth s (kept_rows options records) []).
    assert (length row = first_length records) as Hrow.
    { assert (row ∈ kept_rows options records) as Hin
        by (apply list_elem_of_In, nth_In; lia).
      apply kept_rows_in in Hin. destruct Hin as [Hin _].
      by apply (proj1 (Forall_forall _ _) Hrows). }
    unfold reduced_row. cbv zeta. fold mask.
    destruct (is_codesAA (alphabet options)).
    + rewrite (nth_map_in_range _ _ ix 0%Z)
        by (rewrite select_sites_length by lia; fold mask; lia).
      f_equal. rewrite <- Hbefore. apply select_sites_nth; [lia|done].
    + rewrite <- Hbefore. apply select_sites_nth; [lia|done].
  - intros ix ix' Hlt Hix'.
    destruct (Hcells ix) as (c & Hc & _ & Hbefore & Hcell); [lia|].
    destruct (Hcells ix') as (c' & Hc' & _ & Hbefore' & Hcell'); [lia|].
    rewrite (nth_lookup_Some offsets ix _ _ Hcell).
    rewrite (nth_lookup_Some offsets ix' _ _ Hcell').
    assert (c < c'); [|lia].
    destruct (decide (c < c')) as [|Hge]; [done|].
    pose proof (kept_before_mono mask c' c ltac:(lia)). lia.
Qed.

Lemma offsets_map_witness :
  match MSARead (T := Q) sample_records (focus_options "s3"),
        MSARead_offsets (focus_options (T := Q) "s3") sample_records with
  | Some ali, Some offsets =>
      length offsets = nSites ali /\ offsets = [6; 8]%Z
  | _, _ => False
  end.
Proof.
  destruct (MSARead (T := Q) sample_records (focus_options "s3"))
    as [ali|] eqn:E1; [|vm_compute in E1; discriminate].
  destruct (MSARead_offsets (focus_options (T := Q) "s3") sample_records)
    as [offsets|] eqn:E2; [|vm_compute in E2; discriminate].
  split.
  - refine (proj1 (offsets_map sample_records (focus_options "s3") ali offsets
                     E1 E2 _ _)).
    + vm_compute. lia.
    + vm_compute. discriminate.
  - vm_compute in E2. by injection E2 as <-.
Defined.

(** ** MSAEstimateSampleSize: the marginals and the final weights *)

Lemma weightAt_scale (l : list Q) (r : Q) s :
  (weightAt ((fun x => nmul x r) <$> l) s == weightAt l s * r)%Q.
Proof.
  unfold weightAt. rewrite !nth_lookup, list_lookup_fmap.
  destruct (l !! s); simpl.
  - reflexivity.
  - unfold nzero. cbn [nlit Q_numeric]. ring.
Qed.

(** X24.  In exact arithmetic the marginals stay those of the final
    weights.  The rescaling that ends MSAEstimateSampleSize multiplies
    every weight by exp(uncN) / nEff and sets nEff to exp(uncN).  For an
    alignment with one weight per sequence, every code in 0 .. nCodes-1
    and a non-zero nEff, and whatever non-zero value exp(uncN) has:
    counting the marginals again after the rescaling would give, for sites
    i < j < nSites and symbols a, b in 0 .. nCodes-1, the fi(i, a) and
    fij(i, j, a, b) (and the gapi(i) and ungapij(i, j) of the gap-reduced
    convention) that MSACountMarginals stored before it. *)
Theorem marginals_after_rescale
    (ali : alignment_t Q) (options : options_t Q) (expUncN : Q)
    (i j : nat) (a b : Z) :
  wf_weights ali -> ~ (nEff ali == 0)%Q -> ~ (expUncN == 0)%Q ->
  i < j < nSites ali ->
  valid_codes ali ->
  (0 <= a < Z.of_nat (nCodes ali))%Z -> (0 <= b < Z.of_nat (nCodes ali))%Z ->
  let final :=
    MSAEstimateSampleSize_rescale (MSACountMarginals ali options) expUncN in
  (estimatorMAP options = INFER_MAP_PLM ->
     (fi (MSACountMarginals final options) (i, a) == fi final (i, a))%Q
     /\ (fij (MSACountMarginals final options) (i, j, a, b)
         == fij final (i, j, a, b))%Q)
  /\ (estimatorMAP options = INFER_MAP_PLM_GAPREDUCE ->
     (gapi (MSACountMarginals final options) i == gapi final i)%Q
     /\ (ungapij (MSACountMarginals final options) (i, j)
         == ungapij final (i, j))%Q).
Proof.
  intros Hwf HN He Hij _ _ _ final.
  set (stats := MSACountMarginals ali options) in *.
  assert (forall s,
    (weightAt (weights final) s * (1 / nEff final)
     == weightAt (weights ali) s * (1 / nEff ali))%Q) as Hcell.
  { intros s. unfold final. rewrite rescale_weights.
    - rewrite weightAt_scale.
      change (nEff (MSAEstimateSampleSize_rescale stats expUncN)) with expUncN.
      assert (weights stats = weights ali /\ nEff stats = nEff ali) as [-> ->]
        by (unfold stats, MSACountMarginals;
            destruct (estimatorMAP options); split; reflexivity).
      cbn [ndiv Q_numeric]. field. split; done.
    - unfold stats, MSACountMarginals, wf_weights.
      destruct (estimatorMAP options); exact Hwf. }
  assert (forall (g : nat -> bool),
    (Qsum (fun s => if g s then weightAt (weights final) s * (1 / nEff final)
                    else 0) 0 (nSeqs ali)
     == Qsum (fun s => if g s then weightAt (weights ali) s * (1 / nEff ali)
                       else 0) 0 (nSeqs ali))%Q) as Hsum.
  { intros g. apply Qsum_ext. intros s Hs.
    destruct (g s); [|reflexivity]. apply Hcell. }
  split; intros Hmode.
  - assert (fi final = count_fi ali (1 / nEff ali)%Q
            /\ fij final = count_fij ali (1 / nEff ali)%Q) as [-> ->].
    { unfold final, stats, MSACountMarginals. rewrite Hmode.
      split; reflexivity. }
    assert (nSeqs final = nSeqs ali /\ nSites final = nSites ali
            /\ forall s k, seqAt final s k = seqAt ali s k) as (Hn & Hm & Hseq).
    { unfold final, stats, MSACountMarginals. rewrite Hmode.
      repeat split; reflexivity. }
    unfold MSACountMarginals at 1 2. rewrite Hmode. cbn [fi fij].
    cbn [ndiv none nlit Q_numeric]. change (inject_Z 1) with 1%Q.
    split.
    + rewrite (count_fi_cell final), (count_fi_cell ali) by lia.
      rewrite Hn.
      rewrite (Qsum_ext _ (fun s => if (seqAt ali s i =? a)%Z
                 then weightAt (weights final) s * (1 / nEff final) else 0)%Q)
        by (intros s _; by rewrite Hseq).
      apply (Hsum (fun s => (seqAt ali s i =? a)%Z)).
    + rewrite (count_fij_cell final), (count_fij_cell ali) by lia.
      rewrite Hn.
      rewrite (Qsum_ext _ (fun s => if (seqAt ali s i =? a)%Z
                                       && (seqAt ali s j =? b)%Z
                 then weightAt (weights final) s * (1 / nEff final) else 0)%Q)
        by (intros s _; by rewrite !Hseq).
      apply (Hsum (fun s => (seqAt ali s i =? a)%Z && (seqAt ali s j =? b)%Z)).
  - assert (gapi final = count_gapi ali (1 / nEff ali)%Q
            /\ ungapij final = count_ungapij ali (1 / nEff ali)%Q) as [-> ->].
    { unfold final, stats, MSACountMarginals. rewrite Hmode.
      split; reflexivity. }
    assert (nSeqs final = nSeqs ali /\ nSites final = nSites ali
            /\ forall s k, seqAt final s k = seqAt ali s k) as (Hn & Hm & Hseq).
    { unfold final, stats, MSACountMarginals. rewrite Hmode.
      repeat split; reflexivity. }
    unfold MSACountMarginals at 1 2. rewrite Hmode. cbn [gapi ungapij].
    cbn [ndiv none nlit Q_numeric]. change (inject_Z 1) with 1%Q.
    split.
    + rewrite (count_gapi_cell final), (count_gapi_cell ali) by lia.
      rewrite Hn, <- !Qsum_indicator_scale.
      rewrite (Qsum_ext _ (fun s => if (seqAt ali s i =? 0)%Z
                 then weightAt (weights final) s * (1 / nEff final) else 0)%Q)
        by (intros s _; by rewrite Hseq).
      apply (Hsum (fun s => (seqAt ali s i =? 0)%Z)).
    + rewrite (count_ungapij_cell final), (count_ungapij_cell ali) by lia.
      rewrite Hn, <- !Qsum_indicator_scale.
      rewrite (Qsum_ext _ (fun s => if (0 <? seqAt ali s i)%Z
                                       && (0 <? seqAt ali s j)%Z
                 then weightAt (weights final) s * (1 / nEff final) else 0)%Q)
        by (intros s _; by rewrite !Hseq).
      apply (Hsum (fun s => (0 <? seqAt ali s i)%Z && (0 <? seqAt ali s j)%Z)).
Qed.

Lemma marginals_after_rescale_witness :
  (fi (MSACountMarginals
         (MSAEstimateSampleSize_rescale
            (MSACountMarginals twins (default_options INFER_MAP_PLM)) 3)
         (default_options INFER_MAP_PLM)) (0%nat, 1%Z)
   == fi (MSAEstimateSampleSize_rescale
            (MSACountMarginals twins (default_options INFER_MAP_PLM)) 3)
        (0%nat, 1%Z))%Q
  /\ (fij (MSACountMarginals
             (MSAEstimateSampleSize_rescale
                (MSACountMarginals twins (default_options INFER_MAP_PLM)) 3)
             (default_options INFER_MAP_PLM)) (0%nat, 1%nat, 1%Z, 2%Z)
      == fij (MSAEstimateSampleSize_rescale
                (MSACountMarginals twins (default_options INFER_MAP_PLM)) 3)
           (0%nat, 1%nat, 1%Z, 2%Z))%Q.
Proof.
  apply (marginals_after_rescale twins (default_options INFER_MAP_PLM) 3%Q
           0 1 1%Z 2%Z).
  - reflexivity.
  - vm_compute. discriminate.
  - vm_compute. discriminate.
  - simpl. lia.
  - exact twins_valid.
  - change (nCodes twins) with 21. lia.
  - change (nCodes twins) with 21. lia.
  - reflexivity.
Defined.

(** ** MSAEstimateSampleSize: sampling a symbol by CDF inversion *)

Lemma compute_cdf_spec (nC : nat) (P : list Q) :
  0 < nC ->
  length (compute_cdf nC P) = nC
  /\ forall a, a < nC ->
       (nth a (compute_cdf nC P) 0 == Qsum (fun b => nth b P 0) 0 (S a))%Q.
Proof.
  intros HnC. unfold compute_cdf.
  set (c0 := <[0 := nth 0 P nzero]> (replicate nC nzero)).
  pose proof (for_loop_inv (fun k (cdf : list Q) =>
      length cdf = nC
      /\ forall a, a < k ->
           (nth a cdf 0 == Qsum (fun b => nth b P 0) 0 (S a))%Q)
    1 nC
    (fun a cdf => <[a := nadd (nth (a - 1) cdf nzero) (nth a P nzero)]> cdf)
    c0) as Hinv.
  destruct Hinv as [Hlen Hcells]; [lia| | |].
  - split.
    + subst c0. by rewrite length_insert, length_replicate.
    + intros a Ha. assert (a = 0) as -> by lia.
      subst c0. rewrite (nth_lookup_Some _ 0 _ (nth 0 P nzero)).
      * rewrite Qsum_one. reflexivity.
      * apply list_lookup_insert_eq. rewrite length_replicate. lia.
  - intros k cdf Hk [Hlen Hcells]. split; [by rewrite length_insert|].
    intros a Ha. destruct (decide (a = k)) as [->|Hne].
    + rewrite (nth_lookup_Some _ k _
                 (nadd (nth (k - 1) cdf nzero) (nth k P nzero)))
        by (apply list_lookup_insert_eq; lia).
      rewrite (Qsum_S _ 0 k) by lia.
      cbn [nadd Q_numeric]. rewrite Hcells by lia.
      replace (S (k - 1)) with k by lia. reflexivity.
    + destruct (nth_lookup_or_length cdf a 0%Q) as [Hx|Hge]; [|lia].
      rewrite (nth_lookup_Some _ a _ (nth a cdf 0%Q))
        by (by rewrite list_lookup_insert_ne).
      apply Hcells. lia.
  - split; [exact Hlen|]. intros a Ha. by apply Hcells.
Qed.

(** X25.  Sampling by CDF inversion, in exact arithmetic.  For nCodes > 0,
    non-negative probabilities iP[0 .. nCodes-1] and a uniform draw with
    0 < U <= their sum, the scan of the CDF that the code builds stops
    inside the array, at the first symbol whose cumulative probability
    reaches U, and that symbol has positive probability. *)
Theorem cdf_inversion_samples_support (nC : nat) (P : list Q) (U : Q) :
  0 < nC ->
  (forall a, a < nC -> (0 <= nth a P 0)%Q) ->
  (0 < U)%Q -> (U <= Qsum (fun b => nth b P 0) 0 nC)%Q ->
  exists k, cdf_scan U (compute_cdf nC P) 0 = Some k
    /\ k < nC
    /\ (0 < nth k P 0)%Q
    /\ (U <= Qsum (fun b => nth b P 0) 0 (S k))%Q
    /\ (Qsum (fun b => nth b P 0) 0 k < U)%Q.
Proof.
  intros HnC Hnn HU0 HU1.
  destruct (compute_cdf_spec nC P HnC) as [Hlen Hcells].
  destruct (cdf_scan U (compute_cdf nC P) 0) as [k|] eqn:E.
  - apply cdf_scan_Some in E. rewrite Nat.sub_0_r in E.
    destruct E as (_ & Hk & Hreach & Hbelow).
    rewrite Hlen in Hk. rewrite Hcells in Hreach by done.
    assert (Qsum (fun b => nth b P 0) 0 k < U)%Q as Hprev.
    { destruct k as [|k]; [by rewrite Qsum_nil by lia|].
      rewrite <- Hcells by lia. apply Hbelow. lia. }
    exists k. repeat split; try done.
    rewrite (Qsum_S _ 0 k) in Hreach by lia. lra.
  - apply cdf_scan_None in E.
    assert (nth (nC - 1) (compute_cdf nC P) 0 < U)%Q as Hlast.
    { destruct (nth_lookup_or_length (compute_cdf nC P) (nC - 1) 0%Q)
        as [Hx|Hge]; [|lia].
      exact (Forall_lookup_1 _ _ _ _ E Hx). }
    rewrite Hcells in Hlast by lia.
    replace (S (nC - 1)) with nC in Hlast by lia. lra.
Qed.

Lemma cdf_inversion_samples_support_witness :
  exists k, cdf_scan (1 # 2)%Q (compute_cdf 3 [0; 1 # 4; 3 # 4]%Q) 0 = Some k
    /\ k < 3
    /\ (0 < nth k [0; 1 # 4; 3 # 4] 0)%Q
    /\ (1 # 2 <= Qsum (fun b => nth b [0; 1 # 4; 3 # 4] 0) 0 (S k))%Q
    /\ (Qsum (fun b => nth b [0; 1 # 4; 3 # 4] 0) 0 k < 1 # 2)%Q.
Proof.
  apply (cdf_inversion_samples_support 3 [0; 1 # 4; 3 # 4]%Q (1 # 2)%Q).
  - lia.
  - intros a Ha. destruct a as [|[|[|a]]]; try lia; vm_compute; discriminate.
  - reflexivity.
  - vm_compute. discriminate.
Defined.

(** ** MSAEstimateSampleSize: the sites of a trial on a single column *)

(** X26.  On an alignment with a single column the choice of the two
    sites of a trial never ends: when RandomInt(nSites) only returns values
    below nSites, the second site is drawn again for as long as it equals
    the first, and every finite run of draws is used up without a pair. *)
Theorem single_site_never_picks {T}
    (ali : alignment_t T) (draws : list nat) :
  nSites ali = 1 ->
  Forall (fun d => d < nSites ali) draws ->
  pick_sites ali draws = None.
Proof.
  intros Hone Hdraws. rewrite Hone in Hdraws.
  assert (forall l, Forall (fun d => d < 1) l -> pick_other 0 l = None) as Hnone.
  { induction 1 as [|d l Hd Hl IH]; [done|].
    simpl. destruct (Nat.eqb_spec d 0); [done|lia]. }
  unfold pick_sites. destruct Hdraws as [|d l Hd Hl]; [done|].
  assert (d = 0) as -> by lia. by rewrite Hnone.
Qed.

Lemma single_site_never_picks_witness :
  pick_sites (loaded (T := Q) codesAA 2 1 [1; 2]%Z) [0; 0; 0] = None.
Proof.
  apply (single_site_never_picks (loaded (T := Q) codesAA 2 1 [1; 2]%Z) [0; 0; 0]).
  - reflexivity.
  - repeat constructor.
Defined.

(** ** MSARead: a focus sequence that is not in the file *)

Lemma find_target_none (t : string) (names : list string) (s : nat) :
  Forall (fun n => String.prefix t n = false) names ->
  find_target t names s = (-1)%Z.
Proof.
  intros Hall. revert s. induction Hall as [|n names Hn Hall IH]; intros s.
  - reflexivity.
  - simpl. rewrite Hn. apply IH.
Qed.

(** X27.  When no name in the file starts with the focus name, MSARead
    proceeds without a focus sequence: it returns the alignment that it
    returns when no focus is asked for, with target -1, and leaves
    ali->offsets NULL. *)
Theorem MSARead_focus_not_found {T} `{Numeric T}
    (records : list (string * string)) (options : options_t T) (t : string) :
  target options = Some t ->
  Forall (fun r => String.prefix t (fst r) = false) records ->
  MSARead records options
  = MSARead records
      {| theta := theta options; scale := scale options; target := None;
         alphabet := alphabet options; estimatorMAP := estimatorMAP options |}
  /\ MSARead_offsets options records = None
  /\ forall ali, MSARead records options = Some ali -> ali_target ali = (-1)%Z.
Proof.
  intros Htarget Hnone.
  assert (find_target t (map fst records) 0 = (-1)%Z) as Hfind.
  { apply find_target_none. apply Forall_map.
    eapply Forall_impl; [exact Hnone|]. done. }
  assert (MSARead records options
          = MSARead records
              {| theta := theta options; scale := scale options; target := None;
                 alphabet := alphabet options;
                 estimatorMAP := estimatorMAP options |}) as Hsame.
  { unfold MSARead. destruct records as [|[name0 seq0] rest]; [done|].
    cbv zeta. cbn [target alphabet estimatorMAP].
    rewrite Htarget, Hfind. reflexivity. }
  split; [exact Hsame|]. split.
  - unfold MSARead_offsets, focus_index. by rewrite Htarget, Hfind.
  - intros ali Hread.
    destruct (MSARead_result records options ali Hread)
      as (_ & _ & _ & _ & _ & _ & _ & Htgt & _).
    rewrite Htgt. unfold reduced_target, focus_index.
    by rewrite Htarget, Hfind.
Qed.

Lemma MSARead_focus_not_found_witness :
  MSARead (T := Q) sample_records (focus_options "zz")
  = MSARead sample_records
      {| theta := theta (focus_options (T := Q) "zz");
         scale := scale (focus_options (T := Q) "zz"); target := None;
         alphabet := alphabet (focus_options (T := Q) "zz");
         estimatorMAP := estimatorMAP (focus_options (T := Q) "zz") |}
  /\ MSARead_offsets (focus_options (T := Q) "zz") sample_records = None
  /\ forall ali, MSARead (T := Q) sample_records (focus_options "zz") = Some ali ->
                 ali_target ali = (-1)%Z.
Proof.
  apply (MSARead_focus_not_found sample_records (focus_options "zz") "zz").
  - reflexivity.
  - repeat constructor.
Defined.

(** ** OutputCouplingScores: the average product correction *)

Lemma tupd_sub_read {K} `{EqDecision K} (t : table K Q) k (v : Q) k0 :
  (tupd t k (fun x => nsub x v) k0
   == t k0 + (if decide (k0 = k) then - v else 0))%Q.
Proof.
  unfold tupd. destruct (decide (k0 = k)); cbn [nsub Q_numeric]; ring.
Qed.

(* Sums over the pairs i < j < n that contain a given site. *)
Lemma pairs_first (a : nat -> nat -> Q) (n k : nat) :
  k < n ->
  (Qsum (fun i => Qsum (fun j => if decide (k = i) then a i j else 0) (i + 1) n)
        0 (n - 1)
   == Qsum (fun j => a k j) (k + 1) n)%Q.
Proof.
  intros Hk. destruct (decide (k < n - 1)) as [Hlt|Hge].
  - rewrite (Qsum_single _ 0 (n - 1) k); [|lia|].
    + apply Qsum_ext. intros j _. by destruct (decide (k = k)).
    + intros i _ Hne. apply Qsum_zero. intros j _.
      destruct (decide (k = i)); [congruence|reflexivity].
  - rewrite (Qsum_nil _ (k + 1) n) by lia.
    apply Qsum_zero. intros i Hi. apply Qsum_zero. intros j _.
    destruct (decide (k = i)); [lia|reflexivity].
Qed.

Lemma pairs_second (a : nat -> nat -> Q) (n k : nat) :
  k < n ->
  (Qsum (fun i => Qsum (fun j => if decide (k = j) then a i j else 0) (i + 1) n)
        0 (n - 1)
   == Qsum (fun i => a i k) 0 k)%Q.
Proof.
  intros Hk.
  rewrite (Qsum_split _ 0 k (n - 1)) by lia.
  rewrite (Qsum_zero _ k (n - 1)).
  - rewrite Qplus_0_r. apply Qsum_ext. intros i Hi.
    rewrite (Qsum_single _ (i + 1) n k); [|lia|].
    + by destruct (decide (k = k)).
    + intros j _ Hne. destruct (decide (k = j)); [congruence|reflexivity].
  - intros i Hi. apply Qsum_zero. intros j Hj.
    destruct (decide (k = j)); [lia|reflexivity].
Qed.

(* The number of pairs: the triangular sum of a constant. *)
Lemma pairs_const (v : Q) (n : nat) :
  (Qsum (fun i => Qsum (fun _ => v) (i + 1) n) 0 (n - 1)
   == inject_Z (Z.of_nat (n * (n - 1))) / 2 * v)%Q.
Proof.
  induction n as [|n IH].
  - rewrite Qsum_nil by lia. simpl. field.
  - destruct n as [|n].
    + rewrite Qsum_nil by lia. simpl. field.
    + replace (S (S n) - 1) with (S (S n - 1)) by lia.
      rewrite Qsum_S by lia.
      rewrite (Qsum_ext _ (fun i => Qsum (fun _ => v) (i + 1) (S n) + v)%Q).
      * rewrite Qsum_add, IH, !Qsum_const by lia.
        replace (S (S n) - (S n - 1 + 1)) with 1 by lia.
        replace (S n - 1 - 0) with n by lia.
        replace (S (S n) * S (S n - 1)) with (S n * (S n - 1) + 2 * S n) by nia.
        rewrite Nat2Z.inj_add, inject_Z_plus.
        replace (Z.of_nat (2 * S n)) with (2 * Z.of_nat (S n))%Z by lia.
        rewrite inject_Z_mult.
        replace (Z.of_nat (S n)) with (Z.of_nat n + 1)%Z by lia.
        rewrite inject_Z_plus.
        change (inject_Z (Z.of_nat 0)) with 0%Q.
        change (inject_Z (Z.of_nat 1)) with 1%Q.
        change (inject_Z 1) with 1%Q. change (inject_Z 2) with 2%Q.
        field.
      * intros i Hi. rewrite (Qsum_S _ (i + 1) (S n)) by lia. reflexivity.
Qed.

Section APCResult.
Variable coupling_index : nat -> nat -> nat.
Variable n : nat.
Variable c : table nat Q.
Hypothesis Hinj : forall i j i' j', i < j < n -> i' < j' < n ->
  coupling_index i j = coupling_index i' j' -> i = i' /\ j = j'.

Lemma site_statistics_site (k : nat) :
  k < n ->
  (fst (site_statistics coupling_index n c) k
   == site_average coupling_index n c k)%Q.
Proof using Type.
  intros Hk. unfold site_statistics, site_average. cbv zeta.
  set (d := inject_Z (Z.of_nat (n - 1))).
  rewrite (for_loop_contrib (fun st => fst st k)
    (fun i => Qsum (fun j =>
       (if decide (k = i) then c (coupling_index i j) / d else 0)
       + (if decide (k = j) then c (coupling_index i j) / d else 0)) (i + 1) n)%Q).
  - cbn [fst]. unfold tzero, nzero. cbn [nlit Q_numeric].
    rewrite Qplus_0_l.
    rewrite (Qsum_ext _ (fun i =>
       Qsum (fun j => if decide (k = i) then c (coupling_index i j) / d else 0)
            (i + 1) n
       + Qsum (fun j => if decide (k = j) then c (coupling_index i j) / d else 0)
              (i + 1) n)%Q) by (intros i _; apply Qsum_add).
    rewrite Qsum_add.
    rewrite (pairs_first (fun i j => c (coupling_index i j) / d)%Q) by done.
    rewrite (pairs_second (fun i j => c (coupling_index i j) / d)%Q) by done.
    unfold Qdiv. rewrite !Qsum_scale. ring.
  - intros i st _.
    rewrite (for_loop_contrib (fun st => fst st k)
      (fun j => (if decide (k = i) then c (coupling_index i j) / d else 0)
                + (if decide (k = j) then c (coupling_index i j) / d else 0))%Q).
    + reflexivity.
    + intros j st' _. cbn [fst]. rewrite !tupd_add_read.
      cbn [ndiv nnat nlit Q_numeric]. symmetry. apply Qplus_assoc.
Qed.

Lemma site_statistics_all :
  (snd (site_statistics coupling_index n c)
   == pair_average coupling_index n c)%Q.
Proof using Type.
  unfold site_statistics, pair_average. cbv zeta.
  set (p := (inject_Z (Z.of_nat (n * (n - 1))) / 2)%Q).
  rewrite (for_loop_contrib (fun st => snd st)
    (fun i => Qsum (fun j => c (coupling_index i j) / p) (i + 1) n)%Q).
  - cbn [snd]. unfold nzero. cbn [nlit Q_numeric]. rewrite Qplus_0_l.
    unfold Qdiv at 2. rewrite <- Qsum_scale.
    apply Qsum_ext. intros i _. unfold Qdiv. by rewrite Qsum_scale.
  - intros i st _.
    rewrite (for_loop_contrib (fun st => snd st)
      (fun j => c (coupling_index i j) / p)%Q).
    + reflexivity.
    + intros j st' _. cbn [snd]. reflexivity.
Qed.

Lemma average_product_correction_cell (i j : nat) :
  i < j < n ->
  (average_product_correction coupling_index n c (coupling_index i j)
   == c (coupling_index i j)
      - site_average coupling_index n c i * site_average coupling_index n c j
        / pair_average coupling_index n c)%Q.
Proof using Hinj.
  intros Hij. unfold average_product_correction. cbv zeta.
  set (st := site_statistics coupling_index n c).
  set (corr := fun i' j' => (fst st i' * fst st j' / snd st)%Q).
  rewrite (for_loop_contrib (fun t => t (coupling_index i j))
    (fun i' => if decide (i' = i) then - corr i j else 0)%Q).
  - rewrite (Qsum_single _ 0 (n - 1) i); [|lia|].
    + destruct (decide (i = i)); [|done]. unfold corr, st.
      rewrite !site_statistics_site, site_statistics_all by lia. ring.
    + intros i' _ Hne. by destruct (decide (i' = i)).
  - intros i' t Hi'.
    rewrite (for_loop_contrib (fun t => t (coupling_index i j))
      (fun j' => if decide (coupling_index i j = coupling_index i' j')
                 then - corr i' j' else 0)%Q).
    + destruct (decide (i' = i)) as [->|Hne].
      * rewrite (Qsum_single _ (i + 1) n j); [|lia|].
        -- destruct (decide _); [ring|done].
        -- intros j' Hj' Hne. destruct (decide _) as [E|]; [|reflexivity].
           apply Hinj in E; lia.
      * rewrite Qsum_zero; [ring|]. intros j' Hj'.
        destruct (decide _) as [E|]; [|reflexivity]. apply Hinj in E; lia.
    + intros j' t' _. rewrite tupd_sub_read. unfold corr.
      cbn [nmul ndiv Q_numeric]. reflexivity.
Qed.

End APCResult.

(** X28.  The average product correction, in exact arithmetic.  When the
    macro coupling(i, j) gives distinct pairs of sites i < j < nSites
    distinct cells, the corrected score of a pair i < j < nSites is its
    norm minus the product of the two site averages of the norms divided
    by the average over all pairs, when that average is not zero; in
    particular, when all norms are the same non-zero number, every
    corrected score is 0. *)
Theorem average_product_correction_scores
    (coupling_index : nat -> nat -> nat) (n : nat) (c : table nat Q)
    (i j : nat) :
  (forall i j i' j', i < j < n -> i' < j' < n ->
     coupling_index i j = coupling_index i' j' -> i = i' /\ j = j') ->
  i < j < n ->
  (~ (pair_average coupling_index n c == 0)%Q ->
   (average_product_correction coupling_index n c (coupling_index i j)
    == c (coupling_index i j)
       - site_average coupling_index n c i * site_average coupling_index n c j
         / pair_average coupling_index n c)%Q)
  /\ forall v, ~ (v == 0)%Q ->
       (forall i' j', i' < j' < n -> (c (coupling_index i' j') == v)%Q) ->
       (average_product_correction coupling_index n c (coupling_index i j)
        == 0)%Q.
Proof.
  intros Hinj Hij.
  pose proof (average_product_correction_cell coupling_index n c Hinj i j Hij)
    as Hcell.
  split; [intros _; exact Hcell|].
  intros v Hv Hall. rewrite Hcell, (Hall i j Hij).
  assert (0 < inject_Z (Z.of_nat (n - 1)))%Q as Hd.
  { change 0%Q with (inject_Z 0). rewrite <- Zlt_Qlt. lia. }
  assert (forall k, k < n -> (site_average coupling_index n c k == v)%Q) as Hsite.
  { intros k Hk. unfold site_average.
    rewrite (Qsum_ext _ (fun _ => v) 0 k) by (intros l Hl; apply Hall; lia).
    rewrite (Qsum_ext _ (fun _ => v) (k + 1) n) by (intros l Hl; apply Hall; lia).
    rewrite !Qsum_const by lia.
    assert (inject_Z (Z.of_nat (k - 0)) + inject_Z (Z.of_nat (n - (k + 1)))
            == inject_Z (Z.of_nat (n - 1)))%Q as E.
    { rewrite <- inject_Z_plus. apply inject_Z_injective. lia. }
    set (x := inject_Z (Z.of_nat (k - 0))) in *.
    set (y := inject_Z (Z.of_nat (n - (k + 1)))) in *.
    set (d := inject_Z (Z.of_nat (n - 1))) in *.
    assert (x * v + y * v == d * v)%Q as -> by (rewrite <- E; ring).
    field. lra. }
  assert (0 < inject_Z (Z.of_nat (n * (n - 1))))%Q as Hp.
  { change 0%Q with (inject_Z 0). rewrite <- Zlt_Qlt. nia. }
  assert (pair_average coupling_index n c == v)%Q as Hpair.
  { unfold pair_average.
    rewrite (Qsum_ext _ (fun i => Qsum (fun _ => v) (i + 1) n))
      by (intros i' Hi'; apply Qsum_ext; intros j' Hj'; apply Hall; lia).
    rewrite pairs_const. field. lra. }
  rewrite !Hsite, Hpair by lia. field. exact Hv.
Qed.

Lemma average_product_correction_scores_witness :
  (average_product_correction (fun i j => (i * 3 + j)%nat) 3 (fun _ => 5)
     (0 * 3 + 2)%nat
   == 0)%Q.
Proof.
  apply (average_product_correction_scores (fun i j => i * 3 + j) 3
           (fun _ => 5%Q) 0 2) with (v := 5%Q).
  - intros i j i' j' Hij Hij' E. lia.
  - lia.
  - discriminate.
  - intros i' j' _. reflexivity.
Defined.
